(** * The osu! ruleset coordinator of danser-go, embedded in Rocq

    Shallow embedding of [app/rulesets/osu]: the [Grade] enumeration
    (grade.go) and the ruleset coordinator [OsuRuleSet] (ruleset.go): its
    construction, the per-tick [Update], the result aggregation [SendResult],
    the click gate [CanBeHit], and the fail path [failInternal] /
    [PlayerStopped]; then the per-player passes [UpdateClickFor],
    [UpdateNormalFor] and [UpdatePostFor], and a caller of the coordinator,
    the score overlay of [app/states/components] (scoreoverlay.go).

    Conventions.
    - Go's [int64], [int] and [uint] are 64-bit; they are modelled as [Z]
      with the wrap-around written out ([Go.int64], [Go.uint]).
    - A finite [float64] value is modelled as the rational [Q] that it
      denotes, and the times of the hit objects are such values.  The
      conversions [float64(n)] and the float64 arithmetic of the
      coordinator (the accuracy of line 606, the ratios of lines 609-627
      and the sum of line 753) round to binary64 ([Go.round64]).  The
      division by zero of line 609 keeps its IEEE meaning (see [fgt],
      [flt]).  The hit range of line 783 is a constant of the difficulty
      package; [HittableRange - 200] stands for its difference as it is.
    - A Go pointer to a cursor is a key [nat]; [map[*graphics.Cursor]*subSet]
      is a [gmap nat subSet].  A run-time panic (nil dereference, index out
      of range) is the result [None].
    - Listeners are callbacks of the caller.  The ruleset state records
      whether one is registered, and the calls made to it are appended to a
      log ([hitLog], [endLog], [failLog]).
    - Types and functions that the coordinator uses but that are declared
      elsewhere (the hit result bit set, the score processors, the health
      processor, the per-kind judges, the difficulty and performance
      packages) are interfaces here: type classes whose operations are
      parameters of every definition and theorem. *)

From Stdlib Require Import ZArith QArith Qabs Lia.
From stdpp Require Import base option list gmap strings.

Local Open Scope Z_scope.

(** ** Machine integers *)

Module Go.

Definition int64 (x : Z) : Z := (x + 2 ^ 63) mod 2 ^ 64 - 2 ^ 63.

Definition uint (x : Z) : Z := x mod 2 ^ 64.

(** [C.uint(x)]: the 32-bit unsigned integer of C. *)
Definition c_uint (x : Z) : Z := x mod 2 ^ 32.

(** [int64(f)] for a float [f]: truncation toward zero. *)
Definition trunc (q : Q) : Z := Z.quot (Qnum q) (Zpos (Qden q)).

(** Decidable comparisons on [Q]. *)
Definition Qltb (a b : Q) : bool :=
  Qnum a * Zpos (Qden b) <? Qnum b * Zpos (Qden a).

Definition Qleb (a b : Q) : bool :=
  Qnum a * Zpos (Qden b) <=? Qnum b * Zpos (Qden a).

(** [2^k] as a rational, for any integer [k]. *)
Definition pow2 (k : Z) : Q :=
  if 0 <=? k then inject_Z (2 ^ k) else 1 # Z.to_pos (2 ^ (- k)).

(** The binary exponent of the positive rational [n/d]: the [e] with
    [2^e <= n/d < 2^(e+1)]. *)
Definition ilog2 (n : Z) (d : positive) : Z :=
  let e := Z.log2 n - Z.log2 (Zpos d) in
  if Qleb (pow2 e) (n # d) then e else e - 1.

(** The integer nearest to [n/d] for [n >= 0], ties to the even one. *)
Definition nearest_even (n : Z) (d : positive) : Z :=
  let f := n / Zpos d in
  let r := n mod Zpos d in
  if 2 * r <? Zpos d then f
  else if Zpos d <? 2 * r then f + 1
  else if Z.even f then f else f + 1.

(** The binary64 value nearest to the positive rational [n/d]: 53
    significant bits at the exponent of [n/d], and the spacing [2^-1074]
    of the subnormal numbers below [2^-1022]. *)
Definition round64_pos (n : Z) (d : positive) : Q :=
  let c := Z.max (ilog2 n d) (-1022) - 52 in
  if 0 <? c
  then inject_Z (nearest_even n (d * Z.to_pos (2 ^ c)) * 2 ^ c)
  else nearest_even (n * 2 ^ (- c)) d # Z.to_pos (2 ^ (- c)).

(** Rounding to binary64, to nearest with ties to even: the rounding of
    every float64 operation of Go.  The overflow to an infinity is not
    modelled; it does not arise where the rounding is used below. *)
Definition round64 (q : Q) : Q :=
  Qred
    match Qnum q with
    | 0 => 0
    | Zpos n => round64_pos (Zpos n) (Qden q)
    | Zneg n => - round64_pos (Zpos n) (Qden q)
    end.

(** [float64(n)] for an integer [n]. *)
Definition float (n : Z) : Q := round64 (inject_Z n).

(** The float64 operations [a + b], [a * b] and [a / b], for a divisor
    other than zero. *)
Definition fadd (a b : Q) : Q := round64 (a + b).

Definition fmul (a b : Q) : Q := round64 (a * b).

Definition fdiv (a b : Q) : Q := round64 (a / b).

(** [mutils.Max] on integers. *)
Definition Max (a b : Z) : Z := if a <? b then b else a.

(** [float64(a) / float64(b) > p / q] for counters [a], [b] and the
    constant [p / q] with a positive [q]: the quotient and the constant are
    binary64 values; for [b = 0] the quotient is [+Inf] when [a > 0] and
    [NaN] when [a = 0], and every comparison with [NaN] is false. *)
Definition fgt (a b p q : Z) : bool :=
  if b =? 0 then 0 <? a
  else Qltb (round64 (p # Z.to_pos q)) (fdiv (float a) (float b)).

(** [float64(a) / float64(b) < p / q], same conventions. *)
Definition flt (a b p q : Z) : bool :=
  if b =? 0 then false
  else Qltb (fdiv (float a) (float b)) (round64 (p # Z.to_pos q)).

(** [sort.Search(n, f)]: the binary search of the Go library, on the
    interval [i, j); [fuel] bounds the number of halvings. *)
Fixpoint search_loop (fuel : nat) (f : Z → bool) (i j : Z) : Z :=
  match fuel with
  | O => i
  | S fuel' =>
      if i <? j then
        let h := Z.shiftr (uint (i + j)) 1 in
        if f h then search_loop fuel' f i h
        else search_loop fuel' f (h + 1) j
      else i
  end.

Definition Search (n : Z) (f : Z → bool) : Z :=
  search_loop (Z.to_nat n) f 0 n.

End Go.

Arguments Go.round64 : simpl never.
Arguments Go.float : simpl never.
Arguments Go.fadd : simpl never.
Arguments Go.fmul : simpl never.
Arguments Go.fdiv : simpl never.

(** ** grade.go *)

Module Grade.

Inductive t := NONE | D | _C | B | A | S | SH | SS | SSH.

(** [Grade(iota)] numbering. *)
Definition value (g : t) : Z :=
  match g with
  | NONE => 0 | D => 1 | _C => 2 | B => 3 | A => 4
  | S => 5 | SH => 6 | SS => 7 | SSH => 8
  end.

Definition String (grade : t) : string :=
  match grade with
  | D => "D" | _C => "C" | B => "B" | A => "A"
  | S => "S" | SH => "SH" | SS => "SS" | SSH => "SSH"
  | NONE => "None"
  end.

Definition TextureName (grade : t) : string :=
  match grade with
  | D => "d" | _C => "c" | B => "b" | A => "a"
  | S => "s" | SH => "sh" | SS => "x" | SSH => "xh"
  | NONE => "none"
  end.

End Grade.

#[global] Instance Grade_eq_dec : EqDecision Grade.t.
Proof. solve_decision. Defined.

(** ** ruleset.go: enumerations *)

Definition Tolerance2B : Z := 3.

Inductive ClickAction := Ignored | Shake | Click.

Inductive ComboResult := Reset | Hold | Increase.

#[global] Instance ClickAction_eq_dec : EqDecision ClickAction.
Proof. solve_decision. Defined.

#[global] Instance ComboResult_eq_dec : EqDecision ComboResult.
Proof. solve_decision. Defined.

(** ** Interfaces of the surrounding packages *)

(** [HitResult] is an [int64] bit set. *)
Definition HitResult := Z.

(** [difficulty.Modifier] is a bit set as well. *)
Definition Modifier := Z.

(** The constants of the hit result enumeration that the coordinator
    mentions, and the point value [ScoreValue] of a result. *)
Class HitResults := {
  Ignore : HitResult;
  SliderMiss : HitResult;
  Miss : HitResult;
  Hit50 : HitResult;
  Hit100 : HitResult;
  Hit300 : HitResult;
  MuAddition : HitResult;
  KatuAddition : HitResult;
  GekiAddition : HitResult;
  PositionalMiss : HitResult;
  BaseHits : HitResult;
  BaseHitsM : HitResult;
  SliderHits : HitResult;
  ScoreValue : HitResult → Z
}.

(** [difficulty.Difficulty]: only its modifier set is read here. *)
Record Difficulty := { Mods : Modifier }.

(** Package [difficulty]: the modifiers the coordinator tests, the two
    membership tests, the mask of the difficulty-changing modifiers and
    the width of the window in which an object can be clicked. *)
Class Modifiers := {
  Easy : Modifier;
  NoFail : Modifier;
  Hidden : Modifier;
  SuddenDeath : Modifier;
  Relax : Modifier;
  Flashlight : Modifier;
  Relax2 : Modifier;
  Perfect : Modifier;
  ScoreV2 : Modifier;
  Active : Modifier → Modifier → bool;
  CheckModActive : Difficulty → Modifier → bool;
  GetDiffMaskedMods : Modifier → Modifier;
  HittableRange : Q
}.

(** [graphics.Cursor]: [ptr] stands for the address of the cursor, the
    other fields are the ones the coordinator reads. *)
Record Cursor := {
  ptr : nat;
  Name : string;
  IsReplay : bool;
  IsAutoplay : bool;
  IsPlayer : bool;
  OldSpinnerScoring : bool
}.

(** [difficultyPlayer]; the button fields belong to the edge detection of
    [UpdateClickFor] and are not read by the functions embedded here. *)
Record difficultyPlayer := {
  cursor : Cursor;
  diff : Difficulty
}.

(** [objects.IHitObject], an object of the beatmap, by its getters. *)
Inductive ObjectType := CIRCLE | SLIDER | SPINNER.

#[global] Instance ObjectType_eq_dec : EqDecision ObjectType.
Proof. solve_decision. Defined.

Record IHitObject := {
  GetID : Z;
  GetStartTime : Q;
  GetEndTime : Q;
  IsNewCombo : bool;
  GetStackIndex : Modifier → Z;
  GetType : ObjectType
}.

(** [beatmap.BeatMap]: the object list and the modifiers of the map. *)
Record BeatMap := {
  HitObjects : list IHitObject;
  Diff_Mods : Modifier;
  Dir : string;
  File : string
}.

(** One call of [SendResult] as a judge issues it. *)
Record Judgement (Obj : Type) := {
  j_time : Z;
  j_cursor : nat;
  j_src : Obj;
  j_x : Q;
  j_y : Q;
  j_result : HitResult;
  j_comboResult : ComboResult
}.
Arguments j_time {Obj}.
Arguments j_cursor {Obj}.
Arguments j_src {Obj}.
Arguments j_x {Obj}.
Arguments j_y {Obj}.
Arguments j_result {Obj}.
Arguments j_comboResult {Obj}.

(** The interface [HitObject] of ruleset.go, for the methods the embedded
    functions call.  [Init] builds the judge of a beatmap object for the
    players of the session ([new(Circle)], [new(Slider)] or [new(Spinner)]
    followed by its [Init]).  [UpdatePost] may change the judge and may call
    back [SendResult]: it returns the new judge, the calls it makes and its
    result.  [isCircle] is the type assertion on the judge made by
    [CanBeHit]; [sameObject] is the equality of two interface values, that
    is the identity of the judges. *)
Class HitObject (Obj : Type) := {
  Init : IHitObject → list difficultyPlayer → Obj;
  UpdatePost : Obj → Z → Obj * list (Judgement Obj) * bool;
  IsHit : Obj → difficultyPlayer → bool;
  GetFadeTime : Obj → Z;
  GetNumber : Obj → Z;
  isCircle : Obj → bool;
  sameObject : Obj → Obj → bool
}.

(** The interface [scoreProcessor] of ruleset.go, with the two
    constructors already followed by [Init(beatMap, player)]. *)
Class ScoreProcessor (SP Obj : Type) := {
  newScoreV1Processor : BeatMap → difficultyPlayer → SP;
  newScoreV2Processor : BeatMap → difficultyPlayer → SP;
  AddResult : SP → HitResult → ComboResult → SP;
  ModifyResult : SP → HitResult → Obj → HitResult;
  GetScore : SP → Z;
  GetCombo : SP → Z
}.

(** [HealthProcessor].  [NewHealthProcessor] is the constructor followed by
    [CalculateRate] and [ResetHp].  Each method gives the new health state;
    the companion [_fails] tells whether the call ends by running the
    registered fail listeners.  The flag of [Increase] switches the fail
    check, so [Increase(amount, false)] runs no listener. *)
Class HealthProcessor (HP : Type) := {
  NewHealthProcessor : BeatMap → Difficulty → bool → HP;
  hpIncrease : HP → Q → bool → HP;
  hpIncrease_fails : HP → Q → bool;
  hpAddResult : HP → HitResult → HP;
  hpAddResult_fails : HP → HitResult → bool;
  hpUpdate : HP → Z → HP;
  hpUpdate_fails : HP → Z → bool
}.

(** ** ruleset.go: records

    A field that shares its name with a type or with a field of another
    record is renamed: [Score_] and [Grade_] are the fields [Score] and
    [Grade] of [Score], [Score_Mods] its field [Mods]; [PR_PP] is the field
    [PP] of [PerformanceResult]; [SP_Mods] and [SP_Accuracy] are the fields
    [Mods] and [Accuracy] of [ScoreParams]. *)

Record Score := {
  Score_ : Z;
  Accuracy : Q;
  Grade_ : Grade.t;
  Combo : Z;
  PerfectCombo : bool;
  Count300 : Z;
  CountGeki : Z;
  Count100 : Z;
  CountKatu : Z;
  Count50 : Z;
  CountMiss : Z;
  CountSB : Z;
  PP : Q;
  Score_Mods : Modifier
}.

Record PerformanceResult := { PR_PP : Q; Stars : Q }.

Record rosuPP := {
  MapPath : string;
  Performance : PerformanceResult
}.

Record ScoreParams := {
  Mode : Z;
  SP_Mods : Z;
  MaxCombo : Z;
  SP_Accuracy : Q;
  MissCount : Z;
  PassedObjects : Z
}.

(** The performance calculators: the foreign function [calculate_score]
    (its result is handed back as a [PerformanceResult]); of package
    [pp220930] the step attributes with their [MaxCombo], [CalculateStep],
    the zero calculator and [PPv2x] that updates it in place. *)
Class Performances (Attributes PPv2 : Type) := {
  calculate_score : string → Z → Z → Z → Q → Z → option Z → PerformanceResult;
  Attr_MaxCombo : Attributes → Z;
  CalculateStep : list IHitObject → Difficulty → list Attributes;
  PPv2_zero : PPv2;
  PPv2x : PPv2 → Attributes → Z → Z → Z → Z → Z → Difficulty → PPv2
}.

(** Package [settings]; [SongPath] is the path of the map file,
    [filepath.Join(settings.General.GetSongsDir(), beatMap.Dir, beatMap.File)]. *)
Class Settings := {
  IgnoreFailsInReplays : bool;
  RECORD : bool;
  SongPath : BeatMap → string
}.

(** The arguments of one call of the hit listener. *)
Record HitEvent := {
  he_cursor : nat;
  he_time : Z;
  he_number : Z;
  he_position : Q * Q;
  he_result : HitResult;
  he_comboResult : ComboResult;
  he_ppResults : PerformanceResult;
  he_score : Z
}.

Section Ruleset.

Context {hr : HitResults} {md : Modifiers} {st : Settings}.
Context {SP HP Obj Attributes PPv2 : Type}.
Context {ho : HitObject Obj} {sp : ScoreProcessor SP Obj} {hpr : HealthProcessor HP}.
Context {pf : Performances Attributes PPv2}.

Record subSet := {
  player : difficultyPlayer;
  score : Score;
  hp : HP;
  scoreProcessor : SP;
  rawScore : Z;
  currentKatu : Z;
  currentBad : Z;
  numObjects : Z;
  performance : rosuPP;
  ppv2 : PPv2;
  recoveries : Z;
  failed : bool;
  sdpfFail : bool;
  forceFail : bool
}.

(** [OsuRuleSet].  The three listener fields tell whether a listener is
    registered; the three logs hold the calls made to them. *)
Record OsuRuleSet := {
  beatMap : BeatMap;
  cursors : gmap nat subSet;
  ended : bool;
  oppDiffs : gmap Z (list Attributes);
  queue : list Obj;
  processed : list Obj;
  hitListener : bool;
  endListener : bool;
  failListener : bool;
  experimentalPP : bool;
  hitLog : list HitEvent;
  endLog : list (Z * Z);
  failLog : list nat
}.

(** *** Field updates *)

Definition set_hp (s : subSet) (h : HP) : subSet :=
  {| player := player s; score := score s; hp := h;
     scoreProcessor := scoreProcessor s; rawScore := rawScore s;
     currentKatu := currentKatu s; currentBad := currentBad s;
     numObjects := numObjects s; performance := performance s;
     ppv2 := ppv2 s; recoveries := recoveries s; failed := failed s;
     sdpfFail := sdpfFail s; forceFail := forceFail s |}.

Definition set_recoveries (s : subSet) (r : Z) : subSet :=
  {| player := player s; score := score s; hp := hp s;
     scoreProcessor := scoreProcessor s; rawScore := rawScore s;
     currentKatu := currentKatu s; currentBad := currentBad s;
     numObjects := numObjects s; performance := performance s;
     ppv2 := ppv2 s; recoveries := r; failed := failed s;
     sdpfFail := sdpfFail s; forceFail := forceFail s |}.

Definition set_failed (s : subSet) (b : bool) : subSet :=
  {| player := player s; score := score s; hp := hp s;
     scoreProcessor := scoreProcessor s; rawScore := rawScore s;
     currentKatu := currentKatu s; currentBad := currentBad s;
     numObjects := numObjects s; performance := performance s;
     ppv2 := ppv2 s; recoveries := recoveries s; failed := b;
     sdpfFail := sdpfFail s; forceFail := forceFail s |}.

Definition set_forceFail (s : subSet) (b : bool) : subSet :=
  {| player := player s; score := score s; hp := hp s;
     scoreProcessor := scoreProcessor s; rawScore := rawScore s;
     currentKatu := currentKatu s; currentBad := currentBad s;
     numObjects := numObjects s; performance := performance s;
     ppv2 := ppv2 s; recoveries := recoveries s; failed := failed s;
     sdpfFail := sdpfFail s; forceFail := b |}.

Definition set_cursors (set : OsuRuleSet) (c : gmap nat subSet) : OsuRuleSet :=
  {| beatMap := beatMap set; cursors := c; ended := ended set;
     oppDiffs := oppDiffs set; queue := queue set;
     processed := processed set; hitListener := hitListener set;
     endListener := endListener set; failListener := failListener set;
     experimentalPP := experimentalPP set; hitLog := hitLog set;
     endLog := endLog set; failLog := failLog set |}.

Definition set_lists (set : OsuRuleSet) (q p : list Obj) : OsuRuleSet :=
  {| beatMap := beatMap set; cursors := cursors set; ended := ended set;
     oppDiffs := oppDiffs set; queue := q;
     processed := p; hitListener := hitListener set;
     endListener := endListener set; failListener := failListener set;
     experimentalPP := experimentalPP set; hitLog := hitLog set;
     endLog := endLog set; failLog := failLog set |}.

Definition set_ended (set : OsuRuleSet) (b : bool) : OsuRuleSet :=
  {| beatMap := beatMap set; cursors := cursors set; ended := b;
     oppDiffs := oppDiffs set; queue := queue set;
     processed := processed set; hitListener := hitListener set;
     endListener := endListener set; failListener := failListener set;
     experimentalPP := experimentalPP set; hitLog := hitLog set;
     endLog := endLog set; failLog := failLog set |}.

Definition set_listeners (set : OsuRuleSet) (h e f : bool) : OsuRuleSet :=
  {| beatMap := beatMap set; cursors := cursors set; ended := ended set;
     oppDiffs := oppDiffs set; queue := queue set;
     processed := processed set; hitListener := h;
     endListener := e; failListener := f;
     experimentalPP := experimentalPP set; hitLog := hitLog set;
     endLog := endLog set; failLog := failLog set |}.

(** A call of the hit listener, of the end listener, of the fail
    listener. *)
Definition call_hitListener (set : OsuRuleSet) (e : HitEvent) : OsuRuleSet :=
  {| beatMap := beatMap set; cursors := cursors set; ended := ended set;
     oppDiffs := oppDiffs set; queue := queue set;
     processed := processed set; hitListener := hitListener set;
     endListener := endListener set; failListener := failListener set;
     experimentalPP := experimentalPP set; hitLog := hitLog set ++ [e];
     endLog := endLog set; failLog := failLog set |}.

Definition call_endListener (set : OsuRuleSet) (time number : Z) : OsuRuleSet :=
  {| beatMap := beatMap set; cursors := cursors set; ended := ended set;
     oppDiffs := oppDiffs set; queue := queue set;
     processed := processed set; hitListener := hitListener set;
     endListener := endListener set; failListener := failListener set;
     experimentalPP := experimentalPP set; hitLog := hitLog set;
     endLog := endLog set ++ [(time, number)]; failLog := failLog set |}.

Definition call_failListener (set : OsuRuleSet) (c : Cursor) : OsuRuleSet :=
  {| beatMap := beatMap set; cursors := cursors set; ended := ended set;
     oppDiffs := oppDiffs set; queue := queue set;
     processed := processed set; hitListener := hitListener set;
     endListener := endListener set; failListener := failListener set;
     experimentalPP := experimentalPP set; hitLog := hitLog set;
     endLog := endLog set; failLog := failLog set ++ [ptr c] |}.

(** [*subSet = s] for the sub-set stored under the cursor [c]. *)
Definition store (set : OsuRuleSet) (c : nat) (s : subSet) : OsuRuleSet :=
  set_cursors set (<[c := s]> (cursors set)).

(** [l[i]] for a Go integer [i]: a negative or too large index panics. *)
Definition index {X : Type} (l : list X) (i : Z) : option X :=
  if i <? 0 then None else l !! Z.to_nat i.

(** *** failInternal (lines 793-818) *)

Definition failInternal (set : OsuRuleSet) (player : difficultyPlayer)
  : option OsuRuleSet :=
  let c := ptr (cursor player) in
  if IsReplay (cursor player) && IgnoreFailsInReplays then Some set
  else
    subSet ← cursors set !! c;
    if negb (forceFail subSet)
       && CheckModActive (diff player) (Z.lor (Z.lor NoFail Relax) Relax2)
    then Some set
    else if (0 <? recoveries subSet) && negb (sdpfFail subSet)
            && negb (forceFail subSet)
    then
      (* EZ mod gives 2 additional lives *)
      let subSet1 := set_hp subSet (hpIncrease (hp subSet) 160 false) in
      let subSet2 := set_recoveries subSet1 (Go.int64 (recoveries subSet1 - 1)) in
      Some (store set c subSet2)
    else
      (* actual fail *)
      let set1 :=
        if failListener set && negb (failed subSet)
        then call_failListener set (cursor player) else set in
      Some (store set1 c (set_failed subSet true)).

(** The fail listener that [NewOsuRuleset] registers with the health
    processor of a player is [failInternal] for that player: it runs when a
    health method ends with the fail event. *)
Definition failEvent (fails : bool) (set : OsuRuleSet) (player : difficultyPlayer)
  : option OsuRuleSet :=
  if fails then failInternal set player else Some set.

(** *** PlayerStopped (lines 820-828) *)

Definition PlayerStopped (set : OsuRuleSet) (cursor : nat) (time : Z)
  : option OsuRuleSet :=
  let objs := HitObjects (beatMap set) in
  lastObj ← index objs (Z.of_nat (length objs) - 1);
  if time <? Go.int64 (Go.trunc (GetEndTime lastObj) - 1) then
    subSet ← cursors set !! cursor;
    let subSet1 := set_forceFail subSet true in
    let fails := hpIncrease_fails (hp subSet1) (-10000) in
    let subSet2 := set_hp subSet1 (hpIncrease (hp subSet1) (-10000) true) in
    failEvent fails (store set cursor subSet2) (player subSet2)
  else Some set.

(** *** The listener setters (lines 830-840); [true] is a non-nil listener *)

Definition SetListener (set : OsuRuleSet) (listener : bool) : OsuRuleSet :=
  set_listeners set listener (endListener set) (failListener set).

Definition SetEndListener (set : OsuRuleSet) (listener : bool) : OsuRuleSet :=
  set_listeners set (hitListener set) listener (failListener set).

Definition SetFailListener (set : OsuRuleSet) (listener : bool) : OsuRuleSet :=
  set_listeners set (hitListener set) (endListener set) listener.

(** *** rosuPP.Calculate (lines 193-213) *)

Definition Calculate (calc : rosuPP) (params : ScoreParams) : PerformanceResult :=
  let passedObjects :=
    if 0 <? PassedObjects params then Some (Go.c_uint (PassedObjects params))
    else None in
  calculate_score (MapPath calc) (Go.c_uint (Mode params))
    (Go.c_uint (SP_Mods params)) (Go.c_uint (MaxCombo params))
    (SP_Accuracy params) (Go.c_uint (MissCount params)) passedObjects.

(** *** SendResult (lines 549-732) *)

(** The guard of lines 561-562. *)
Definition sdpf_override (mods : Modifier) (result : HitResult)
  (comboResult : ComboResult) : bool :=
  (Active mods (Z.lor SuddenDeath Perfect) && bool_decide (comboResult = Reset))
  || (Active mods Perfect
      && ((0 <? Z.land result BaseHitsM)
          && negb (Z.land result BaseHitsM =? Hit300))).

(** The result that lines 563-567 assign when the guard holds. *)
Definition sdpf_result (result : HitResult) : HitResult :=
  if 0 <? Z.land result BaseHitsM then Miss
  else if 0 <? Z.land result SliderHits then SliderMiss
  else result.

(** The grade ladder of lines 609-631 on the counters of the score; the
    ratios are float64 quotients, compared with float64 constants. *)
Definition grade_ladder (mods : Modifier) (count300 count50 countMiss numObjects : Z)
  : Grade.t :=
  if count300 =? numObjects then
    if 0 <? Z.land mods (Z.lor Hidden Flashlight) then Grade.SSH else Grade.SS
  else if Go.fgt count300 numObjects 9 10
          && Go.flt count50 numObjects 1 100 && (countMiss =? 0)
  then
    if 0 <? Z.land mods (Z.lor Hidden Flashlight) then Grade.SH else Grade.S
  else if Go.fgt count300 numObjects 8 10 && (countMiss =? 0)
          || Go.fgt count300 numObjects 9 10
  then Grade.A
  else if Go.fgt count300 numObjects 7 10 && (countMiss =? 0)
          || Go.fgt count300 numObjects 8 10
  then Grade.B
  else if Go.fgt count300 numObjects 6 10 then Grade._C
  else Grade.D.

(** The backward scan of lines 674-685 over [processed[i-1], ..., processed[0]]:
    the value of [allClicked] when the loop ends. *)
Fixpoint allClicked_scan (set : OsuRuleSet) (player : difficultyPlayer) (i : nat)
  : option bool :=
  match i with
  | O => Some true
  | S i' =>
      obj ← processed set !! i';
      if negb (IsHit obj player) then Some false
      else
        bObj ← index (HitObjects (beatMap set)) (GetNumber obj);
        if IsNewCombo bObj then Some true
        else allClicked_scan set player i'
  end.

(** Lines 666-701: the combo-end addition.  The result is the value of
    [result] after the block with the new [CountGeki], [CountKatu],
    [currentKatu] and [currentBad]. *)
Definition combo_end (set : OsuRuleSet) (subSet : subSet) (number : Z)
  (result : HitResult) (countGeki countKatu currentKatu currentBad : Z)
  : option (HitResult * Z * Z * Z * Z) :=
  let objs := HitObjects (beatMap set) in
  let len := Z.of_nat (length objs) in
  isEnd ←
    (if negb (0 <? Z.land result BaseHitsM) then Some false
     else if number =? len - 1 then Some true
     else if number <? len - 1 then
       next ← index objs (Go.int64 (number + 1)); Some (IsNewCombo next)
     else Some false);
  if isEnd : bool then
    let idx :=
      Go.Search (Z.of_nat (length (processed set)))
        (λ i, match processed set !! Z.to_nat i with
              | Some g => number <=? GetNumber g
              | None => false
              end) in
    allClicked ← allClicked_scan set (player subSet) (Z.to_nat idx);
    if 0 <? Z.land result BaseHits then
      if (currentKatu =? 0) && (currentBad =? 0) && allClicked then
        Some (Z.lor result GekiAddition, Go.uint (countGeki + 1), countKatu, 0, 0)
      else if (currentBad =? 0) && allClicked then
        Some (Z.lor result KatuAddition, countGeki, Go.uint (countKatu + 1), 0, 0)
      else
        Some (Z.lor result MuAddition, countGeki, countKatu, 0, 0)
    else Some (result, countGeki, countKatu, 0, 0)
  else Some (result, countGeki, countKatu, currentKatu, currentBad).

(** The event handed to the hit listener. *)
Definition hit_event (subSet : subSet) (cursor : nat) (time number : Z) (x y : Q)
  (result : HitResult) (comboResult : ComboResult) : HitEvent :=
  {| he_cursor := cursor; he_time := time; he_number := number;
     he_position := (x, y); he_result := result;
     he_comboResult := comboResult;
     he_ppResults := Performance (performance subSet);
     he_score := GetScore (scoreProcessor subSet) |}.

(** Lines 561-701 on the sub-set of the player: the sub-set after the
    aggregation and before the health update, with the final [result] and
    [comboResult]. *)
Definition aggregate (set : OsuRuleSet) (subSet0 : subSet) (src : Obj)
  (result : HitResult) (comboResult : ComboResult)
  : option (subSet * HitResult * ComboResult) :=
  let number := GetNumber src in
  let mods := Mods (diff (player subSet0)) in
  let sc := score subSet0 in
  (* 561-571 *)
  let override := sdpf_override mods result comboResult in
  let result := if override then sdpf_result result else result in
  let comboResult := if override then Reset else comboResult in
  let sdpfFail1 := if override then true else sdpfFail subSet0 in
  (* 573-576 *)
  let result := ModifyResult (scoreProcessor subSet0) result src in
  let scoreProcessor1 := AddResult (scoreProcessor subSet0) result comboResult in
  let score_Score := GetScore scoreProcessor1 in
  (* 578-580 *)
  let countSB :=
    if bool_decide (comboResult = Reset) && negb (result =? Miss)
    then Go.uint (CountSB sc + 1) else CountSB sc in
  (* 582-599 *)
  let bResult := Z.land result BaseHitsM in
  let rawScore1 :=
    if 0 <? bResult then Go.int64 (rawScore subSet0 + ScoreValue result)
    else rawScore subSet0 in
  let is300 := (0 <? bResult) && (bResult =? Hit300) in
  let is100 := (0 <? bResult) && negb (bResult =? Hit300) && (bResult =? Hit100) in
  let is50 := (0 <? bResult) && negb (bResult =? Hit300) && negb (bResult =? Hit100)
              && (bResult =? Hit50) in
  let isMiss := (0 <? bResult) && negb (bResult =? Hit300) && negb (bResult =? Hit100)
                && negb (bResult =? Hit50) && (bResult =? Miss) in
  let count300 := if is300 then Go.uint (Count300 sc + 1) else Count300 sc in
  let count100 := if is100 then Go.uint (Count100 sc + 1) else Count100 sc in
  let count50 := if is50 then Go.uint (Count50 sc + 1) else Count50 sc in
  let countMiss := if isMiss then Go.uint (CountMiss sc + 1) else CountMiss sc in
  let numObjects1 :=
    if 0 <? bResult then Go.uint (numObjects subSet0 + 1) else numObjects subSet0 in
  (* 601 *)
  let combo := Go.Max (Go.uint (GetCombo scoreProcessor1)) (Combo sc) in
  (* 603-607; the divisor is zero only once [numObjects * 300] has
     wrapped, at a multiple of 2^62 objects *)
  let accuracy :=
    if numObjects1 =? 0 then 100%Q
    else Go.fdiv (Go.fmul 100 (Go.float rawScore1))
           (Go.float (Go.uint (numObjects1 * 300))) in
  (* 609-631 *)
  let grade := grade_ladder mods count300 count50 countMiss numObjects1 in
  (* 633-647 *)
  let params :=
    {| Mode := 0; SP_Mods := Go.uint mods; MaxCombo := combo;
       SP_Accuracy := accuracy; MissCount := countMiss;
       PassedObjects := if 0 <? Z.land mods Relax then 0 else numObjects1 |} in
  let performance1 :=
    {| MapPath := MapPath (performance subSet0);
       Performance := Calculate (performance subSet0) params |} in
  (* 649-657 *)
  let idx := Go.Max 1 numObjects1 - 1 in
  diffs ← oppDiffs set !! GetDiffMaskedMods mods;
  diff_ ← index diffs idx;
  let perfectCombo := Go.uint (Attr_MaxCombo diff_) =? combo in
  let ppv2_1 :=
    PPv2x (ppv2 subSet0) diff_ (Go.int64 combo) (Go.int64 count300)
      (Go.int64 count100) (Go.int64 count50) (Go.int64 countMiss)
      (diff (player subSet0)) in
  let pp := PR_PP (Performance performance1) in
  (* 659-664 *)
  let currentKatu1 :=
    if result =? Hit100 then Go.int64 (currentKatu subSet0 + 1)
    else currentKatu subSet0 in
  let currentBad1 :=
    if negb (result =? Hit100) && ((result =? Hit50) || (result =? Miss))
    then Go.int64 (currentBad subSet0 + 1) else currentBad subSet0 in
  (* 666-701 *)
  '(result, countGeki, countKatu, currentKatu2, currentBad2) ←
    combo_end set subSet0 number result (CountGeki sc) (CountKatu sc)
      currentKatu1 currentBad1;
  let score1 :=
    {| Score_ := score_Score; Accuracy := accuracy; Grade_ := grade;
       Combo := combo; PerfectCombo := perfectCombo; Count300 := count300;
       CountGeki := countGeki; Count100 := count100; CountKatu := countKatu;
       Count50 := count50; CountMiss := countMiss; CountSB := countSB;
       PP := pp; Score_Mods := Score_Mods sc |} in
  Some
    ({| player := player subSet0; score := score1; hp := hp subSet0;
        scoreProcessor := scoreProcessor1; rawScore := rawScore1;
        currentKatu := currentKatu2; currentBad := currentBad2;
        numObjects := numObjects1; performance := performance1;
        ppv2 := ppv2_1; recoveries := recoveries subSet0;
        failed := failed subSet0; sdpfFail := sdpfFail1;
        forceFail := forceFail subSet0 |},
     result, comboResult).

Definition SendResult (set : OsuRuleSet) (time : Z) (cursor : nat) (src : Obj)
  (x y : Q) (result : HitResult) (comboResult : ComboResult)
  : option OsuRuleSet :=
  let number := GetNumber src in
  if (result =? Ignore) || (result =? PositionalMiss) then
    (* 553-559 *)
    if (result =? PositionalMiss) && hitListener set then
      subSet ← cursors set !! cursor;
      if negb (Active (Mods (diff (player subSet))) Relax) then
        Some (call_hitListener set
                (hit_event subSet cursor time number x y result comboResult))
      else Some set
    else Some set
  else
    subSet0 ← cursors set !! cursor;
    '(subSet1, result, comboResult) ←
      aggregate set subSet0 src result comboResult;
    (* 703-707 *)
    let fails :=
      if sdpfFail subSet1 then hpIncrease_fails (hp subSet1) (-100000)
      else hpAddResult_fails (hp subSet1) result in
    let subSet2 :=
      set_hp subSet1
        (if sdpfFail subSet1 then hpIncrease (hp subSet1) (-100000) true
         else hpAddResult (hp subSet1) result) in
    set1 ← failEvent fails (store set cursor subSet2) (player subSet2);
    (* 709-711 *)
    if hitListener set1 then
      Some (call_hitListener set1
              (hit_event subSet2 cursor time number x y result comboResult))
    else Some set1.

(** *** Update (lines 386-462) *)

(** The calls of [SendResult] that a judge makes, in order. *)
Fixpoint send_all (set : OsuRuleSet) (js : list (Judgement Obj))
  : option OsuRuleSet :=
  match js with
  | [] => Some set
  | j :: js' =>
      set1 ← SendResult set (j_time j) (j_cursor j) (j_src j) (j_x j) (j_y j)
               (j_result j) (j_comboResult j);
      send_all set1 js'
  end.

(** Lines 387-401.  [kept] are the judges already visited and not removed,
    [rest] the ones still to visit; [set.processed] is [kept ++ rest].  The
    calls a judge makes run on the state that holds its new state. *)
Fixpoint post_loop (time : Z) (kept rest : list Obj) (set : OsuRuleSet)
  : option OsuRuleSet :=
  match rest with
  | [] => Some (set_lists set (queue set) kept)
  | g :: rest' =>
      let '(g1, calls, isDone) := UpdatePost g time in
      set1 ← send_all (set_lists set (queue set) (kept ++ g1 :: rest')) calls;
      if isDone : bool then
        let set2 :=
          if endListener set1 then call_endListener set1 time (GetNumber g1)
          else set1 in
        post_loop time kept rest' set2
      else post_loop time (kept ++ [g1]) rest' set1
  end.

(** Lines 403-416: the index stays at the head of the queue. *)
Fixpoint activate (time : Z) (queue processed : list Obj) : list Obj * list Obj :=
  match queue with
  | [] => ([], processed)
  | g :: queue' =>
      if time <? GetFadeTime g then (queue, processed)
      else activate time queue' (processed ++ [g])
  end.

(** Lines 418-420 for one player. *)
Definition hp_tick (time : Z) (set : OsuRuleSet) (c : nat) : option OsuRuleSet :=
  subSet ← cursors set !! c;
  let fails := hpUpdate_fails (hp subSet) time in
  let subSet1 := set_hp subSet (hpUpdate (hp subSet) time) in
  failEvent fails (store set c subSet1) (player subSet1).

(** Lines 418-420.  Go leaves the order of the iteration over a map open;
    the order here is the one of [map_to_list]. *)
Fixpoint hp_ticks (time : Z) (set : OsuRuleSet) (cs : list nat)
  : option OsuRuleSet :=
  match cs with
  | [] => Some set
  | c :: cs' => set1 ← hp_tick time set c; hp_ticks time set1 cs'
  end.

(** The result table of lines 423-458 is built and logged only; the log is
    not part of the state. *)
Definition Update (set : OsuRuleSet) (time : Z) : option OsuRuleSet :=
  set1 ← post_loop time [] (processed set) set;
  let '(q, p) := activate time (queue set1) (processed set1) in
  let set2 := set_lists set1 q p in
  set3 ← hp_ticks time set2 (map_to_list (cursors set2)).*1;
  if bool_decide (queue set3 = []) && bool_decide (processed set3 = [])
     && negb (ended set3)
  then Some (set_ended set3 true)
  else Some set3.

(** *** CanBeHit (lines 734-791) *)

(** Lines 737-743: the last index of [object] in [processed], [-1] if
    there is none. *)
Fixpoint last_index (object : Obj) (l : list Obj) (i index : Z) : Z :=
  match l with
  | [] => index
  | g :: l' =>
      last_index object l' (i + 1) (if sameObject g object then i else index)
  end.

(** Lines 750-760: [Some true] when the loop returns [Shake]. *)
Fixpoint shake_scan (set : OsuRuleSet) (object : Obj) (player : difficultyPlayer)
  (l : list Obj) : option bool :=
  match l with
  | [] => Some false
  | g :: l' =>
      if negb (IsHit g player) then
        if negb (GetNumber g =? GetNumber object) then
          gObj ← index (HitObjects (beatMap set)) (GetNumber g);
          oObj ← index (HitObjects (beatMap set)) (GetNumber object);
          if Go.Qltb (Go.fadd (GetEndTime gObj) (inject_Z Tolerance2B))
               (GetStartTime oObj)
          then Some true
          else shake_scan set object player l'
        else Some false
      else shake_scan set object player l'
  end.

(** Lines 767-774: the last circle of [processed] that starts before
    [cObj], with its beatmap object. *)
Fixpoint last_circle (set : OsuRuleSet) (cObj : IHitObject) (l : list Obj)
  (last : option (Obj * IHitObject)) : option (option (Obj * IHitObject)) :=
  match l with
  | [] => Some last
  | g :: l' =>
      fObj ← index (HitObjects (beatMap set)) (GetNumber g);
      if bool_decide (GetType fObj = CIRCLE)
         && Go.Qltb (GetStartTime fObj) (GetStartTime cObj)
      then last_circle set cObj l' (Some (g, fObj))
      else last_circle set cObj l' last
  end.

(** Lines 781-790. *)
Definition in_range (set : OsuRuleSet) (time : Z) (object : Obj)
  (player : difficultyPlayer) : option ClickAction :=
  let hitRange :=
    if CheckModActive (diff player) Relax2 then (HittableRange - 200)%Q
    else HittableRange in
  oObj ← index (HitObjects (beatMap set)) (GetNumber object);
  if Go.Qleb hitRange
       (Qabs (Go.float (Go.int64 (time - Go.trunc (GetStartTime oObj)))))
  then Some Shake
  else Some Click.

Definition CanBeHit (set : OsuRuleSet) (time : Z) (object : Obj)
  (player : difficultyPlayer) : option ClickAction :=
  if negb (IsAutoplay (cursor player)) && negb (IsPlayer (cursor player)) then
    ignored ←
      (if isCircle object then
         let idx := last_index object (processed set) 0 (-1) in
         if 0 <? idx then
           prev ← index (processed set) (idx - 1);
           pObj ← index (HitObjects (beatMap set)) (GetNumber prev);
           Some ((0 <? GetStackIndex pObj (Mods (diff player)))
                 && negb (IsHit prev player))
         else Some false
       else Some false);
    if ignored : bool then Some Ignored (* don't shake the stacks *)
    else
      shake ← shake_scan set object player (processed set);
      if shake : bool then Some Shake else in_range set time object player
  else
    cObj ← index (HitObjects (beatMap set)) (GetNumber object);
    last ← last_circle set cObj (processed set) None;
    match last with
    | Some (lastObj, lastBObj) =>
        if negb (IsHit lastObj player)
           && Go.Qltb (Go.float time) (GetStartTime lastBObj)
        then Some Shake
        else in_range set time object player
    | None => in_range set time object player
    end.

(** *** NewOsuRuleset (lines 259-384) *)

(** Lines 272-361 for the cursor [cursor] with the modifiers [mod_]: the
    players, step attributes and sub-sets built so far are threaded
    through. *)
Definition new_player (beatMap : BeatMap) (cursor : Cursor) (mod_ : Modifier)
  (acc : list difficultyPlayer * gmap Z (list Attributes) * gmap nat subSet)
  : option (list difficultyPlayer * gmap Z (list Attributes) * gmap nat subSet) :=
  let '(diffPlayers, oppDiffs, cursors) := acc in
  let diff := {| Mods := Z.lor mod_ (Z.land (Diff_Mods beatMap) ScoreV2) |} in
  let player := {| cursor := cursor; diff := diff |} in
  let maskedMods := GetDiffMaskedMods mod_ in
  oppDiffs1 ←
    match oppDiffs !! maskedMods with
    | Some _ => Some oppDiffs
    | None =>
        let steps := CalculateStep (HitObjects beatMap) diff in
        _ ← index steps (Z.of_nat (length steps) - 1);
        Some (<[maskedMods := steps]> oppDiffs)
    end;
  let hp := NewHealthProcessor beatMap diff (negb (OldSpinnerScoring cursor)) in
  let recoveries := if CheckModActive diff Easy then 2 else 0 in
  let sc :=
    if CheckModActive diff ScoreV2 then newScoreV2Processor beatMap player
    else newScoreV1Processor beatMap player in
  let subSet :=
    {| player := player;
       score :=
         {| Score_ := 0; Accuracy := 100; Grade_ := Grade.NONE; Combo := 0;
            PerfectCombo := false; Count300 := 0; CountGeki := 0;
            Count100 := 0; CountKatu := 0; Count50 := 0; CountMiss := 0;
            CountSB := 0; PP := 0; Score_Mods := mod_ |};
       hp := hp; scoreProcessor := sc; rawScore := 0; currentKatu := 0;
       currentBad := 0; numObjects := 0;
       performance :=
         {| MapPath := SongPath beatMap;
            Performance := {| PR_PP := 0; Stars := 0 |} |};
       ppv2 := PPv2_zero; recoveries := recoveries; failed := false;
       sdpfFail := false; forceFail := false |} in
  Some (diffPlayers ++ [player], oppDiffs1, <[ptr cursor := subSet]> cursors).

(** The loop of lines 272-361; [mods[i]] panics when [mods] is shorter
    than [cursors]. *)
Fixpoint new_players (beatMap : BeatMap) (cursors : list Cursor) (mods : list Modifier)
  (acc : list difficultyPlayer * gmap Z (list Attributes) * gmap nat subSet)
  : option (list difficultyPlayer * gmap Z (list Attributes) * gmap nat subSet) :=
  match cursors with
  | [] => Some acc
  | cursor :: cursors' =>
      match mods with
      | [] => None
      | mod_ :: mods' =>
          acc1 ← new_player beatMap cursor mod_ acc;
          new_players beatMap cursors' mods' acc1
      end
  end.

Definition NewOsuRuleset (beatMap : BeatMap) (cursors : list Cursor)
  (mods : list Modifier) : option OsuRuleSet :=
  '(diffPlayers, oppDiffs, subSets) ← new_players beatMap cursors mods ([], ∅, ∅);
  Some
    {| beatMap := beatMap; cursors := subSets; ended := false;
       oppDiffs := oppDiffs;
       queue := (λ obj, Init obj diffPlayers) <$> HitObjects beatMap;
       processed := []; hitListener := false; endListener := false;
       failListener := false; experimentalPP := false; hitLog := [];
       endLog := []; failLog := [] |}.

(** *** The read accessors (lines 842-862) *)

Definition OsuRuleSet_GetScore (set : OsuRuleSet) (cursor : nat) : option Score :=
  score <$> cursors set !! cursor.

Definition GetPlayer (set : OsuRuleSet) (cursor : nat) : option difficultyPlayer :=
  player <$> cursors set !! cursor.

Definition GetProcessed (set : OsuRuleSet) : list Obj := processed set.

Definition GetBeatMap (set : OsuRuleSet) : BeatMap := beatMap set.

(** ** Sessions

    A session is a sequence of calls on the coordinator.  The per-player
    passes [UpdateClickFor], [UpdateNormalFor] and [UpdatePostFor] hand the
    judges of [processed] to their own methods: for the coordinator such a
    pass is a change of the judges ([CallJudges]) and the calls of
    [SendResult] the judges make.  [CallFail] is the fail event of the
    health processor of a player, raised by something other than a call
    listed here. *)

Inductive Call :=
| CallSendResult (time : Z) (cursor : nat) (src : Obj) (x y : Q)
    (result : HitResult) (comboResult : ComboResult)
| CallUpdate (time : Z)
| CallPlayerStopped (cursor : nat) (time : Z)
| CallFail (cursor : nat)
| CallJudges (f : Obj → Obj)
| CallSetListener (listener : bool)
| CallSetEndListener (listener : bool)
| CallSetFailListener (listener : bool).

Definition step (set : OsuRuleSet) (c : Call) : option OsuRuleSet :=
  match c with
  | CallSendResult time cursor src x y result comboResult =>
      SendResult set time cursor src x y result comboResult
  | CallUpdate time => Update set time
  | CallPlayerStopped cursor time => PlayerStopped set cursor time
  | CallFail cursor =>
      subSet ← cursors set !! cursor; failInternal set (player subSet)
  | CallJudges f => Some (set_lists set (queue set) (f <$> processed set))
  | CallSetListener l => Some (SetListener set l)
  | CallSetEndListener l => Some (SetEndListener set l)
  | CallSetFailListener l => Some (SetFailListener set l)
  end.

Fixpoint run (set : OsuRuleSet) (calls : list Call) : option OsuRuleSet :=
  match calls with
  | [] => Some set
  | c :: calls' => set1 ← step set c; run set1 calls'
  end.

(** The number of calls of [SendResult] that a call amounts to: [Update]
    makes the calls of the judges of [processed]. *)
Definition judgements (set : OsuRuleSet) (c : Call) : nat :=
  match c with
  | CallSendResult _ _ _ _ _ _ _ => 1
  | CallUpdate time =>
      sum_list ((λ g, length (UpdatePost g time).1.2) <$> processed set)
  | _ => 0
  end.

Fixpoint run_judgements (set : OsuRuleSet) (calls : list Call) : nat :=
  match calls with
  | [] => 0
  | c :: calls' =>
      judgements set c
      + match step set c with
        | Some set1 => run_judgements set1 calls'
        | None => 0
        end
  end.

(** The number of calls made to the fail listener for the cursor [c]. *)
Definition fail_calls (set : OsuRuleSet) (c : nat) : nat :=
  length (filter (λ x, x = c) (failLog set)).

(** [fail_mono set set']: from [set] to [set'] no player leaves the failed
    state, and the fail listener is called for a player at most once, and
    only when the player enters the failed state. *)
Definition fail_mono (set set' : OsuRuleSet) : Prop :=
  ∀ c s, cursors set !! c = Some s →
    ∃ s', cursors set' !! c = Some s' ∧
      (failed s = true → failed s' = true) ∧
      (fail_calls set' c + Nat.b2n (failed s)
       ≤ fail_calls set c + Nat.b2n (failed s'))%nat.

(** The statement that a stop before the end of the map always reaches the
    fail listener: [PlayerStopped] at a time before the end time of the last
    object minus one sets [forceFail] and calls the registered listener for
    the cursor. *)
Definition forced_fail_reaches_listener (set : OsuRuleSet) (cursor : nat) (time : Z)
  : Prop :=
  ∀ lastObj,
    index (HitObjects (beatMap set)) (Z.of_nat (length (HitObjects (beatMap set))) - 1)
      = Some lastObj →
    time < Go.int64 (Go.trunc (GetEndTime lastObj) - 1) →
    failListener set = true →
    ∃ set' s',
      PlayerStopped set cursor time = Some set' ∧
      cursors set' !! cursor = Some s' ∧
      forceFail s' = true ∧
      fail_calls set' cursor = S (fail_calls set cursor).

(** The part of a sub-set that [SendResult] aggregates: everything but the
    health state, the recoveries, the failed flag and the forced fail. *)
Definition same_scoring (s s' : subSet) : Prop :=
  player s' = player s ∧ score s' = score s
  ∧ scoreProcessor s' = scoreProcessor s ∧ rawScore s' = rawScore s
  ∧ currentKatu s' = currentKatu s ∧ currentBad s' = currentBad s
  ∧ numObjects s' = numObjects s ∧ performance s' = performance s
  ∧ ppv2 s' = ppv2 s ∧ sdpfFail s' = sdpfFail s.

(** [scoring_frame set set']: every player keeps the scoring part of its
    sub-set, and its health state once [sdpfFail] is set. *)
Definition scoring_frame (set set' : OsuRuleSet) : Prop :=
  ∀ c s, cursors set !! c = Some s →
    ∃ s', cursors set' !! c = Some s' ∧ same_scoring s s'
      ∧ (sdpfFail s = true → hp s' = hp s).

(** The state of the coordinator outside the sub-sets and the fail log. *)
Definition board (set : OsuRuleSet) :=
  (beatMap set, oppDiffs set, queue set, processed set, ended set,
   (hitListener set, endListener set, failListener set), hitLog set, endLog set).

(** The constants of the hit result enumeration are well-formed: [Miss] and
    [SliderMiss] are results of their own, [Miss] is a base result other
    than [Hit300], and [SliderMiss] is not a base result. *)
Definition HitResults_wf : Prop :=
  Miss ≠ Ignore ∧ Miss ≠ PositionalMiss
  ∧ SliderMiss ≠ Ignore ∧ SliderMiss ≠ PositionalMiss
  ∧ 0 < Z.land Miss BaseHitsM ∧ Z.land Miss BaseHitsM ≠ Hit300
  ∧ Z.land SliderMiss BaseHitsM <= 0.

(** The result that a call of [SendResult] records for a sub-set: the
    argument after the override of lines 561-571 and [ModifyResult]. *)
Definition recorded_result (s : subSet) (src : Obj) (result : HitResult)
  (comboResult : ComboResult) : HitResult :=
  ModifyResult (scoreProcessor s)
    (if sdpf_override (Mods (diff (player s))) result comboResult
     then sdpf_result result else result) src.

(** [recorded l s s']: the sub-set [s] becomes [s'] by aggregations that
    record the results [l], in order, and by changes outside its scoring
    part. *)
Inductive recorded : list HitResult → subSet → subSet → Prop :=
| recorded_same s s' :
    same_scoring s s' → recorded [] s s'
| recorded_aggregate set s0 src r cr s1 r' cr' :
    aggregate set s0 src r cr = Some (s1, r', cr') →
    recorded [recorded_result s0 src r cr] s0 s1
| recorded_trans l1 l2 s1 s2 s3 :
    recorded l1 s1 s2 → recorded l2 s2 s3 → recorded (l1 ++ l2) s1 s3.

(** [evolving n set set']: from [set] to [set'] the sub-set of every player
    records at most [n] results. *)
Definition evolving (n : nat) (set set' : OsuRuleSet) : Prop :=
  ∀ c s, cursors set !! c = Some s →
    ∃ s' l, cursors set' !! c = Some s' ∧ recorded l s s' ∧ (length l ≤ n)%nat.

(** A sub-set as [NewOsuRuleset] makes it: nothing tallied, accuracy 100. *)
Definition fresh (s : subSet) : Prop :=
  numObjects s = 0 ∧ rawScore s = 0 ∧ Accuracy (score s) = 100%Q
  ∧ Count300 (score s) = 0 ∧ Count50 (score s) = 0 ∧ CountMiss (score s) = 0
  ∧ Combo (score s) = 0 ∧ Grade_ (score s) = Grade.NONE
  ∧ PerfectCombo (score s) = false ∧ failed s = false
  ∧ sdpfFail s = false ∧ forceFail s = false
  ∧ recoveries s = (if CheckModActive (diff (player s)) Easy then 2 else 0).

(** A base result is worth at most the 300 points of the top tier. *)
Definition ScoreValue_bounded : Prop :=
  ∀ r, 0 < Z.land r BaseHitsM → 0 <= ScoreValue r <= 300.

(** The tallies behind the accuracy, for a sub-set that has recorded at
    most [n] results. *)
Definition tally_ok (n : Z) (s : subSet) : Prop :=
  0 <= numObjects s <= n
  ∧ 0 <= rawScore s <= 300 * numObjects s
  ∧ (0 <= Accuracy (score s))%Q ∧ (Accuracy (score s) <= 100)%Q
  ∧ (numObjects s = 0 → Accuracy (score s) = 100%Q).

(** The judged objects among recorded results (the base results), and the
    top-tier ones among them. *)
Definition is_base (r : HitResult) : bool := 0 <? Z.land r BaseHitsM.

Definition is_top (r : HitResult) : bool :=
  (0 <? Z.land r BaseHitsM) && (Z.land r BaseHitsM =? Hit300).

Definition judged (l : list HitResult) : Z := Z.of_nat (length (filter is_base l)).

Definition top_tier (l : list HitResult) : Z := Z.of_nat (length (filter is_top l)).

(** The published grade is the one of the ladder on the current tallies. *)
Definition graded (s : subSet) : Prop :=
  Grade_ (score s)
  = grade_ladder (Mods (diff (player s))) (Count300 (score s))
      (Count50 (score s)) (CountMiss (score s)) (numObjects s).

(** The statement that a recorded Miss keeps the perfect-combo flag down:
    in a state where the player [c] has a Miss in its tallies, the flag
    published by the next recorded result is [false]. *)
Definition miss_clears_perfect_combo (set : OsuRuleSet) (c : nat) : Prop :=
  ∀ s time src x y r cr set' s',
    cursors set !! c = Some s →
    0 < CountMiss (score s) →
    (r =? Ignore) || (r =? PositionalMiss) = false →
    SendResult set time c src x y r cr = Some set' →
    cursors set' !! c = Some s' →
    PerfectCombo (score s') = false.

(** The first judge of a list that the player has not resolved. *)
Fixpoint first_open (player : difficultyPlayer) (l : list Obj) : option Obj :=
  match l with
  | [] => None
  | g :: l' => if IsHit g player then first_open player l' else Some g
  end.

(** The judges that the loop of lines 750-760 visits before it breaks at
    the open entry of [object]. *)
Fixpoint scanned (object : Obj) (player : difficultyPlayer) (l : list Obj)
  : list Obj :=
  match l with
  | [] => []
  | g :: l' =>
      if negb (IsHit g player) && (GetNumber g =? GetNumber object) then []
      else g :: scanned object player l'
  end.

(** The statement that a click goes past the first open object only when
    the start times of the two objects are within the tolerance: if
    [CanBeHit] answers [Click] for an object other than the first open one,
    their start times differ by at most [Tolerance2B]. *)
Definition click_only_within_tolerance (set : OsuRuleSet) (time : Z) (object : Obj)
  (player : difficultyPlayer) : Prop :=
  CanBeHit set time object player = Some Click →
  ∀ g gObj oObj,
    first_open player (processed set) = Some g →
    GetNumber g ≠ GetNumber object →
    index (HitObjects (beatMap set)) (GetNumber g) = Some gObj →
    index (HitObjects (beatMap set)) (GetNumber object) = Some oObj →
    (Qabs (GetStartTime oObj - GetStartTime gObj) <= inject_Z Tolerance2B)%Q.


(** Every sub-set is stored under the cursor of its player, as
    [NewOsuRuleset] stores it. *)
Definition wf_cursors (set : OsuRuleSet) : Prop :=
  map_Forall (λ k s, ptr (cursor (player s)) = k) (cursors set).

End Ruleset.

(** ** A sample instance of the interfaces

    Used to run the coordinator on concrete sessions: the hit results as
    distinct bits in the order of the enumeration, the modifier bits of
    osu!, a combo counter as score processor, a clamped integer health bar,
    and a judge that records the players that resolved it. *)

Module Sample.

Definition SliderStart : HitResult := 64.

Definition Additions : HitResult := 4096 + 8192 + 16384.

Definition results : HitResults :=
  {| Ignore := 1; SliderMiss := 2; Miss := 4; Hit50 := 8; Hit100 := 16;
     Hit300 := 32; MuAddition := 4096; KatuAddition := 8192;
     GekiAddition := 16384; PositionalMiss := 32768;
     BaseHits := 8 + 16 + 32; BaseHitsM := 4 + 8 + 16 + 32;
     SliderHits := 64 + 128 + 256 + 512;
     ScoreValue := λ r,
       let v := Z.land r (Z.lnot Additions) in
       if v =? 8 then 50 else if v =? 16 then 100 else if v =? 32 then 300
       else if (v =? 64) || (v =? 256) || (v =? 512) then 30
       else if v =? 128 then 10 else if v =? 1024 then 100
       else if v =? 2048 then 1100 else 0 |}.

Definition modifiers : Modifiers :=
  {| NoFail := 1; Easy := 2; Hidden := 8; SuddenDeath := 32; Relax := 128;
     Flashlight := 1024; Relax2 := 8192; Perfect := 16384;
     ScoreV2 := 536870912;
     Active := λ mods m, 0 <? Z.land mods m;
     CheckModActive := λ d m, 0 <? Z.land (Mods d) m;
     GetDiffMaskedMods := λ mods, Z.land mods (2 + 16 + 64 + 256 + 1024);
     HittableRange := 300 |}.

(** Fails count / fails of replays are ignored. *)
Definition settings : Settings :=
  {| IgnoreFailsInReplays := false; RECORD := false;
     SongPath := λ b, String.append (Dir b) (String.append "/" (File b)) |}.

Definition settings_ignore : Settings :=
  {| IgnoreFailsInReplays := true; RECORD := false;
     SongPath := λ b, String.append (Dir b) (String.append "/" (File b)) |}.

(** A judge: the players it was built for and the ones that resolved it.
    Its late update reports whether every player resolved it. *)
Record Judge := {
  id : Z;
  fade : Z;
  circle : bool;
  players : list nat;
  resolved : list nat
}.

Definition judges : HitObject Judge :=
  {| Init := λ obj ps,
       {| id := GetID obj; fade := Go.trunc (GetStartTime obj) - 450;
          circle := bool_decide (GetType obj = CIRCLE);
          players := (λ p, ptr (cursor p)) <$> ps; resolved := [] |};
     UpdatePost := λ g _,
       (g, [], forallb (λ p, bool_decide (p ∈ resolved g)) (players g));
     IsHit := λ g p, bool_decide (ptr (cursor p) ∈ resolved g);
     GetFadeTime := fade;
     GetNumber := id;
     isCircle := circle;
     sameObject := λ g1 g2, id g1 =? id g2 |}.

(** A score processor that counts the combo and adds up the points. *)
Record Counter := { combo : Z; points : Z }.

Definition counters {Obj : Type} : ScoreProcessor Counter Obj :=
  {| newScoreV1Processor := λ _ _, {| combo := 0; points := 0 |};
     newScoreV2Processor := λ _ _, {| combo := 0; points := 0 |};
     AddResult := λ c r cr,
       {| combo := match cr with
                   | Reset => 0
                   | Hold => combo c
                   | Increase => combo c + 1
                   end;
          points := points c + @ScoreValue results r |};
     ModifyResult := λ _ r _, r;
     GetScore := points;
     GetCombo := combo |}.

(** A health bar between 0 and 200 that raises the fail event when a
    checked change leaves it empty. *)
Definition clamp (h : Z) : Z := Z.max 0 (Z.min 200 h).

Definition hit_delta (r : HitResult) : Z :=
  if 0 <? Z.land r 4 then -40 else if 0 <? Z.land r 56 then 10 else 0.

Definition health : HealthProcessor Z :=
  {| NewHealthProcessor := λ _ _ _, 200;
     hpIncrease := λ h a _, clamp (h + Go.trunc a);
     hpIncrease_fails := λ h a, clamp (h + Go.trunc a) <=? 0;
     hpAddResult := λ h r, clamp (h + hit_delta r);
     hpAddResult_fails := λ h r, clamp (h + hit_delta r) <=? 0;
     hpUpdate := λ h _, h;
     hpUpdate_fails := λ _ _, false |}.

(** Step attributes reduced to their [MaxCombo], one combo per object. *)
Definition performances : Performances Z unit :=
  {| calculate_score := λ _ _ _ _ _ _ _, {| PR_PP := 0; Stars := 0 |};
     Attr_MaxCombo := λ a, a;
     CalculateStep := λ objs _, Z.of_nat <$> seq 1 (length objs);
     PPv2_zero := tt;
     PPv2x := λ _ _ _ _ _ _ _ _, tt |}.

Definition circle_at (n : Z) (t : Q) (newCombo : bool) : IHitObject :=
  {| GetID := n; GetStartTime := t; GetEndTime := t; IsNewCombo := newCombo;
     GetStackIndex := λ _, 0; GetType := CIRCLE |}.

Definition slider_at (n : Z) (t1 t2 : Q) (newCombo : bool) : IHitObject :=
  {| GetID := n; GetStartTime := t1; GetEndTime := t2; IsNewCombo := newCombo;
     GetStackIndex := λ _, 0; GetType := SLIDER |}.

Definition map_of (objs : list IHitObject) : BeatMap :=
  {| HitObjects := objs; Diff_Mods := 0; Dir := "songs"; File := "map.osu" |}.

Definition replay_cursor (p : nat) : Cursor :=
  {| ptr := p; Name := "replay"; IsReplay := true; IsAutoplay := false;
     IsPlayer := false; OldSpinnerScoring := false |}.

Definition player_cursor (p : nat) : Cursor :=
  {| ptr := p; Name := "player"; IsReplay := false; IsAutoplay := false;
     IsPlayer := true; OldSpinnerScoring := false |}.

#[local] Existing Instances results modifiers judges counters health performances.

(** A map of one circle at 1000 ms and a slider from 1200 ms to 1800 ms,
    played by the replay cursor 1 without modifiers. *)
Definition two_objects : BeatMap :=
  map_of [circle_at 0 1000 true; slider_at 1 1200 1800 false].

Definition judge0 : Judge := Init (circle_at 0 1000 true) [].

Definition judge1 : Judge := Init (slider_at 1 1200 1800 false) [].

(** The state that [NewOsuRuleset] builds for the map [two_objects] and the
    single cursor [cur] with the modifiers [mods]. *)
Definition new_subSet (cur : Cursor) (mods : Modifier) : @subSet Counter Z unit :=
  {| player := {| cursor := cur; diff := {| Mods := mods |} |};
     score :=
       {| Score_ := 0; Accuracy := 100; Grade_ := Grade.NONE; Combo := 0;
          PerfectCombo := false; Count300 := 0; CountGeki := 0;
          Count100 := 0; CountKatu := 0; Count50 := 0; CountMiss := 0;
          CountSB := 0; PP := 0; Score_Mods := mods |};
     hp := 200; scoreProcessor := {| combo := 0; points := 0 |};
     rawScore := 0; currentKatu := 0; currentBad := 0; numObjects := 0;
     performance :=
       {| MapPath := "songs/map.osu";
          Performance := {| PR_PP := 0; Stars := 0 |} |};
     ppv2 := tt; recoveries := if 0 <? Z.land mods 2 then 2 else 0;
     failed := false; sdpfFail := false; forceFail := false |}.

Definition new_set (cur : Cursor) (mods : Modifier)
  : @OsuRuleSet Counter Z Judge Z unit :=
  let p := {| cursor := cur; diff := {| Mods := mods |} |} in
  {| beatMap := two_objects;
     cursors := {[ptr cur := new_subSet cur mods]};
     ended := false;
     oppDiffs := {[Z.land mods (2 + 16 + 64 + 256 + 1024) := [1; 2]]};
     queue := [Init (circle_at 0 1000 true) [p];
               Init (slider_at 1 1200 1800 false) [p]];
     processed := []; hitListener := false; endListener := false;
     failListener := false; experimentalPP := false; hitLog := [];
     endLog := []; failLog := [] |}.

(** The same state once a hit listener and a fail listener are
    registered. *)
Definition listening (set : @OsuRuleSet Counter Z Judge Z unit)
  : @OsuRuleSet Counter Z Judge Z unit :=
  SetFailListener (SetListener set true) true.

(** Two short sessions of the cursor 1 on [two_objects]. *)
Definition session_100_miss : list (@Call Judge) :=
  [CallSendResult 1000 1 judge0 0 0 (@Hit100 results) Increase;
   CallUpdate 1100;
   CallSendResult 1900 1 judge1 0 0 (@Miss results) Reset].

Definition session_300_300 : list (@Call Judge) :=
  [CallSendResult 1000 1 judge0 0 0 (@Hit300 results) Increase;
   CallSendResult 1900 1 judge1 0 0 (@Hit300 results) Increase].

(** The replay of cursor 1 misses the circle, then hits the head of the
    slider: the states after each of the two results. *)
Definition after_miss : @OsuRuleSet Counter Z Judge Z unit :=
  Eval vm_compute in
    default (listening (new_set (replay_cursor 1) 0))
      (SendResult (st := settings) (listening (new_set (replay_cursor 1) 0))
         1100 1 judge0 0 0 (@Miss results) Reset).

Definition after_slider_head : @OsuRuleSet Counter Z Judge Z unit :=
  Eval vm_compute in
    default after_miss
      (SendResult (st := settings) after_miss 1200 1 judge1 0 0 SliderStart Increase).

Definition subSet_of {Obj : Type} (set : @OsuRuleSet Counter Z Obj Z unit)
  : @subSet Counter Z unit :=
  default (new_subSet (replay_cursor 1) 0) (cursors set !! 1%nat).

(** A slider from 1000 ms to 2000 ms with a circle at 1500 ms on top of it,
    both active and unresolved for the cursor [cur]. *)
Definition overlap : BeatMap :=
  map_of [slider_at 0 1000 2000 true; circle_at 1 1500 false].

Definition overlap_set (cur : Cursor) : @OsuRuleSet Counter Z Judge Z unit :=
  let p := {| cursor := cur; diff := {| Mods := 0 |} |} in
  {| beatMap := overlap;
     cursors := {[ptr cur := new_subSet cur 0]};
     ended := false;
     oppDiffs := {[0 := [1; 2]]};
     queue := [];
     processed := [Init (slider_at 0 1000 2000 true) [p];
                   Init (circle_at 1 1500 false) [p]];
     hitListener := true; endListener := false; failListener := true;
     experimentalPP := false; hitLog := []; endLog := []; failLog := [] |}.

Definition circle_on_slider (cur : Cursor) : Judge :=
  Init (circle_at 1 1500 false) [{| cursor := cur; diff := {| Mods := 0 |} |}].

(** A slider that ends at 510 - 2^-44 ms, a binary64 value, and a circle
    at 513 ms, both active and unresolved for the cursor [cur].  The sum
    of line 753, the end time plus 3, lies halfway between two binary64
    values and rounds to 513. *)
Definition close_call : BeatMap :=
  map_of [slider_at 0 0 (510 - (1 # 2 ^ 44)) true; circle_at 1 513 false].

Definition close_call_set (cur : Cursor) : @OsuRuleSet Counter Z Judge Z unit :=
  let p := {| cursor := cur; diff := {| Mods := 0 |} |} in
  {| beatMap := close_call;
     cursors := {[ptr cur := new_subSet cur 0]};
     ended := false;
     oppDiffs := {[0 := [1; 2]]};
     queue := [];
     processed := [Init (slider_at 0 0 (510 - (1 # 2 ^ 44)) true) [p];
                   Init (circle_at 1 513 false) [p]];
     hitListener := true; endListener := false; failListener := true;
     experimentalPP := false; hitLog := []; endLog := []; failLog := [] |}.

Definition circle_after_slider (cur : Cursor) : Judge :=
  Init (circle_at 1 513 false) [{| cursor := cur; diff := {| Mods := 0 |} |}].

(** The session of [two_objects] without any player. *)
Definition no_player_set : @OsuRuleSet Counter Z Judge Z unit :=
  {| beatMap := two_objects; cursors := ∅; ended := false; oppDiffs := ∅;
     queue := [judge0; judge1]; processed := []; hitListener := false;
     endListener := false; failListener := false; experimentalPP := false;
     hitLog := []; endLog := []; failLog := [] |}.

Definition activated : @OsuRuleSet Counter Z Judge Z unit :=
  Eval vm_compute in
    default no_player_set (Update (st := settings) no_player_set 2000).

Definition retired : @OsuRuleSet Counter Z Judge Z unit :=
  Eval vm_compute in default activated (Update (st := settings) activated 2000).

(** Modelled from the spec: the late update of a judge.  It "issues the
    terminal judgement for objects that were never clicked (timeout →
    Miss)", for every player for which the object is still open, and the
    object is done once it is "fully resolved for all players".  [expiry]
    is the end of the hit window of the object. *)
Record LateJudge := {
  l_id : Z;
  l_fade : Z;
  l_circle : bool;
  l_expiry : Z;
  l_players : list nat;
  l_resolved : list nat
}.

Definition late_update (g : LateJudge) (t : Z)
  : LateJudge * list (Judgement LateJudge) * bool :=
  let open := filter (λ p, p ∉ l_resolved g) (l_players g) in
  if l_expiry g <? t then
    ({| l_id := l_id g; l_fade := l_fade g; l_circle := l_circle g;
        l_expiry := l_expiry g; l_players := l_players g;
        l_resolved := l_resolved g ++ open |},
     (λ p, {| j_time := t; j_cursor := p; j_src := g; j_x := 0; j_y := 0;
              j_result := @Miss results; j_comboResult := Reset |}) <$> open,
     true)
  else (g, [], bool_decide (open = [])).

Definition late_judges : HitObject LateJudge :=
  {| Init := λ obj ps,
       {| l_id := GetID obj; l_fade := Go.trunc (GetStartTime obj) - 450;
          l_circle := bool_decide (GetType obj = CIRCLE);
          l_expiry := Go.trunc (GetEndTime obj) + 150;
          l_players := (λ p, ptr (cursor p)) <$> ps; l_resolved := [] |};
     UpdatePost := late_update;
     IsHit := λ g p, bool_decide (ptr (cursor p) ∈ l_resolved g);
     GetFadeTime := l_fade;
     GetNumber := l_id;
     isCircle := l_circle;
     sameObject := λ g1 g2, l_id g1 =? l_id g2 |}.

(** The session of [two_objects] with the player cursor 1, a hit listener
    and these judges, nothing activated yet; and the states after a first
    and a second [Update] at 2000 ms. *)
Definition late_set : @OsuRuleSet Counter Z LateJudge Z unit :=
  let p := {| cursor := player_cursor 1; diff := {| Mods := 0 |} |} in
  {| beatMap := two_objects;
     cursors := {[1%nat := new_subSet (player_cursor 1) 0]};
     ended := false;
     oppDiffs := {[0 := [1; 2]]};
     queue := [@Init _ late_judges (circle_at 0 1000 true) [p];
               @Init _ late_judges (slider_at 1 1200 1800 false) [p]];
     processed := []; hitListener := true; endListener := false;
     failListener := false; experimentalPP := false; hitLog := [];
     endLog := []; failLog := [] |}.



End Sample.

(** ** ruleset.go: the per-player passes (lines 114-120 and 464-547)

    [UpdateClickFor], [UpdateNormalFor] and [UpdatePostFor] hand every judge
    of [processed] to its own method of the same purpose.  The fields of
    [difficultyPlayer] and of the cursor that these passes read and write
    are gathered in records of their own; the state of a player is passed
    in and handed back. *)

(** [buttonState] and [BothReleased] (lines 114-120). *)
Module buttonState.

Record t := { Left : bool; Right : bool }.

Definition BothReleased (state : t) : bool := negb (Left state || Right state).

End buttonState.

(** The two constants of the bit set [Buttons], declared elsewhere. *)
Class ButtonBits := {
  Left : Z;
  Right : Z
}.

(** The fields of [graphics.Cursor] that change with every frame. *)
Record CursorInput := {
  LeftButton : bool;
  RightButton : bool;
  IsReplayFrame : bool
}.

(** The fields of [difficultyPlayer] besides [cursor] and [diff]
    (lines 136-146). *)
Record playerButtons := {
  DoubleClick : bool;
  alreadyStolen : bool;
  buttons : buttonState.t;
  gameDownState : bool;
  mouseDownButton : Z;
  lastButton : Z;
  lastButton2 : Z;
  leftCond : bool;
  leftCondE : bool;
  rightCond : bool;
  rightCondE : bool
}.

Section Passes.

Context {hr : HitResults} {md : Modifiers} {st : Settings} {bb : ButtonBits}.
Context {SP HP Obj Attributes PPv2 : Type}.
Context {ho : HitObject Obj} {sp : ScoreProcessor SP Obj} {hpr : HealthProcessor HP}.
Context {pf : Performances Attributes PPv2}.

Abbreviation RuleSet := (@OsuRuleSet SP HP Obj Attributes PPv2).

(** The three per-player methods of the interface [HitObject]
    (lines 124-126) and the type assertion of line 519 on a slider.  A
    judge keeps the coordinator it was initialised with: a method reads the
    coordinator, the player and the frame input of the cursor; it gives the
    new judge, the new state of the player, the calls of [SendResult] it
    makes and its result, which the coordinator discards. *)
Class JudgePasses := {
  isSlider : Obj → bool;
  UpdateFor :
    RuleSet → Obj → difficultyPlayer → CursorInput → playerButtons → Z → bool
    → Obj * playerButtons * list (Judgement Obj) * bool;
  UpdateClickFor :
    RuleSet → Obj → difficultyPlayer → CursorInput → playerButtons → Z
    → Obj * playerButtons * list (Judgement Obj) * bool;
  UpdatePostFor :
    RuleSet → Obj → difficultyPlayer → CursorInput → playerButtons → Z → bool
    → Obj * playerButtons * list (Judgement Obj) * bool
}.

Context {jp : JudgePasses}.

(** Lines 467-491: the edge detection on the two buttons. *)
Definition click_edges (player : difficultyPlayer) (input : CursorInput)
  (p : playerButtons) : playerButtons :=
  let p :=
    {| DoubleClick := DoubleClick p; alreadyStolen := false;
       buttons := buttons p; gameDownState := gameDownState p;
       mouseDownButton := mouseDownButton p; lastButton := lastButton p;
       lastButton2 := lastButton2 p; leftCond := leftCond p;
       leftCondE := leftCondE p; rightCond := rightCond p;
       rightCondE := rightCondE p |} in
  if IsReplayFrame input || IsPlayer (cursor player) then
    let leftCond1 := negb (buttonState.Left (buttons p)) && LeftButton input in
    let rightCond1 := negb (buttonState.Right (buttons p)) && RightButton input in
    if negb (eqb (buttonState.Left (buttons p)) (LeftButton input))
       || negb (eqb (buttonState.Right (buttons p)) (RightButton input))
    then
      let down0 := 0 in
      let down1 := if LeftButton input then Z.lor down0 Left else down0 in
      let down2 := if RightButton input then Z.lor down1 Right else down1 in
      {| DoubleClick := DoubleClick p; alreadyStolen := alreadyStolen p;
         buttons := buttons p;
         gameDownState := LeftButton input || RightButton input;
         mouseDownButton := down2; lastButton := mouseDownButton p;
         lastButton2 := lastButton p; leftCond := leftCond1;
         leftCondE := leftCond1; rightCond := rightCond1;
         rightCondE := rightCond1 |}
    else
      {| DoubleClick := DoubleClick p; alreadyStolen := alreadyStolen p;
         buttons := buttons p; gameDownState := gameDownState p;
         mouseDownButton := mouseDownButton p; lastButton := lastButton p;
         lastButton2 := lastButton2 p; leftCond := leftCond1;
         leftCondE := leftCond1; rightCond := rightCond1;
         rightCondE := rightCond1 |}
  else p.

(** Lines 501-504. *)
Definition click_buttons (player : difficultyPlayer) (input : CursorInput)
  (p : playerButtons) : playerButtons :=
  if IsReplayFrame input || IsPlayer (cursor player) then
    {| DoubleClick := DoubleClick p; alreadyStolen := alreadyStolen p;
       buttons :=
         {| buttonState.Left := LeftButton input;
            buttonState.Right := RightButton input |};
       gameDownState := gameDownState p;
       mouseDownButton := mouseDownButton p; lastButton := lastButton p;
       lastButton2 := lastButton2 p; leftCond := leftCond p;
       leftCondE := leftCondE p; rightCond := rightCond p;
       rightCondE := rightCondE p |}
  else p.

(** Lines 494-498.  [kept] are the judges already visited, [rest] the ones
    still to visit; [set.processed] is [kept ++ rest]. *)
Fixpoint click_loop (player : difficultyPlayer) (input : CursorInput) (time : Z)
  (kept rest : list Obj) (set : RuleSet) (p : playerButtons)
  : option (RuleSet * playerButtons) :=
  match rest with
  | [] => Some (set, p)
  | g :: rest' =>
      let '(g1, p1, calls, _) := UpdateClickFor set g player input p time in
      set1 ← send_all (set_lists set (queue set) (kept ++ g1 :: rest')) calls;
      click_loop player input time (kept ++ [g1]) rest' set1 p1
  end.

(** [UpdateClickFor] (lines 464-505); [input] holds the frame fields of
    the cursor of the player. *)
Definition OsuRuleSet_UpdateClickFor (set : RuleSet) (cursor : Cursor)
  (input : CursorInput) (p : playerButtons) (time : Z)
  : option (RuleSet * playerButtons) :=
  subSet ← cursors set !! ptr cursor;
  let player := player subSet in
  let p1 := click_edges player input p in
  '(set1, p2) ←
    (if (0 <? Z.of_nat (length (processed set))) && negb (failed subSet)
     then click_loop player input time [] (processed set) set p1
     else Some (set, p1));
  Some (set1, click_buttons player input p2).

(** Lines 513-533, with the flag [wasSliderAlready]. *)
Fixpoint normal_loop (cursor : Cursor) (player : difficultyPlayer)
  (input : CursorInput) (time : Z) (processSliderEndsAhead : bool)
  (wasSliderAlready : bool) (kept rest : list Obj) (set : RuleSet)
  (p : playerButtons) : option (RuleSet * playerButtons) :=
  match rest with
  | [] => Some (set, p)
  | g :: rest' =>
      let gated := negb (IsAutoplay cursor) && negb (IsPlayer cursor) && isSlider g in
      if gated && wasSliderAlready then
        normal_loop cursor player input time processSliderEndsAhead
          wasSliderAlready (kept ++ [g]) rest' set p
      else
        let wasSliderAlready1 :=
          if gated && negb (IsHit g player) then true else wasSliderAlready in
        let '(g1, p1, calls, _) :=
          UpdateFor set g player input p time processSliderEndsAhead in
        set1 ← send_all (set_lists set (queue set) (kept ++ g1 :: rest')) calls;
        normal_loop cursor player input time processSliderEndsAhead
          wasSliderAlready1 (kept ++ [g1]) rest' set1 p1
  end.

(** [UpdateNormalFor] (lines 507-535). *)
Definition UpdateNormalFor (set : RuleSet) (cursor : Cursor) (input : CursorInput)
  (p : playerButtons) (time : Z) (processSliderEndsAhead : bool)
  : option (RuleSet * playerButtons) :=
  subSet ← cursors set !! ptr cursor;
  normal_loop cursor (player subSet) input time processSliderEndsAhead false
    [] (processed set) set p.

(** Lines 541-545. *)
Fixpoint postFor_loop (player : difficultyPlayer) (input : CursorInput) (time : Z)
  (processSliderEndsAhead : bool) (kept rest : list Obj) (set : RuleSet)
  (p : playerButtons) : option (RuleSet * playerButtons) :=
  match rest with
  | [] => Some (set, p)
  | g :: rest' =>
      let '(g1, p1, calls, _) :=
        UpdatePostFor set g player input p time processSliderEndsAhead in
      set1 ← send_all (set_lists set (queue set) (kept ++ g1 :: rest')) calls;
      postFor_loop player input time processSliderEndsAhead (kept ++ [g1]) rest'
        set1 p1
  end.

(** [UpdatePostFor] (lines 537-547). *)
Definition OsuRuleSet_UpdatePostFor (set : RuleSet) (cursor : Cursor)
  (input : CursorInput) (p : playerButtons) (time : Z)
  (processSliderEndsAhead : bool) : option (RuleSet * playerButtons) :=
  subSet ← cursors set !! ptr cursor;
  postFor_loop (player subSet) input time processSliderEndsAhead
    [] (processed set) set p.

(** The three passes under one name, for the properties they share. *)
Inductive Pass :=
| ClickPass
| NormalPass (processSliderEndsAhead : bool)
| PostPass (processSliderEndsAhead : bool).

Definition run_pass (set : RuleSet) (cursor : Cursor) (input : CursorInput)
  (p : playerButtons) (time : Z) (pass : Pass) : option (RuleSet * playerButtons) :=
  match pass with
  | ClickPass => OsuRuleSet_UpdateClickFor set cursor input p time
  | NormalPass ahead => UpdateNormalFor set cursor input p time ahead
  | PostPass ahead => OsuRuleSet_UpdatePostFor set cursor input p time ahead
  end.

(** The judges that the slider rule of lines 516-530 concerns. *)
Definition gated (cursor : Cursor) (g : Obj) : bool :=
  negb (IsAutoplay cursor) && negb (IsPlayer cursor) && isSlider g.

End Passes.

Arguments JudgePasses : clear implicits.

(** ** Statements about sessions

    The predicates and relations in which the properties of whole sessions
    are stated. *)

Section Invariants.

Context {hr : HitResults} {md : Modifiers} {st : Settings}.
Context {SP HP Obj Attributes PPv2 : Type}.
Context {ho : HitObject Obj} {sp : ScoreProcessor SP Obj} {hpr : HealthProcessor HP}.
Context {pf : Performances Attributes PPv2}.

Abbreviation subSet_ := (@subSet SP HP PPv2).
Abbreviation OsuRuleSet_ := (@OsuRuleSet SP HP Obj Attributes PPv2).

(** [immune s]: a fail event of the player of [s] is dropped by one of the
    two guards of [failInternal] (lines 796-802). *)
Definition immune (s : subSet_) : bool :=
  IsReplay (cursor (player s)) && IgnoreFailsInReplays
  || negb (forceFail s)
     && CheckModActive (diff (player s)) (Z.lor (Z.lor NoFail Relax) Relax2).

(** [fail_guard c set set']: from [set] to [set'] the player [c] keeps its
    identity, the flags [forceFail] and [sdpfFail] are not cleared, the
    recoveries do not grow, and a player that is immune in [set'] has
    neither failed, nor used a recovery, nor reached the fail listener on
    the way. *)
Definition fail_guard (c : nat) (set set' : OsuRuleSet_) : Prop :=
  wf_cursors set →
  wf_cursors set'
  ∧ ∀ s, cursors set !! c = Some s →
      ∃ s', cursors set' !! c = Some s' ∧ player s' = player s
        ∧ (forceFail s = true → forceFail s' = true)
        ∧ (sdpfFail s = true → sdpfFail s' = true)
        ∧ (0 <= recoveries s < 2 ^ 63 → 0 <= recoveries s' <= recoveries s)
        ∧ (immune s' = true →
           failed s' = failed s ∧ recoveries s' = recoveries s
           ∧ fail_calls set' c = fail_calls set c).

(** A sub-set as the constructor leaves it (lines 347-360): a zero score
    with accuracy 100 and no grade, nothing judged, no flag set; the
    modifiers of the player include the ones asked for. *)
Definition untouched (s : subSet_) : Prop :=
  score s
  = {| Score_ := 0; Accuracy := 100; Grade_ := Grade.NONE; Combo := 0;
       PerfectCombo := false; Count300 := 0; CountGeki := 0; Count100 := 0;
       CountKatu := 0; Count50 := 0; CountMiss := 0; CountSB := 0; PP := 0;
       Score_Mods := Score_Mods (score s) |}
  ∧ Z.lor (Score_Mods (score s)) (Mods (diff (player s))) = Mods (diff (player s))
  ∧ rawScore s = 0 ∧ numObjects s = 0 ∧ currentKatu s = 0 ∧ currentBad s = 0
  ∧ Performance (performance s) = {| PR_PP := 0; Stars := 0 |}
  ∧ recoveries s = (if CheckModActive (diff (player s)) Easy then 2 else 0)
  ∧ failed s = false ∧ sdpfFail s = false ∧ forceFail s = false.

(** The results that one of the four counters of lines 587-596 tallies. *)
Definition is_counted (r : HitResult) : bool :=
  let b := Z.land r BaseHitsM in
  (0 <? b) && ((b =? Hit300) || (b =? Hit100) || (b =? Hit50) || (b =? Miss)).

Definition counted (l : list HitResult) : Z :=
  Z.of_nat (length (filter is_counted l)).

(** The tallies of a sub-set that has recorded at most [n] results. *)
Definition counts_ok (n : Z) (s : subSet_) : Prop :=
  0 <= Count300 (score s) ∧ 0 <= Count100 (score s) ∧ 0 <= Count50 (score s)
  ∧ 0 <= CountMiss (score s) ∧ 0 <= CountGeki (score s) ∧ 0 <= CountKatu (score s)
  ∧ Count300 (score s) + Count100 (score s) + Count50 (score s) + CountMiss (score s)
    <= numObjects s
  ∧ CountGeki (score s) + CountKatu (score s) <= numObjects s
  ∧ numObjects s <= n.

(** The part of the coordinator that the calls of [SendResult] and the
    fail path leave alone: the two lists of judges, the ended flag, and the
    end listener with its log. *)
Definition timeline (set : OsuRuleSet_) :=
  (queue set, processed set, ended set, endListener set, endLog set).

(** What the constructor gives a player besides the zero score
    (lines 280, 320-322, 337-359): the ScoreV2 bits of the map in its
    modifiers, the score processor of its scoring version, a fresh health
    processor, the path of the map and a zero pp calculator. *)
Definition equipped (beatMap : BeatMap) (s : subSet_) : Prop :=
  Z.land (Mods (diff (player s))) (Z.land (Diff_Mods beatMap) ScoreV2)
  = Z.land (Diff_Mods beatMap) ScoreV2
  ∧ scoreProcessor s
    = (if CheckModActive (diff (player s)) ScoreV2
       then newScoreV2Processor beatMap (player s)
       else newScoreV1Processor beatMap (player s))
  ∧ hp s
    = NewHealthProcessor beatMap (diff (player s))
        (negb (OldSpinnerScoring (cursor (player s))))
  ∧ MapPath (performance s) = SongPath beatMap
  ∧ ppv2 s = PPv2_zero.

End Invariants.

(** ** Sample judges for the per-player passes

    The judges of [Sample] with per-player methods: a click inside the
    window of [CanBeHit] resolves a circle with a 300, the normal update
    resolves a slider once its time is over, and the post update gives a
    Miss to a circle that was left alone. *)

Module SamplePasses.

Import Sample.

#[local] Existing Instances results modifiers judges counters health performances.

Definition button_bits : ButtonBits := {| Left := 1; Right := 2 |}.

Definition idle : playerButtons :=
  {| DoubleClick := false; alreadyStolen := false;
     buttons := {| buttonState.Left := false; buttonState.Right := false |};
     gameDownState := false; mouseDownButton := 0; lastButton := 0;
     lastButton2 := 0; leftCond := false; leftCondE := false;
     rightCond := false; rightCondE := false |}.

Definition frame (left right : bool) : CursorInput :=
  {| LeftButton := left; RightButton := right; IsReplayFrame := true |}.

Definition resolve (g : Judge) (c : nat) : Judge :=
  {| id := id g; fade := fade g; circle := circle g; players := players g;
     resolved := resolved g ++ [c] |}.

Definition steal (p : playerButtons) : playerButtons :=
  {| DoubleClick := DoubleClick p; alreadyStolen := true; buttons := buttons p;
     gameDownState := gameDownState p; mouseDownButton := mouseDownButton p;
     lastButton := lastButton p; lastButton2 := lastButton2 p;
     leftCond := false; leftCondE := leftCondE p; rightCond := false;
     rightCondE := rightCondE p |}.

Definition verdict (g : Judge) (player : difficultyPlayer) (time : Z)
  (r : HitResult) (cr : ComboResult) : Judgement Judge :=
  {| j_time := time; j_cursor := ptr (cursor player); j_src := g; j_x := 0;
     j_y := 0; j_result := r; j_comboResult := cr |}.

Definition passes : JudgePasses Counter Z Judge Z unit :=
  {| isSlider := λ g, negb (circle g);
     UpdateClickFor := λ set g player _ p time,
       if (leftCond p || rightCond p) && negb (alreadyStolen p) && circle g
          && negb (IsHit g player)
       then
         match CanBeHit set time g player with
         | Some Click =>
             (resolve g (ptr (cursor player)), steal p,
              [verdict g player time (@Hit300 results) Increase], true)
         | _ => (g, p, [], false)
         end
       else (g, p, [], false);
     UpdateFor := λ _ g player _ p time _,
       if negb (circle g) && negb (IsHit g player) && (fade g + 1050 <=? time)
       then (resolve g (ptr (cursor player)), p,
             [verdict g player time (@Hit300 results) Increase], true)
       else (g, p, [], false);
     UpdatePostFor := λ _ g player _ p time _,
       if circle g && negb (IsHit g player) && (fade g + 600 <? time)
       then (resolve g (ptr (cursor player)), p,
             [verdict g player time (@Miss results) Reset], true)
       else (g, p, [], false) |}.

#[local] Existing Instances button_bits passes.

(** Two sliders that overlap in time, both active for the replay
    cursor 1. *)
Definition two_sliders : BeatMap :=
  map_of [slider_at 0 1000 1500 true; slider_at 1 1200 1800 false].

Definition sliders_set : @OsuRuleSet Counter Z Judge Z unit :=
  let p := {| cursor := replay_cursor 1; diff := {| Mods := 0 |} |} in
  {| beatMap := two_sliders;
     cursors := {[1%nat := new_subSet (replay_cursor 1) 0]};
     ended := false;
     oppDiffs := {[0 := [1; 2]]};
     queue := [];
     processed := [Init (slider_at 0 1000 1500 true) [p];
                   Init (slider_at 1 1200 1800 false) [p]];
     hitListener := true; endListener := false; failListener := true;
     experimentalPP := false; hitLog := []; endLog := []; failLog := [] |}.

(** The map [two_objects] with both objects active for the replay
    cursor 1; the same state with the cursor marked as failed. *)
Definition active_set : @OsuRuleSet Counter Z Judge Z unit :=
  Eval vm_compute in
    default (new_set (replay_cursor 1) 0)
      (Update (st := settings) (listening (new_set (replay_cursor 1) 0)) 1000).

Definition failed_set : @OsuRuleSet Counter Z Judge Z unit :=
  Eval vm_compute in
    default active_set
      (failInternal (st := settings) active_set
         {| cursor := replay_cursor 1; diff := {| Mods := 0 |} |}).

(** A circle on top of an earlier circle of the same stack, at 1000 ms and
    1100 ms, both active for the replay cursor 1. *)
Definition stacked_at (n : Z) (t : Q) (newCombo : bool) : IHitObject :=
  {| GetID := n; GetStartTime := t; GetEndTime := t; IsNewCombo := newCombo;
     GetStackIndex := λ _, 1; GetType := CIRCLE |}.

Definition stack : BeatMap :=
  map_of [stacked_at 0 1000 true; circle_at 1 1100 false].

Definition stack_set : @OsuRuleSet Counter Z Judge Z unit :=
  let p := {| cursor := replay_cursor 1; diff := {| Mods := 0 |} |} in
  {| beatMap := stack;
     cursors := {[1%nat := new_subSet (replay_cursor 1) 0]};
     ended := false;
     oppDiffs := {[0 := [1; 2]]};
     queue := [];
     processed := [Init (stacked_at 0 1000 true) [p];
                   Init (circle_at 1 1100 false) [p]];
     hitListener := true; endListener := false; failListener := true;
     experimentalPP := false; hitLog := []; endLog := []; failLog := [] |}.

(** The state that [NewOsuRuleset] builds for [two_objects], the replay
    cursor 1 and the player cursor 2, both without modifiers. *)
Definition duo_set : @OsuRuleSet Counter Z Judge Z unit :=
  Eval vm_compute in
    default (new_set (replay_cursor 1) 0)
      (NewOsuRuleset (st := settings) two_objects
         [replay_cursor 1; player_cursor 2] [0; 0]).

End SamplePasses.

(** ** states/components/scoreoverlay.go

    The score overlay is a caller of the coordinator: it registers the hit
    listener and is updated once per frame.  Its gliders, its sprites and
    the music track are objects of other packages; they are interfaces
    here, with the operations that the overlay calls.  The drawing methods
    only read the state and are not embedded. *)

Inductive Easing := InQuad | OutQuad.

(** [animation.Glider]. *)
Class Gliders (Glider : Type) := {
  NewGlider : Q → Glider;
  Glider_Reset : Glider → Glider;
  AddEvent : Glider → Q → Q → Q → Glider;
  AddEventS : Glider → Q → Q → Q → Q → Glider;
  AddEventSEase : Glider → Q → Q → Q → Q → Easing → Glider;
  Glider_Update : Glider → Q → Glider;
  GetValue : Glider → Q
}.

(** [sprite.SpriteManager], and the sprite that lines 140-164 build from
    the time, the result and the position, with the rotation drawn at
    line 154. *)
Class Sprites (SpriteManager Sprite : Type) := {
  NewSpriteManager : SpriteManager;
  resultSprite : Z → HitResult → Q * Q → Q → Sprite;
  Sprites_Add : SpriteManager → Sprite → SpriteManager;
  Sprites_Update : SpriteManager → Z → SpriteManager
}.

(** [bass.Track], for the one method that [Update] calls. *)
Class Tracks (Track : Type) := {
  SetPosition : Track → Q → Track
}.

Module ScoreOverlay.

Section Overlay.

Context {hr : HitResults}.
Context {Glider SpriteManager Sprite Track : Type}.
Context {gl : Gliders Glider} {sm : Sprites SpriteManager Sprite} {tr : Tracks Track}.

(** The struct of lines 35-61 without the font and without the references
    to the coordinator and to the cursor: what the methods read from them
    is an argument of the methods.  [combobreaks] counts the calls of
    [overlay.combobreak.Play()]; [countLeft] and [countRight] are [int]s,
    64 bits wide. *)
Record t := {
  lastTime : Z;
  combo : Z;
  newCombo : Z;
  maxCombo : Z;
  newComboScale : Glider;
  newComboScaleB : Glider;
  newComboFadeB : Glider;
  leftScale : Glider;
  lastLeft : bool;
  lastLeftC : Z;
  rightScale : Glider;
  lastRight : bool;
  lastRightC : Z;
  oldScore : Z;
  scoreGlider : Glider;
  ppGlider : Glider;
  music : option Track;
  nextEnd : Z;
  countLeft : Z;
  countRight : Z;
  results : SpriteManager;
  combobreaks : nat
}.

(** [NewScoreOverlay] (lines 63-116): the overlay before the first call
    of its listener. *)
Definition NewScoreOverlay : t :=
  {| lastTime := 0; combo := 0; newCombo := 0; maxCombo := 0;
     newComboScale := NewGlider 1; newComboScaleB := NewGlider 1;
     newComboFadeB := NewGlider 1; leftScale := NewGlider (9 # 10);
     lastLeft := false; lastLeftC := 0; rightScale := NewGlider (9 # 10);
     lastRight := false; lastRightC := 0; oldScore := 0;
     scoreGlider := NewGlider 0; ppGlider := NewGlider 0; music := None;
     nextEnd := 0; countLeft := 0; countRight := 0;
     results := NewSpriteManager; combobreaks := 0 |}.

(** [animate] (lines 118-122), on the glider [newComboScale]. *)
Definition animate (g : Glider) (time : Z) : Glider :=
  let g := Glider_Reset g in
  let g := AddEventSEase g (Go.float time) (Go.float (Go.int64 (time + 50)))
             1 (12 # 10) InQuad in
  AddEventSEase g (Go.float (Go.int64 (time + 50)))
    (Go.float (Go.int64 (time + 100))) (12 # 10) 1 OutQuad.

(** [AddResult] (lines 124-167), on the sprite manager: a result without
    a texture adds nothing. *)
Definition AddResult (m : SpriteManager) (time : Z) (result : HitResult)
  (position : Q * Q) (rotation : Q) : SpriteManager :=
  if (result =? Hit100) || (result =? Hit50) || (result =? Miss)
  then Sprites_Add m (resultSprite time result position rotation)
  else m.

(** The listener of lines 80-114.  [score] is the score that the
    coordinator reports for the cursor of the overlay at line 106 and
    [rotation] the random number of line 154. *)
Definition listener (overlay : t) (time : Z) (position : Q * Q)
  (result : HitResult) (comboResult : ComboResult) (pp : Q) (score : Z)
  (rotation : Q) : t :=
  let time300 := Go.float (Go.int64 (time + 300)) in
  let time1000 := Go.float (Go.int64 (time + 1000)) in
  {| lastTime := lastTime overlay;
     combo :=
       match comboResult with
       | Increase => newCombo overlay
       | Reset => 0
       | Hold => combo overlay
       end;
     newCombo :=
       match comboResult with
       | Increase => Go.int64 (newCombo overlay + 1)
       | Reset => 0
       | Hold => newCombo overlay
       end;
     maxCombo := maxCombo overlay;
     newComboScale :=
       match comboResult with
       | Increase => animate (newComboScale overlay) time
       | _ => newComboScale overlay
       end;
     newComboScaleB :=
       match comboResult with
       | Increase =>
           AddEventS (Glider_Reset (newComboScaleB overlay)) (Go.float time)
             time300 (17 # 10) (11 # 10)
       | _ => newComboScaleB overlay
       end;
     newComboFadeB :=
       match comboResult with
       | Increase =>
           AddEventS (Glider_Reset (newComboFadeB overlay)) (Go.float time)
             time300 (6 # 10) 0
       | _ => newComboFadeB overlay
       end;
     leftScale := leftScale overlay; lastLeft := lastLeft overlay;
     lastLeftC := lastLeftC overlay; rightScale := rightScale overlay;
     lastRight := lastRight overlay; lastRightC := lastRightC overlay;
     oldScore := score;
     scoreGlider :=
       AddEvent (Glider_Reset (scoreGlider overlay)) (Go.float time) time1000
         (Go.float score);
     ppGlider :=
       AddEvent (Glider_Reset (ppGlider overlay)) (Go.float time) time1000 pp;
     music := music overlay;
     nextEnd :=
       match comboResult with
       | Increase => Go.int64 (time + 300)
       | _ => nextEnd overlay
       end;
     countLeft := countLeft overlay; countRight := countRight overlay;
     results :=
       if (result =? Hit100) || (result =? Hit50) || (result =? Miss)
       then AddResult (results overlay) time result position rotation
       else results overlay;
     combobreaks :=
       match comboResult with
       | Reset =>
           if 20 <? newCombo overlay then S (combobreaks overlay)
           else combobreaks overlay
       | _ => combobreaks overlay
       end |}.

(** The loop of lines 178-184: [n] rounds from [sTime] on the five
    gliders [newComboScale], [newComboScaleB], [newComboFadeB],
    [scoreGlider] and [ppGlider]. *)
Fixpoint glide (n : nat) (sTime : Z)
  (gs : Glider * Glider * Glider * Glider * Glider)
  : Glider * Glider * Glider * Glider * Glider :=
  match n with
  | O => gs
  | S n' =>
      let '(a, b, c, d, e) := gs in
      glide n' (Go.int64 (sTime + 1))
        (Glider_Update a (Go.float sTime), Glider_Update b (Go.float sTime),
         Glider_Update c (Go.float sTime), Glider_Update d (Go.float sTime),
         Glider_Update e (Go.float sTime))
  end.

(** Lines 199-211 and 213-225, for one button: its glider, the end of its
    press animation and its counter. *)
Definition button (time : Z) (last now : bool) (scale : Glider) (lastC count : Z)
  : Glider * Z * Z :=
  let '(scale1, lastC1, count1) :=
    if negb last && now then
      (AddEventSEase scale (Go.float time) (Go.float (Go.int64 (time + 100)))
         (9 # 10) (65 # 100) InQuad,
       Go.int64 (time + 100), Go.int64 (count + 1))
    else (scale, lastC, count) in
  let scale2 :=
    if last && negb now then
      let cTime := if time <? lastC1 then lastC1 else time in
      AddEventSEase scale1 (Go.float cTime) (Go.float (Go.int64 (cTime + 100)))
        (65 # 100) (9 # 10) OutQuad
    else scale1 in
  (scale2, lastC1, count1).

(** [Update] (lines 169-234).  [space] tells whether the space key is
    down, [start] is the start time of the first object of the map
    ([None] for a map without objects, where line 172 panics), and [input]
    holds the buttons of the cursor.  Calling [SetPosition] on a track
    that was never set is a nil dereference.  For the largest [time] the
    loop of line 178 does not end: the call does not return, which is
    [None] as well. *)
Definition Update (overlay : t) (time : Z) (space : bool) (start : option Z)
  (input : CursorInput) : option t :=
  music1 ←
    (if space then
       start ← start;
       if 7000 <? Go.int64 (start - time) then
         track ← music overlay;
         Some (Some (SetPosition track
                       (Go.fdiv (Go.fadd (Go.float start) (-2000)) 1000)))
       else Some (music overlay)
     else Some (music overlay));
  if time =? 2 ^ 63 - 1 then None
  else
    let sTime := Go.int64 (lastTime overlay + 1) in
    let '(scale, scaleB, fadeB, scoreG, ppG) :=
      glide (Z.to_nat (time - sTime + 1)) sTime
        (newComboScale overlay, newComboScaleB overlay, newComboFadeB overlay,
         scoreGlider overlay, ppGlider overlay) in
    let scale1 :=
      if negb (combo overlay =? newCombo overlay)
         && (nextEnd overlay <? Go.int64 (time + 140))
      then animate scale time else scale in
    let combo1 :=
      if negb (combo overlay =? newCombo overlay)
         && Go.Qltb (GetValue fadeB) (1 # 100)
      then newCombo overlay else combo overlay in
    let '(leftScale1, lastLeftC1, countLeft1) :=
      button time (lastLeft overlay) (LeftButton input) (leftScale overlay)
        (lastLeftC overlay) (countLeft overlay) in
    let '(rightScale1, lastRightC1, countRight1) :=
      button time (lastRight overlay) (RightButton input) (rightScale overlay)
        (lastRightC overlay) (countRight overlay) in
    Some
      {| lastTime := time; combo := combo1; newCombo := newCombo overlay;
         maxCombo := maxCombo overlay;
         newComboScale := scale1; newComboScaleB := scaleB;
         newComboFadeB := fadeB;
         leftScale := Glider_Update leftScale1 (Go.float time);
         lastLeft := LeftButton input; lastLeftC := lastLeftC1;
         rightScale := Glider_Update rightScale1 (Go.float time);
         lastRight := RightButton input; lastRightC := lastRightC1;
         oldScore := oldScore overlay;
         scoreGlider := scoreG; ppGlider := ppG; music := music1;
         nextEnd := nextEnd overlay;
         countLeft := countLeft1; countRight := countRight1;
         results := Sprites_Update (results overlay) time;
         combobreaks := combobreaks overlay |}.

(** [SetMusic] (lines 236-238). *)
Definition SetMusic (overlay : t) (track : option Track) : t :=
  {| lastTime := lastTime overlay; combo := combo overlay;
     newCombo := newCombo overlay; maxCombo := maxCombo overlay;
     newComboScale := newComboScale overlay;
     newComboScaleB := newComboScaleB overlay;
     newComboFadeB := newComboFadeB overlay; leftScale := leftScale overlay;
     lastLeft := lastLeft overlay; lastLeftC := lastLeftC overlay;
     rightScale := rightScale overlay; lastRight := lastRight overlay;
     lastRightC := lastRightC overlay; oldScore := oldScore overlay;
     scoreGlider := scoreGlider overlay; ppGlider := ppGlider overlay;
     music := track; nextEnd := nextEnd overlay;
     countLeft := countLeft overlay; countRight := countRight overlay;
     results := results overlay; combobreaks := combobreaks overlay |}.

(** [IsBroken] and [NormalBeforeCursor] (lines 356-362). *)
Definition IsBroken (overlay : t) (cursor : Cursor) : bool := false.

Definition NormalBeforeCursor (overlay : t) : bool := true.

(** What happens to an overlay: a call of its listener by the
    coordinator, an update for a frame, or a new track. *)
Inductive Event :=
| Result (time : Z) (position : Q * Q) (result : HitResult)
    (comboResult : ComboResult) (pp : Q) (score : Z) (rotation : Q)
| Frame (time : Z) (space : bool) (start : option Z) (input : CursorInput)
| Music (track : option Track).

Definition step (overlay : t) (e : Event) : option t :=
  match e with
  | Result time position result comboResult pp score rotation =>
      Some (listener overlay time position result comboResult pp score rotation)
  | Frame time space start input => Update overlay time space start input
  | Music track => Some (SetMusic overlay track)
  end.

Fixpoint run (overlay : t) (es : list Event) : option t :=
  match es with
  | [] => Some overlay
  | e :: es' => overlay1 ← step overlay e; run overlay1 es'
  end.

(** The combo that a sequence of events amounts to when it starts from
    the combo [n]: one more for every [Increase], none after a
    [Reset]. *)
Fixpoint streak (es : list Event) (n : Z) : Z :=
  match es with
  | [] => n
  | Result _ _ _ Increase _ _ _ :: es' => streak es' (n + 1)
  | Result _ _ _ Reset _ _ _ :: es' => streak es' 0
  | _ :: es' => streak es' n
  end.

(** The [Reset]s that end a combo of more than 20. *)
Fixpoint breaks (es : list Event) (n : Z) : nat :=
  match es with
  | [] => O
  | Result _ _ _ Increase _ _ _ :: es' => breaks es' (n + 1)
  | Result _ _ _ Reset _ _ _ :: es' =>
      ((if (20 <? n)%Z then 1 else 0) + breaks es' 0)%nat
  | _ :: es' => breaks es' n
  end.

(** The presses of a button: the frames that find it down when the frame
    before found it up. *)
Fixpoint presses (pick : CursorInput → bool) (es : list Event) (last : bool) : Z :=
  match es with
  | [] => 0
  | Frame _ _ _ input :: es' =>
      (if negb last && pick input then 1 else 0) + presses pick es' (pick input)
  | _ :: es' => presses pick es' last
  end.

(** The sequences of events that the overlay survives, for an overlay
    with a track ([hasMusic]) or without one. *)
Fixpoint safe (hasMusic : bool) (es : list Event) : bool :=
  match es with
  | [] => true
  | Result _ _ _ _ _ _ _ :: es' => safe hasMusic es'
  | Music track :: es' => safe (bool_decide (is_Some track)) es'
  | Frame time space start _ :: es' =>
      (if space then
         match start with
         | None => false
         | Some s => if 7000 <? Go.int64 (s - time) then hasMusic else true
         end
       else true)
      && negb (time =? 2 ^ 63 - 1)
      && safe hasMusic es'
  end.

End Overlay.

End ScoreOverlay.

(** Gliders that jump to the target of an event at its end, a sprite
    manager that lists its sprites, and tracks that are a position. *)
Module SampleOverlay.

Record Glide := { value : Q; events : list (Q * Q) }.

Definition land_events (time : Q) (g : Glide) : Glide :=
  {| value :=
       fold_left (λ v e, if Go.Qleb e.1 time then e.2 else v) (events g) (value g);
     events := filter (λ e, Go.Qleb e.1 time = false) (events g) |}.

Definition gliders : Gliders Glide :=
  {| NewGlider := λ v, {| value := v; events := [] |};
     Glider_Reset := λ g, {| value := value g; events := [] |};
     AddEvent := λ g _ t1 v, {| value := value g; events := events g ++ [(t1, v)] |};
     AddEventS := λ g _ t1 _ v,
       {| value := value g; events := events g ++ [(t1, v)] |};
     AddEventSEase := λ g _ t1 _ v _,
       {| value := value g; events := events g ++ [(t1, v)] |};
     Glider_Update := λ g time, land_events time g;
     GetValue := value |}.

Definition sprites : Sprites (list (Z * HitResult)) (Z * HitResult) :=
  {| NewSpriteManager := [];
     resultSprite := λ time result _ _, (time, result);
     Sprites_Add := λ m s, m ++ [s];
     Sprites_Update := λ m _, m |}.

Definition tracks : Tracks Q := {| SetPosition := λ _ pos, pos |}.

Definition buttons_at (left right : bool) : CursorInput :=
  {| LeftButton := left; RightButton := right; IsReplayFrame := false |}.

(** A combo of two, a miss, and two presses of the left button. *)
Definition short_play : list (@ScoreOverlay.Event Q) :=
  [ScoreOverlay.Frame 990 false (Some 1000) (buttons_at true false);
   ScoreOverlay.Result 1000 (0%Q, 0%Q) 32 Increase 10%Q 300 0%Q;
   ScoreOverlay.Frame 1010 false (Some 1000) (buttons_at false false);
   ScoreOverlay.Frame 1190 false (Some 1000) (buttons_at true true);
   ScoreOverlay.Result 1200 (0%Q, 0%Q) 16 Increase 15%Q 400 0%Q;
   ScoreOverlay.Frame 1600 false (Some 1000) (buttons_at true true);
   ScoreOverlay.Result 2000 (0%Q, 0%Q) 4 Reset 15%Q 400 (1 # 10)%Q;
   ScoreOverlay.Frame 2010 false (Some 1000) (buttons_at false false)].

End SampleOverlay.

(** * Properties *)

Section Properties.

Context {hr : HitResults} {md : Modifiers} {st : Settings}.
Context {SP HP Obj Attributes PPv2 : Type}.
Context {ho : HitObject Obj} {sp : ScoreProcessor SP Obj} {hpr : HealthProcessor HP}.
Context {pf : Performances Attributes PPv2}.

Abbreviation subSet := (@subSet SP HP PPv2).
Abbreviation OsuRuleSet := (@OsuRuleSet SP HP Obj Attributes PPv2).

Implicit Types (set : OsuRuleSet) (s : subSet) (c : nat).

(** ** Machine integers *)

Lemma int64_id (x : Z) : - 2 ^ 63 <= x < 2 ^ 63 → Go.int64 x = x.
Proof.
  intros Hx. unfold Go.int64.
  rewrite Z.mod_small by lia. lia.
Qed.

Lemma uint_id (x : Z) : 0 <= x < 2 ^ 64 → Go.uint x = x.
Proof. intros Hx. unfold Go.uint. now rewrite Z.mod_small. Qed.

Lemma uint_range (x : Z) : 0 <= Go.uint x < 2 ^ 64.
Proof. unfold Go.uint. apply Z.mod_pos_bound. lia. Qed.

Lemma Max_spec (a b : Z) : Go.Max a b = Z.max a b.
Proof. unfold Go.Max. destruct (Z.ltb_spec a b); lia. Qed.

(** The fuel of [Go.Search] is enough: the interval is halved at every
    step, so more fuel does not change the result. *)
Lemma search_half (i j : Z) :
  0 <= i → i < j → j < 2 ^ 63 →
  let h := Z.shiftr (Go.uint (i + j)) 1 in i <= h < j.
Proof.
  intros Hi Hij Hj. cbn zeta. unfold Go.uint.
  rewrite Z.mod_small by lia. rewrite Z.shiftr_div_pow2 by lia.
  change (2 ^ 1) with 2. split.
  - apply Z.div_le_lower_bound; lia.
  - apply Z.div_lt_upper_bound; lia.
Qed.

Lemma search_loop_fuel (f : Z → bool) (fuel k : nat) (i j : Z) :
  0 <= i → j < 2 ^ 63 → j - i <= Z.of_nat fuel →
  Go.search_loop (fuel + k) f i j = Go.search_loop fuel f i j.
Proof.
  revert i j. induction fuel as [|fuel IH]; intros i j Hi Hj Hf.
  - simpl. destruct k; simpl; [done|].
    destruct (Z.ltb_spec i j); [lia|done].
  - simpl. destruct (Z.ltb_spec i j) as [Hij|]; [|done].
    pose proof (search_half i j Hi Hij Hj) as Hh. cbn zeta in Hh.
    destruct (f _); apply IH; lia.
Qed.

Lemma Search_fuel (n : Z) (f : Z → bool) (k : nat) :
  n < 2 ^ 63 → Go.search_loop (Z.to_nat n + k) f 0 n = Go.Search n f.
Proof. intros Hn. unfold Go.Search. apply search_loop_fuel; lia. Qed.

(** ** The fail path *)

Lemma lookup_store set c s k :
  cursors (store set c s) !! k = if decide (c = k) then Some s else cursors set !! k.
Proof. unfold store. simpl. apply lookup_insert. Qed.

Lemma lookup_store_eq set c s : cursors (store set c s) !! c = Some s.
Proof. rewrite lookup_store. by case_decide. Qed.

(** C4.  A would-be fail is a fail event that passes the two guards of
    [failInternal] (fails of replays are not ignored; no fail-preventing
    modifier, or a forced fail).  With a positive number of recoveries and
    neither [sdpfFail] nor [forceFail] set, exactly one recovery is
    consumed, the health processor receives [Increase(160, false)], and the
    fail listener is not called; otherwise (in particular with no recovery
    left) the player is marked failed, and the registered fail listener is
    called if the player had not failed before. *)
Theorem failInternal_recovery set (p : difficultyPlayer) s :
  cursors set !! ptr (cursor p) = Some s →
  IsReplay (cursor p) && IgnoreFailsInReplays = false →
  forceFail s || negb (CheckModActive (diff p) (Z.lor (Z.lor NoFail Relax) Relax2)) = true →
  - 2 ^ 63 < recoveries s < 2 ^ 63 →
  ∃ set' s',
    failInternal set p = Some set' ∧
    cursors set' !! ptr (cursor p) = Some s' ∧
    if (0 <? recoveries s) && negb (sdpfFail s) && negb (forceFail s) then
      recoveries s' = recoveries s - 1 ∧
      hp s' = hpIncrease (hp s) 160 false ∧
      failed s' = failed s ∧
      failLog set' = failLog set
    else
      failed s' = true ∧
      recoveries s' = recoveries s ∧
      hp s' = hp s ∧
      failLog set' =
        failLog set
        ++ (if failListener set && negb (failed s) then [ptr (cursor p)] else []).
Proof.
  intros Hs Hg1 Hg2 Hr. unfold failInternal.
  rewrite Hg1, Hs. simpl.
  assert (negb (forceFail s)
          && CheckModActive (diff p) (Z.lor (Z.lor NoFail Relax) Relax2) = false)
    as -> by (destruct (forceFail s), (CheckModActive _ _); done).
  destruct ((0 <? recoveries s) && negb (sdpfFail s) && negb (forceFail s)) eqn:Hrec.
  - eexists _, _. split; [reflexivity|]. split; [apply lookup_store_eq|].
    simpl. rewrite int64_id by lia. done.
  - eexists _, _. split; [reflexivity|]. split; [apply lookup_store_eq|].
    simpl. repeat split.
    destruct (failListener set && negb (failed s)); simpl; [done|].
    by rewrite app_nil_r.
Qed.

(** *** Monotonicity of the failed state *)

Lemma fail_mono_refl set : fail_mono set set.
Proof. intros c s Hs. exists s. split_and!; [done|done|lia]. Qed.

Lemma fail_mono_trans set1 set2 set3 :
  fail_mono set1 set2 → fail_mono set2 set3 → fail_mono set1 set3.
Proof.
  intros H12 H23 c s Hs.
  destruct (H12 c s Hs) as (s2 & Hs2 & Hf2 & Hn2).
  destruct (H23 c s2 Hs2) as (s3 & Hs3 & Hf3 & Hn3).
  exists s3. split_and!; [done|tauto|lia].
Qed.

(** A state change that keeps the fail flags and the fail log. *)
Lemma fail_mono_frame set set' :
  failLog set' = failLog set →
  (∀ c s, cursors set !! c = Some s →
     ∃ s', cursors set' !! c = Some s' ∧ failed s' = failed s) →
  fail_mono set set'.
Proof.
  intros Hlog Hc c s Hs. destruct (Hc c s Hs) as (s' & Hs' & Hf).
  exists s'. split_and!; [done|congruence|].
  unfold fail_calls. rewrite Hlog, Hf. lia.
Qed.

Lemma fail_mono_store set c s s' :
  cursors set !! c = Some s → failed s' = failed s →
  fail_mono set (store set c s').
Proof.
  intros Hs Hf. apply fail_mono_frame; [done|].
  intros k sk Hk. rewrite lookup_store. case_decide; subst; eauto.
  exists s'. split; [done|]. congruence.
Qed.

Lemma fail_calls_call set (cur : Cursor) k :
  fail_calls (call_failListener set cur) k
  = (fail_calls set k + if decide (ptr cur = k) then 1 else 0)%nat.
Proof.
  unfold fail_calls. simpl. rewrite filter_app, length_app.
  f_equal. rewrite filter_cons, filter_nil. by case_decide.
Qed.

Lemma failInternal_mono set (p : difficultyPlayer) set' :
  failInternal set p = Some set' → fail_mono set set'.
Proof.
  unfold failInternal. intros Hf.
  destruct (IsReplay (cursor p) && IgnoreFailsInReplays).
  { inversion Hf. apply fail_mono_refl. }
  destruct (cursors set !! ptr (cursor p)) as [s|] eqn:Hs; [|done].
  simpl in Hf.
  destruct (negb (forceFail s) && CheckModActive _ _).
  { inversion Hf. apply fail_mono_refl. }
  destruct ((0 <? recoveries s) && negb (sdpfFail s) && negb (forceFail s)).
  { inversion Hf. by eapply fail_mono_store. }
  inversion Hf as [Hset]. clear Hf Hset.
  intros k sk Hk. rewrite lookup_store. case_decide as Hkc.
  - subst k. assert (sk = s) as -> by congruence.
    eexists. split; [done|]. split; [done|]. simpl.
    destruct (failed s); simpl.
    + rewrite andb_false_r. unfold fail_calls, store. simpl. lia.
    + rewrite andb_true_r. destruct (failListener set).
      * unfold store at 1. unfold fail_calls at 1. simpl.
        change (length (filter (λ x, x = ptr (cursor p)) (failLog set ++ [ptr (cursor p)])))
          with (fail_calls (call_failListener set (cursor p)) (ptr (cursor p))).
        rewrite fail_calls_call. case_decide; lia.
      * unfold fail_calls, store. simpl. lia.
  - destruct (failListener set && negb (failed s)).
    + exists sk. split; [done|]. split; [done|].
      unfold store at 1. unfold fail_calls at 1. simpl.
      change (length (filter (λ x, x = k) (failLog set ++ [ptr (cursor p)])))
        with (fail_calls (call_failListener set (cursor p)) k).
      rewrite fail_calls_call. case_decide; [done|lia].
    + exists sk. split; [done|]. split; [done|].
      unfold fail_calls, store. simpl. lia.
Qed.

Lemma failEvent_mono (fails : bool) set (p : difficultyPlayer) set' :
  failEvent fails set p = Some set' → fail_mono set set'.
Proof.
  unfold failEvent. destruct fails.
  - apply failInternal_mono.
  - intros [= <-]. apply fail_mono_refl.
Qed.

Lemma PlayerStopped_mono set c time set' :
  PlayerStopped set c time = Some set' → fail_mono set set'.
Proof.
  unfold PlayerStopped. intros Hp.
  destruct (index _ _) as [lastObj|]; [|done]. simpl in Hp.
  destruct (time <? _).
  - destruct (cursors set !! c) as [s|] eqn:Hs; [|done]. simpl in Hp.
    eapply fail_mono_trans; [|by eapply failEvent_mono].
    by eapply fail_mono_store.
  - inversion Hp. apply fail_mono_refl.
Qed.

(** The aggregation leaves the player, the health state and the fail
    bookkeeping of the sub-set alone. *)
Lemma aggregate_frame set s0 (src : Obj) r cr s1 r' cr' :
  aggregate set s0 src r cr = Some (s1, r', cr') →
  player s1 = player s0 ∧ hp s1 = hp s0 ∧ recoveries s1 = recoveries s0
  ∧ failed s1 = failed s0 ∧ forceFail s1 = forceFail s0.
Proof.
  unfold aggregate. intros Ha.
  destruct (oppDiffs set !! _) as [diffs|]; [|done].
  cbn [mbind option_bind] in Ha.
  destruct (index diffs _) as [d|]; [|done].
  cbn [mbind option_bind] in Ha.
  destruct (combo_end _ _ _ _ _ _ _ _) as [[[[[r2 g] k] ck] cb]|]; [|done].
  cbn [mbind option_bind] in Ha. inversion Ha. done.
Qed.

Lemma fail_mono_hitListener set e : fail_mono set (call_hitListener set e).
Proof. apply fail_mono_frame; [done|]. intros c s Hs. by exists s. Qed.

Lemma SendResult_mono set time c (src : Obj) x y r cr set' :
  SendResult set time c src x y r cr = Some set' → fail_mono set set'.
Proof.
  unfold SendResult. intros Hs.
  destruct ((r =? Ignore) || (r =? PositionalMiss)).
  { destruct ((r =? PositionalMiss) && hitListener set).
    - destruct (cursors set !! c) as [s|]; [|done]. simpl in Hs.
      destruct (negb _); inversion Hs;
        [apply fail_mono_hitListener | apply fail_mono_refl].
    - inversion Hs. apply fail_mono_refl. }
  destruct (cursors set !! c) as [s0|] eqn:Hs0; [|done].
  cbn [mbind option_bind] in Hs.
  destruct (aggregate set s0 src r cr) as [[[s1 r1] cr1]|] eqn:Ha; [|done].
  cbn [mbind option_bind] in Hs.
  destruct (aggregate_frame _ _ _ _ _ _ _ _ Ha) as (_ & _ & _ & Hf & _).
  destruct (failEvent _ _ _) as [set1|] eqn:He; [|done].
  cbn [mbind option_bind] in Hs.
  assert (fail_mono set set1) as Hm.
  { eapply fail_mono_trans; [|by eapply failEvent_mono].
    by eapply fail_mono_store. }
  destruct (hitListener set1); simplify_eq; [|done].
  eapply fail_mono_trans; [done|]. apply fail_mono_hitListener.
Qed.

Lemma send_all_mono (js : list (Judgement Obj)) set set' :
  send_all set js = Some set' → fail_mono set set'.
Proof.
  revert set. induction js as [|j js IH]; intros set; simpl.
  - intros [= <-]. apply fail_mono_refl.
  - intros Hs. destruct (SendResult _ _ _ _ _ _ _ _) as [set1|] eqn:H1; [|done].
    simpl in Hs. eapply fail_mono_trans; [by eapply SendResult_mono|by apply IH].
Qed.

Lemma fail_mono_lists set q p : fail_mono set (set_lists set q p).
Proof. apply fail_mono_frame; [done|]. intros c s Hs. by exists s. Qed.

Lemma fail_mono_endListener set t n : fail_mono set (call_endListener set t n).
Proof. apply fail_mono_frame; [done|]. intros c s Hs. by exists s. Qed.

Lemma post_loop_mono time (rest kept : list Obj) set set' :
  post_loop time kept rest set = Some set' → fail_mono set set'.
Proof.
  revert kept set. induction rest as [|g rest IH]; intros kept set; simpl.
  - intros [= <-]. apply fail_mono_lists.
  - destruct (UpdatePost g time) as [[g1 calls] isDone].
    intros Hp. destruct (send_all _ calls) as [set1|] eqn:H1; [|done].
    simpl in Hp. apply send_all_mono in H1.
    assert (fail_mono set set1) as Hm.
    { eapply fail_mono_trans; [apply fail_mono_lists|done]. }
    destruct isDone.
    + apply IH in Hp. destruct (endListener set1).
      * eapply fail_mono_trans; [done|].
        eapply fail_mono_trans; [apply fail_mono_endListener|done].
      * by eapply fail_mono_trans.
    + apply IH in Hp. by eapply fail_mono_trans.
Qed.

Lemma hp_tick_mono time set c set' :
  hp_tick time set c = Some set' → fail_mono set set'.
Proof.
  unfold hp_tick. intros Ht.
  destruct (cursors set !! c) as [s|] eqn:Hs; [|done]. simpl in Ht.
  eapply fail_mono_trans; [|by eapply failEvent_mono].
  by eapply fail_mono_store.
Qed.

Lemma hp_ticks_mono time (cs : list nat) set set' :
  hp_ticks time set cs = Some set' → fail_mono set set'.
Proof.
  revert set. induction cs as [|c cs IH]; intros set; simpl.
  - intros [= <-]. apply fail_mono_refl.
  - intros Ht. destruct (hp_tick time set c) as [set1|] eqn:H1; [|done].
    simpl in Ht. eapply fail_mono_trans; [by eapply hp_tick_mono|by apply IH].
Qed.

Lemma Update_mono set time set' :
  Update set time = Some set' → fail_mono set set'.
Proof.
  unfold Update. intros Hu.
  destruct (post_loop _ _ _ _) as [set1|] eqn:H1; [|done]. simpl in Hu.
  destruct (activate _ _ _) as [q p].
  destruct (hp_ticks _ _ _) as [set3|] eqn:H3; [|done]. simpl in Hu.
  apply post_loop_mono in H1. apply hp_ticks_mono in H3.
  assert (fail_mono set set3) as Hm.
  { eapply fail_mono_trans; [done|].
    eapply fail_mono_trans; [apply fail_mono_lists|done]. }
  destruct (_ && _); simplify_eq; [|done].
  eapply fail_mono_trans; [done|].
  apply fail_mono_frame; [done|]. intros c s Hs. by exists s.
Qed.

Lemma step_mono set (call : Call) set' :
  step set call = Some set' → fail_mono set set'.
Proof.
  destruct call as [t k src x y r cr|t|k t|k|f|l|l|l]; simpl.
  - apply SendResult_mono.
  - apply Update_mono.
  - apply PlayerStopped_mono.
  - intros Hf. destruct (cursors set !! k) as [s|]; [|done].
    by eapply failInternal_mono.
  - intros [= <-]. apply fail_mono_lists.
  - intros [= <-]. apply fail_mono_frame; [done|]. intros c s Hs. by exists s.
  - intros [= <-]. apply fail_mono_frame; [done|]. intros c s Hs. by exists s.
  - intros [= <-]. apply fail_mono_frame; [done|]. intros c s Hs. by exists s.
Qed.

Lemma run_mono (calls : list Call) set set' :
  run set calls = Some set' → fail_mono set set'.
Proof.
  revert set. induction calls as [|call calls IH]; intros set; simpl.
  - intros [= <-]. apply fail_mono_refl.
  - intros Hr. destruct (step set call) as [set1|] eqn:H1; [|done].
    simpl in Hr. eapply fail_mono_trans; [by eapply step_mono|by apply IH].
Qed.

(** C1.  Over any session, from any state: a player that has failed stays
    failed, and the fail listener is called for a player at most once (not
    at all if the player has already failed), however often the fail path
    is entered. *)
Theorem failed_terminal_listener_once set (calls : list Call) set' c s :
  run set calls = Some set' →
  cursors set !! c = Some s →
  ∃ s', cursors set' !! c = Some s' ∧
    (failed s = true → failed s' = true) ∧
    (fail_calls set' c ≤ fail_calls set c + (if failed s then 0 else 1))%nat.
Proof.
  intros Hr Hs. destruct (run_mono _ _ _ Hr c s Hs) as (s' & Hs' & Hf & Hn).
  exists s'. split_and!; [done|done|].
  destruct (failed s), (failed s'); simpl in *; lia.
Qed.

(** C10 (as amended).  A stop before the end time of the last object minus
    one sets [forceFail] and sends [Increase(-10000, true)] to the health
    processor.  If that raises the fail event, and unless the cursor is a
    replay whose fails are ignored, the player is marked failed whatever the
    fail-preventing modifiers and the recoveries left, the recoveries are
    not consumed, and the registered fail listener is called if the player
    had not failed before. *)
Theorem PlayerStopped_forced_fail set c time (lastObj : IHitObject) s :
  index (HitObjects (beatMap set)) (Z.of_nat (length (HitObjects (beatMap set))) - 1)
    = Some lastObj →
  time < Go.int64 (Go.trunc (GetEndTime lastObj) - 1) →
  cursors set !! c = Some s →
  ptr (cursor (player s)) = c →
  ∃ set' s',
    PlayerStopped set c time = Some set' ∧
    cursors set' !! c = Some s' ∧
    forceFail s' = true ∧
    hp s' = hpIncrease (hp s) (-10000) true ∧
    recoveries s' = recoveries s ∧
    if hpIncrease_fails (hp s) (-10000)
       && negb (IsReplay (cursor (player s)) && IgnoreFailsInReplays)
    then
      failed s' = true ∧
      failLog set' = failLog set ++ (if failListener set && negb (failed s) then [c] else [])
    else
      failed s' = failed s ∧ failLog set' = failLog set.
Proof.
  intros Hlast Ht Hs Hc. subst c. unfold PlayerStopped.
  rewrite Hlast. cbn [mbind option_bind].
  apply Z.ltb_lt in Ht. rewrite Ht, Hs. cbn [mbind option_bind].
  cbn [set_forceFail set_hp hp player].
  destruct (hpIncrease_fails (hp s) (-10000)); cbn [failEvent andb].
  2:{ eexists _, _. split; [done|]. split; [apply lookup_store_eq|].
      by split_and!. }
  unfold failInternal.
  destruct (IsReplay (cursor (player s)) && IgnoreFailsInReplays); cbn [negb].
  { eexists _, _. split; [done|]. split; [apply lookup_store_eq|].
    by split_and!. }
  rewrite lookup_store_eq. cbn [mbind option_bind forceFail negb andb].
  rewrite andb_false_r.
  eexists _, _. split; [done|]. split; [apply lookup_store_eq|].
  cbn. split_and!; try done.
  destruct (failListener set && negb (failed s)); [done|].
  by rewrite app_nil_r.
Qed.

(** ** Frames *)

Lemma same_scoring_refl s : same_scoring s s.
Proof. by repeat split. Qed.

Lemma same_scoring_trans s1 s2 s3 :
  same_scoring s1 s2 → same_scoring s2 s3 → same_scoring s1 s3.
Proof. unfold same_scoring. intros H12 H23. split_and!; destruct_and!; congruence. Qed.

Lemma scoring_frame_refl set : scoring_frame set set.
Proof. intros c s Hs. exists s. split_and!; [done|apply same_scoring_refl|done]. Qed.

Lemma scoring_frame_trans set1 set2 set3 :
  scoring_frame set1 set2 → scoring_frame set2 set3 → scoring_frame set1 set3.
Proof.
  intros H12 H23 c s Hs.
  destruct (H12 c s Hs) as (s2 & Hs2 & Hv2 & Hh2).
  destruct (H23 c s2 Hs2) as (s3 & Hs3 & Hv3 & Hh3).
  exists s3. split_and!; [done|by eapply same_scoring_trans|].
  intros Hsd. rewrite Hh3, Hh2; [done..|].
  destruct Hv2 as (_&_&_&_&_&_&_&_&_&Hsd2). congruence.
Qed.

Lemma scoring_frame_insert set set' c s s' :
  cursors set !! c = Some s → cursors set' = <[c := s']> (cursors set) →
  same_scoring s s' → (sdpfFail s = true → hp s' = hp s) →
  scoring_frame set set'.
Proof.
  intros Hs Hc Hv Hh k sk Hk. rewrite Hc, lookup_insert. case_decide; subst.
  - exists s'. assert (sk = s) as -> by congruence. done.
  - exists sk. split_and!; [done|apply same_scoring_refl|done].
Qed.

Lemma scoring_frame_store set c s s' :
  cursors set !! c = Some s → same_scoring s s' →
  (sdpfFail s = true → hp s' = hp s) →
  scoring_frame set (store set c s').
Proof. intros. by eapply scoring_frame_insert. Qed.

Lemma failInternal_frame set (p : difficultyPlayer) set' :
  failInternal set p = Some set' →
  scoring_frame set set' ∧ board set' = board set.
Proof.
  unfold failInternal. intros Hf.
  destruct (IsReplay (cursor p) && IgnoreFailsInReplays).
  { simplify_eq. split; [apply scoring_frame_refl|done]. }
  destruct (cursors set !! ptr (cursor p)) as [s|] eqn:Hs; [|done].
  simpl in Hf.
  destruct (negb (forceFail s) && CheckModActive _ _).
  { simplify_eq. split; [apply scoring_frame_refl|done]. }
  destruct ((0 <? recoveries s) && negb (sdpfFail s) && negb (forceFail s)) eqn:Hr.
  - simplify_eq. split; [|done].
    eapply scoring_frame_store; [done|by repeat split|].
    intros Hsd. rewrite Hsd in Hr. simpl in Hr. by rewrite andb_false_r in Hr.
  - simplify_eq. split.
    + destruct (failListener set && negb (failed s));
        (eapply scoring_frame_insert; [done|done|by repeat split|done]).
    + by destruct (failListener set && negb (failed s)).
Qed.

Lemma failEvent_frame (fails : bool) set (p : difficultyPlayer) set' :
  failEvent fails set p = Some set' →
  scoring_frame set set' ∧ board set' = board set.
Proof.
  unfold failEvent. destruct fails.
  - apply failInternal_frame.
  - intros [= <-]. split; [apply scoring_frame_refl|done].
Qed.

(** What a call of [SendResult] with a result that is not ignored does:
    the sub-set of the cursor is aggregated, then its health state is
    updated, a fail event is handled, and the hit listener is called. *)
Lemma SendResult_inv set time c (src : Obj) x y r cr set' :
  SendResult set time c src x y r cr = Some set' →
  (r =? Ignore) || (r =? PositionalMiss) = false →
  ∃ s0 s1 r' cr' s',
    cursors set !! c = Some s0
    ∧ aggregate set s0 src r cr = Some (s1, r', cr')
    ∧ cursors set' !! c = Some s'
    ∧ same_scoring s1 s'
    ∧ (sdpfFail s1 = true → hp s' = hpIncrease (hp s0) (-100000) true)
    ∧ (∀ k sk, k ≠ c → cursors set !! k = Some sk →
         ∃ sk', cursors set' !! k = Some sk' ∧ same_scoring sk sk')
    ∧ beatMap set' = beatMap set ∧ oppDiffs set' = oppDiffs set
    ∧ queue set' = queue set ∧ processed set' = processed set
    ∧ ended set' = ended set
    ∧ hitLog set' =
        hitLog set
        ++ (if hitListener set
            then [hit_event s1 c time (GetNumber src) x y r' cr'] else []).
Proof.
  unfold SendResult. intros Hs Hi. rewrite Hi in Hs.
  destruct (cursors set !! c) as [s0|] eqn:Hs0; [|done].
  cbn [mbind option_bind] in Hs.
  destruct (aggregate set s0 src r cr) as [[[s1 r1] cr1]|] eqn:Ha; [|done].
  cbn [mbind option_bind] in Hs.
  destruct (aggregate_frame _ _ _ _ _ _ _ _ Ha) as (_ & Hhp & _).
  destruct (failEvent _ _ _) as [set1|] eqn:He; [|done].
  cbn [mbind option_bind] in Hs.
  apply failEvent_frame in He as [Hfr Hb].
  set (s2 := set_hp s1 _) in *.
  destruct (Hfr c s2 (lookup_store_eq _ _ _)) as (s' & Hs' & Hv & Hh).
  unfold board in Hb. cbn in Hb.
  injection Hb as Hbm Hod Hq Hp He Hhl Hel Hfl Hlog Helog.
  assert (∀ k sk, k ≠ c → cursors set !! k = Some sk →
             ∃ sk', cursors set1 !! k = Some sk' ∧ same_scoring sk sk') as Hk.
  { intros k sk Hne Hk.
    destruct (Hfr k sk) as (sk' & Hk' & Hvk & _).
    - rewrite lookup_store. by case_decide.
    - eauto. }
  assert (hp s' = hp s2 → sdpfFail s1 = true →
          hp s' = hpIncrease (hp s0) (-100000) true) as Hhp'.
  { intros -> Hsd. subst s2. simpl. by rewrite Hsd, Hhp. }
  exists s0, s1, r1, cr1, s'.
  rewrite <- Hhl.
  destruct (hitListener set1); simplify_eq; cbn.
  - split_and!; try done; [auto|by rewrite Hlog].
  - rewrite app_nil_r. split_and!; try done. auto.
Qed.

(** The fields of the aggregated sub-set, as lines 561-657 compute them. *)
Lemma aggregate_inv set s0 (src : Obj) r cr s1 r' cr' :
  aggregate set s0 src r cr = Some (s1, r', cr') →
  let mods := Mods (diff (player s0)) in
  let ov := sdpf_override mods r cr in
  let rm := ModifyResult (scoreProcessor s0) (if ov then sdpf_result r else r) src in
  let b := Z.land rm BaseHitsM in
  cr' = (if ov then Reset else cr)
  ∧ scoreProcessor s1 = AddResult (scoreProcessor s0) rm cr'
  ∧ Score_ (score s1) = GetScore (scoreProcessor s1)
  ∧ sdpfFail s1 = (if ov then true else sdpfFail s0)
  ∧ numObjects s1
    = (if 0 <? b then Go.uint (numObjects s0 + 1) else numObjects s0)
  ∧ rawScore s1
    = (if 0 <? b then Go.int64 (rawScore s0 + ScoreValue rm) else rawScore s0)
  ∧ Count300 (score s1)
    = (if (0 <? b) && (b =? Hit300) then Go.uint (Count300 (score s0) + 1)
       else Count300 (score s0))
  ∧ Count50 (score s1)
    = (if (0 <? b) && negb (b =? Hit300) && negb (b =? Hit100) && (b =? Hit50)
       then Go.uint (Count50 (score s0) + 1) else Count50 (score s0))
  ∧ CountMiss (score s1)
    = (if (0 <? b) && negb (b =? Hit300) && negb (b =? Hit100)
          && negb (b =? Hit50) && (b =? Miss)
       then Go.uint (CountMiss (score s0) + 1) else CountMiss (score s0))
  ∧ Combo (score s1)
    = Go.Max (Go.uint (GetCombo (scoreProcessor s1))) (Combo (score s0))
  ∧ Accuracy (score s1)
    = (if numObjects s1 =? 0 then 100%Q
       else Go.fdiv (Go.fmul 100 (Go.float (rawScore s1)))
              (Go.float (Go.uint (numObjects s1 * 300))))
  ∧ Grade_ (score s1)
    = grade_ladder mods (Count300 (score s1)) (Count50 (score s1))
        (CountMiss (score s1)) (numObjects s1)
  ∧ (∃ diffs d,
       oppDiffs set !! GetDiffMaskedMods mods = Some diffs
       ∧ index diffs (Go.Max 1 (numObjects s1) - 1) = Some d
       ∧ PerfectCombo (score s1) = (Go.uint (Attr_MaxCombo d) =? Combo (score s1))).
Proof.
  unfold aggregate. intros Ha.
  destruct (oppDiffs set !! _) as [diffs|] eqn:Hd; [|done].
  cbn [mbind option_bind] in Ha.
  destruct (index diffs _) as [d|] eqn:Hi; [|done].
  cbn [mbind option_bind] in Ha.
  destruct (combo_end _ _ _ _ _ _ _ _) as [[[[[r2 g] k] ck] cb]|]; [|done].
  cbn [mbind option_bind] in Ha. injection Ha as <- <- <-.
  cbn. split_and!; try reflexivity.
  exists diffs, d. by split_and!.
Qed.

(** ** The sudden-death / perfect override *)

Lemma sdpf_result_idem r : HitResults_wf → sdpf_result (sdpf_result r) = sdpf_result r.
Proof.
  intros (_ & _ & _ & _ & Hm & _ & Hs). unfold sdpf_result.
  destruct (Z.ltb_spec 0 (Z.land r BaseHitsM)).
  - destruct (Z.ltb_spec 0 (Z.land Miss BaseHitsM)); [done|lia].
  - destruct (Z.ltb_spec 0 (Z.land r SliderHits)).
    + destruct (Z.ltb_spec 0 (Z.land SliderMiss BaseHitsM)); [lia|].
      by destruct (0 <? Z.land SliderMiss SliderHits).
    + destruct (Z.ltb_spec 0 (Z.land r BaseHitsM)); [lia|].
      by destruct (Z.ltb_spec 0 (Z.land r SliderHits)); [lia|].
Qed.

Lemma sdpf_override_again mods r cr :
  HitResults_wf →
  sdpf_override mods r cr = true → sdpf_override mods (sdpf_result r) Reset = true.
Proof.
  intros (_ & _ & _ & _ & Hm & H3 & _). unfold sdpf_override.
  rewrite (bool_decide_true (Reset = Reset)) by done. rewrite andb_true_r.
  destruct (Active mods (Z.lor SuddenDeath Perfect)); [done|]. simpl.
  destruct (Active mods Perfect); [|done]. simpl.
  intros [Hb _]%andb_true_iff. unfold sdpf_result. rewrite Hb.
  apply andb_true_iff. split; [by apply Z.ltb_lt|].
  apply negb_true_iff. by apply Z.eqb_neq.
Qed.

Lemma sdpf_result_kept r :
  HitResults_wf →
  (r =? Ignore) || (r =? PositionalMiss) = false →
  (sdpf_result r =? Ignore) || (sdpf_result r =? PositionalMiss) = false.
Proof.
  intros (H1 & H2 & H3 & H4 & _) Hr. unfold sdpf_result.
  destruct (0 <? Z.land r BaseHitsM).
  { apply orb_false_iff. split; by apply Z.eqb_neq. }
  destruct (0 <? Z.land r SliderHits); [|done].
  apply orb_false_iff. split; by apply Z.eqb_neq.
Qed.

Lemma aggregate_sdpf set s0 (src : Obj) r cr :
  HitResults_wf →
  sdpf_override (Mods (diff (player s0))) r cr = true →
  aggregate set s0 src (sdpf_result r) Reset = aggregate set s0 src r cr.
Proof.
  intros Hwf Hov. unfold aggregate.
  rewrite (sdpf_override_again _ _ _ Hwf Hov), Hov.
  by rewrite (sdpf_result_idem _ Hwf).
Qed.

(** C5.  When the guard of lines 561-562 holds (SuddenDeath or Perfect with
    a combo reset, or Perfect with a base result other than [Hit300]) and
    the result is not an ignored one: the result becomes [Miss] if it is a
    base result and [SliderMiss] if it is a slider-part hit; the score
    processor is updated with that result (through [ModifyResult]) and
    [Reset]; the published score and max combo are read from the processor
    so updated; [sdpfFail] is set and the health update is the forced drain
    [Increase(-100000, true)]; the hit listener receives [Reset]; and the
    whole outcome is the one of the call with the adjusted result and
    [Reset] in place of the original ones. *)
Theorem SendResult_sdpf_override set time c (src : Obj) x y r cr s0 set' :
  cursors set !! c = Some s0 →
  (r =? Ignore) || (r =? PositionalMiss) = false →
  sdpf_override (Mods (diff (player s0))) r cr = true →
  SendResult set time c src x y r cr = Some set' →
  (0 < Z.land r BaseHitsM → sdpf_result r = Miss)
  ∧ (Z.land r BaseHitsM <= 0 → 0 < Z.land r SliderHits → sdpf_result r = SliderMiss)
  ∧ (∃ s',
       let rm := ModifyResult (scoreProcessor s0) (sdpf_result r) src in
       cursors set' !! c = Some s'
       ∧ scoreProcessor s' = AddResult (scoreProcessor s0) rm Reset
       ∧ Score_ (score s') = GetScore (scoreProcessor s')
       ∧ Combo (score s')
         = Go.Max (Go.uint (GetCombo (scoreProcessor s'))) (Combo (score s0))
       ∧ numObjects s'
         = (if 0 <? Z.land rm BaseHitsM then Go.uint (numObjects s0 + 1)
            else numObjects s0)
       ∧ sdpfFail s' = true
       ∧ hp s' = hpIncrease (hp s0) (-100000) true
       ∧ (hitListener set = true →
          ∃ e, hitLog set' = hitLog set ++ [e] ∧ he_comboResult e = Reset))
  ∧ (HitResults_wf →
     SendResult set time c src x y (sdpf_result r) Reset = Some set').
Proof.
  intros Hs0 Hi Hov Hs. split_and!.
  - intros Hb%Z.ltb_lt. unfold sdpf_result. by rewrite Hb.
  - intros Hb Hsl%Z.ltb_lt. unfold sdpf_result. rewrite Hsl.
    by destruct (Z.ltb_spec 0 (Z.land r BaseHitsM)); [lia|].
  - destruct (SendResult_inv _ _ _ _ _ _ _ _ _ Hs Hi)
      as (s0' & s1 & r' & cr' & s' & Hs0' & Ha & Hs' & Hv & Hhp & _ & _ & _ & _ & _ & _ & Hlog).
    assert (s0' = s0) as -> by congruence.
    pose proof (aggregate_inv _ _ _ _ _ _ _ _ Ha) as Hinv. cbn zeta in Hinv.
    rewrite Hov in Hinv.
    destruct Hinv as (Hcr & Hsp & Hsc & Hsd & Hn & _ & _ & _ & _ & Hco & _).
    destruct Hv as (_ & Hscore & Hproc & _ & _ & _ & Hnum & _ & _ & Hsd').
    exists s'. cbn zeta. rewrite Hscore, Hproc, Hnum, Hsd'.
    subst cr'. split_and!; try done; [auto|].
    intros Hl. rewrite Hl in Hlog. eexists. split; [done|done].
  - intros Hwf. rewrite <- Hs. unfold SendResult.
    rewrite Hi, (sdpf_result_kept _ Hwf Hi), Hs0. cbn [mbind option_bind].
    by rewrite (aggregate_sdpf _ _ _ _ _ Hwf Hov).
Qed.

(** ** Sessions record results *)

Lemma evolving_refl set : evolving 0 set set.
Proof.
  intros c s Hs. exists s, []. split_and!; [done| |done].
  apply recorded_same, same_scoring_refl.
Qed.

Lemma evolving_trans n m set1 set2 set3 :
  evolving n set1 set2 → evolving m set2 set3 → evolving (n + m) set1 set3.
Proof.
  intros H12 H23 c s Hs.
  destruct (H12 c s Hs) as (s2 & l2 & Hs2 & Hr2 & Hn2).
  destruct (H23 c s2 Hs2) as (s3 & l3 & Hs3 & Hr3 & Hn3).
  exists s3, (l2 ++ l3). split_and!; [done|by eapply recorded_trans|].
  rewrite length_app. lia.
Qed.

Lemma evolving_le n m set set' : (n ≤ m)%nat → evolving n set set' → evolving m set set'.
Proof.
  intros Hnm He c s Hs. destruct (He c s Hs) as (s' & l & ? & ? & ?).
  exists s', l. split_and!; [done|done|lia].
Qed.

Lemma evolving_frame set set' : scoring_frame set set' → evolving 0 set set'.
Proof.
  intros Hf c s Hs. destruct (Hf c s Hs) as (s' & Hs' & Hv & _).
  exists s', []. split_and!; [done|by apply recorded_same|done].
Qed.

Lemma evolving_cursors set set' :
  cursors set' = cursors set → evolving 0 set set'.
Proof.
  intros Hc c s Hs. exists s, []. rewrite Hc.
  split_and!; [done|apply recorded_same, same_scoring_refl|done].
Qed.

Lemma SendResult_evolving set time c (src : Obj) x y r cr set' :
  SendResult set time c src x y r cr = Some set' → evolving 1 set set'.
Proof.
  intros Hs. destruct ((r =? Ignore) || (r =? PositionalMiss)) eqn:Hi.
  - apply (evolving_le 0); [lia|]. apply evolving_cursors.
    unfold SendResult in Hs. rewrite Hi in Hs.
    destruct ((r =? PositionalMiss) && hitListener set); [|by simplify_eq].
    destruct (cursors set !! c) as [s|]; [|done]. simpl in Hs.
    by destruct (negb _); simplify_eq.
  - destruct (SendResult_inv _ _ _ _ _ _ _ _ _ Hs Hi)
      as (s0 & s1 & r' & cr' & s' & Hs0 & Ha & Hs' & Hv & _ & Hk & _).
    intros k sk Hsk. destruct (decide (k = c)) as [->|Hne].
    + assert (sk = s0) as -> by congruence.
      exists s', ([recorded_result s0 src r cr] ++ []).
      split_and!; [done| |done].
      eapply recorded_trans; [by eapply recorded_aggregate|by apply recorded_same].
    + destruct (Hk k sk Hne Hsk) as (sk' & Hsk' & Hvk).
      exists sk', []. split_and!; [done|by apply recorded_same|simpl; lia].
Qed.

Lemma send_all_evolving (js : list (Judgement Obj)) set set' :
  send_all set js = Some set' → evolving (length js) set set'.
Proof.
  revert set. induction js as [|j js IH]; intros set; simpl.
  - intros [= <-]. apply evolving_refl.
  - intros Hs. destruct (SendResult _ _ _ _ _ _ _ _) as [set1|] eqn:H1; [|done].
    simpl in Hs. apply (evolving_trans 1 (length js) _ set1).
    + by eapply SendResult_evolving.
    + by apply IH.
Qed.

Lemma post_loop_evolving time (rest kept : list Obj) set set' :
  post_loop time kept rest set = Some set' →
  evolving (sum_list ((λ g, length (UpdatePost g time).1.2) <$> rest)) set set'.
Proof.
  revert kept set. induction rest as [|g rest IH]; intros kept set; simpl.
  - intros [= <-]. by apply evolving_cursors.
  - destruct (UpdatePost g time) as [[g1 calls] isDone]. simpl.
    intros Hp. destruct (send_all _ calls) as [set1|] eqn:H1; [|done].
    simpl in Hp. apply send_all_evolving in H1.
    assert (evolving (length calls) set set1) as Hm.
    { apply (evolving_trans 0 (length calls) _ _ _ (evolving_cursors _ _ eq_refl) H1). }
    destruct isDone.
    + apply IH in Hp. eapply evolving_trans; [done|].
      destruct (endListener set1); [|done].
      apply (evolving_trans 0 _ _ _ _ (evolving_cursors _ _ eq_refl) Hp).
    + apply IH in Hp. by eapply evolving_trans.
Qed.

Lemma evolving_store set c s s' :
  cursors set !! c = Some s → same_scoring s s' → evolving 0 set (store set c s').
Proof.
  intros Hs Hv k sk Hk. rewrite lookup_store. case_decide; subst.
  - assert (sk = s) as -> by congruence.
    exists s', []. split_and!; [done|by apply recorded_same|done].
  - exists sk, []. split_and!; [done|apply recorded_same, same_scoring_refl|done].
Qed.

Lemma hp_tick_evolving time set c set' :
  hp_tick time set c = Some set' → evolving 0 set set'.
Proof.
  unfold hp_tick. intros Ht.
  destruct (cursors set !! c) as [s|] eqn:Hs; [|done]. simpl in Ht.
  apply failEvent_frame in Ht as [Hf _].
  apply (evolving_trans 0 0 _ (store set c (set_hp s (hpUpdate (hp s) time)))).
  - by eapply evolving_store.
  - by apply evolving_frame.
Qed.

Lemma hp_ticks_evolving time (cs : list nat) set set' :
  hp_ticks time set cs = Some set' → evolving 0 set set'.
Proof.
  revert set. induction cs as [|c cs IH]; intros set; simpl.
  - intros [= <-]. apply evolving_refl.
  - intros Ht. destruct (hp_tick time set c) as [set1|] eqn:H1; [|done].
    simpl in Ht. apply (evolving_trans 0 0 _ set1).
    + by eapply hp_tick_evolving.
    + by apply IH.
Qed.

Lemma Update_evolving set time set' :
  Update set time = Some set' →
  evolving (judgements set (CallUpdate time)) set set'.
Proof.
  unfold Update. intros Hu. simpl.
  destruct (post_loop _ _ _ _) as [set1|] eqn:H1; [|done]. simpl in Hu.
  destruct (activate _ _ _) as [q p].
  destruct (hp_ticks _ _ _) as [set3|] eqn:H3; [|done]. simpl in Hu.
  apply post_loop_evolving in H1. apply hp_ticks_evolving in H3.
  set (n := sum_list _) in *.
  assert (evolving n set set3) as Hm.
  { replace n with (n + (0 + 0))%nat by lia.
    eapply evolving_trans; [done|].
    eapply evolving_trans; [|done]. by apply evolving_cursors. }
  destruct (_ && _); simplify_eq; [|done].
  replace n with (n + 0)%nat by lia.
  eapply evolving_trans; [done|]. by apply evolving_cursors.
Qed.

Lemma PlayerStopped_evolving set c time set' :
  PlayerStopped set c time = Some set' → evolving 0 set set'.
Proof.
  unfold PlayerStopped. intros Hp.
  destruct (index _ _) as [lastObj|]; [|done]. simpl in Hp.
  destruct (time <? _); [|simplify_eq; apply evolving_refl].
  destruct (cursors set !! c) as [s|] eqn:Hs; [|done]. simpl in Hp.
  apply failEvent_frame in Hp as [Hf _].
  eapply (evolving_trans 0 0); [|by apply evolving_frame].
  by eapply evolving_store.
Qed.

Lemma step_evolving set (call : Call) set' :
  step set call = Some set' → evolving (judgements set call) set set'.
Proof.
  destruct call as [t k src x y r cr|t|k t|k|f|l|l|l]; simpl.
  - apply SendResult_evolving.
  - apply Update_evolving.
  - apply PlayerStopped_evolving.
  - intros Hf. destruct (cursors set !! k) as [s|]; [|done].
    apply failInternal_frame in Hf as [Hf _]. by apply evolving_frame.
  - intros [= <-]. by apply evolving_cursors.
  - intros [= <-]. by apply evolving_cursors.
  - intros [= <-]. by apply evolving_cursors.
  - intros [= <-]. by apply evolving_cursors.
Qed.

Lemma run_evolving (calls : list Call) set set' :
  run set calls = Some set' → evolving (run_judgements set calls) set set'.
Proof.
  revert set. induction calls as [|call calls IH]; intros set; simpl.
  - intros [= <-]. apply evolving_refl.
  - intros Hr. destruct (step set call) as [set1|] eqn:H1; [|done].
    simpl in Hr. eapply evolving_trans; [by eapply step_evolving|by apply IH].
Qed.

(** ** The initial state *)

Lemma new_players_fresh (beatMap : BeatMap) (cs : list Cursor) (ms : list Modifier)
  (ps ps' : list difficultyPlayer) (od od' : gmap Z (list Attributes))
  (m m' : gmap nat subSet) :
  new_players beatMap cs ms (ps, od, m) = Some (ps', od', m') →
  (∀ c s, m !! c = Some s → fresh s) →
  ∀ c s, m' !! c = Some s → fresh s.
Proof.
  revert ms ps od m. induction cs as [|cur cs IH]; intros ms ps od m;
    cbn [new_players].
  - intros [= <- <- <-]. done.
  - destruct ms as [|mod_ ms]; [done|].
    unfold new_player at 1.
    destruct (od !! GetDiffMaskedMods mod_) as [l|].
    + cbn [mbind option_bind]. intros Hn Hm. eapply IH; [exact Hn|].
      intros c s. rewrite lookup_insert. case_decide; [|by apply Hm].
      intros [= <-]. by repeat split.
    + cbn [mbind option_bind].
      destruct (index _ _) as [star|]; [|done].
      cbn [mbind option_bind]. intros Hn Hm. eapply IH; [exact Hn|].
      intros c s. rewrite lookup_insert. case_decide; [|by apply Hm].
      intros [= <-]. by repeat split.
Qed.

Lemma NewOsuRuleset_fresh (beatMap : BeatMap) (cs : list Cursor) (ms : list Modifier)
  set c s :
  NewOsuRuleset beatMap cs ms = Some set → cursors set !! c = Some s → fresh s.
Proof.
  unfold NewOsuRuleset. intros Hn.
  destruct (new_players _ _ _ _) as [[[ps od] m]|] eqn:Hp; [|done].
  cbn [mbind option_bind] in Hn. injection Hn as <-. simpl.
  eapply new_players_fresh; [exact Hp|]. intros k sk. by rewrite lookup_empty.
Qed.

(** ** The max combo *)

Lemma recorded_combo (l : list HitResult) s s' :
  recorded l s s' →
  Combo (score s) <= Combo (score s')
  ∧ (Go.uint (GetCombo (scoreProcessor s)) <= Combo (score s) →
     Go.uint (GetCombo (scoreProcessor s')) <= Combo (score s')).
Proof.
  induction 1 as [s s' Hv|set s0 src r cr s1 r' cr' Ha|l1 l2 s1 s2 s3 _ IH1 _ IH2].
  - destruct Hv as (_ & -> & -> & _). lia.
  - apply aggregate_inv in Ha. cbn zeta in Ha.
    destruct Ha as (_ & _ & _ & _ & _ & _ & _ & _ & _ & -> & _).
    rewrite Max_spec. lia.
  - lia.
Qed.

(** C3.  Over any session, for every player: the published max combo never
    decreases, and it stays at or above the current combo of the score
    processor (read as [uint], as line 601 does) once it is. *)
Theorem max_combo_invariant set (calls : list Call) set' c s :
  run set calls = Some set' →
  cursors set !! c = Some s →
  Go.uint (GetCombo (scoreProcessor s)) <= Combo (score s) →
  ∃ s', cursors set' !! c = Some s'
    ∧ Go.uint (GetCombo (scoreProcessor s')) <= Combo (score s')
    ∧ Combo (score s) <= Combo (score s').
Proof.
  intros Hr Hs Hc.
  destruct (run_evolving _ _ _ Hr c s Hs) as (s' & l & Hs' & Hrec & _).
  exists s'. destruct (recorded_combo _ _ _ Hrec). auto.
Qed.

(** ** Rounding to binary64 *)

Lemma nearest_even_exact (k : Z) (d : positive) :
  Go.nearest_even (k * Zpos d) d = k.
Proof.
  unfold Go.nearest_even.
  rewrite Z.div_mul, Z.mod_mul by lia.
  destruct (Z.ltb_spec (2 * 0) (Zpos d)); [done|lia].
Qed.

Lemma nearest_even_le (n k : Z) (d : positive) :
  n <= k * Zpos d → Go.nearest_even n d <= k.
Proof.
  intros Hn. unfold Go.nearest_even.
  pose proof (Z.div_mod n (Zpos d) ltac:(lia)) as Hdm.
  pose proof (Z.mod_pos_bound n (Zpos d) ltac:(lia)) as Hr.
  assert (n / Zpos d <= k) as Hf by (apply Z.div_le_upper_bound; lia).
  destruct (Z.ltb_spec (2 * (n mod Zpos d)) (Zpos d)); [done|].
  assert (n / Zpos d < k) by nia.
  destruct (Zpos d <? _); [lia|]. destruct (Z.even _); lia.
Qed.

Lemma nearest_even_nonneg (n : Z) (d : positive) :
  0 <= n → 0 <= Go.nearest_even n d.
Proof.
  intros Hn. unfold Go.nearest_even.
  assert (0 <= n / Zpos d) by (apply Z.div_pos; lia).
  destruct (_ <? _); [done|]. destruct (_ <? _); [lia|]. destruct (Z.even _); lia.
Qed.

(** A positive rational below [2^53] has an exponent of at most 52. *)
Lemma ilog2_small (n : Z) (d : positive) :
  0 < n → n < 2 ^ 53 * Zpos d → Go.ilog2 n d <= 52.
Proof.
  intros Hn Hlt. unfold Go.ilog2.
  pose proof (Z.log2_nonneg (Zpos d)) as Hd0.
  assert (Z.log2 n - Z.log2 (Zpos d) <= 53) as He0.
  { enough (Z.log2 n < 54 + Z.log2 (Zpos d)) by lia.
    apply Z.log2_lt_pow2; [done|].
    pose proof (Z.log2_spec (Zpos d) ltac:(lia)) as [_ Hd].
    rewrite Z.pow_add_r by lia.
    replace (Z.succ (Z.log2 (Zpos d))) with (Z.log2 (Zpos d) + 1) in Hd by lia.
    rewrite Z.pow_add_r in Hd by lia. lia. }
  generalize dependent (Z.log2 n - Z.log2 (Zpos d)). intros e He0.
  destruct (Go.Qleb _ _) eqn:Hq; [|lia].
  destruct (Z.le_gt_cases e 52) as [|Hbig]; [done|].
  exfalso. unfold Go.Qleb, Go.pow2 in Hq.
  destruct (Z.leb_spec 0 e); [|lia].
  apply Z.leb_le in Hq. cbn [Qnum Qden inject_Z] in Hq.
  assert (e = 53) as -> by lia. lia.
Qed.

Lemma round64_pos_small (n : Z) (d : positive) :
  0 < n → n < 2 ^ 53 * Zpos d →
  ∃ k, 0 <= k
       ∧ Go.round64_pos n d = Go.nearest_even (n * 2 ^ k) d # Z.to_pos (2 ^ k).
Proof.
  intros Hn Hlt. pose proof (ilog2_small n d Hn Hlt) as He.
  unfold Go.round64_pos.
  destruct (Z.ltb_spec 0 (Z.max (Go.ilog2 n d) (-1022) - 52)); [lia|].
  eexists. split; [|reflexivity]. lia.
Qed.

Lemma round64_pos_nonneg (n : Z) (d : positive) :
  0 < n → (0 <= Go.round64_pos n d)%Q.
Proof.
  intros Hn. unfold Go.round64_pos.
  generalize (Z.max (Go.ilog2 n d) (-1022) - 52). intros c.
  destruct (0 <? c).
  - change 0%Q with (inject_Z 0). rewrite <- Zle_Qle.
    apply Z.mul_nonneg_nonneg; [apply nearest_even_nonneg; lia|].
    apply Z.pow_nonneg. lia.
  - assert (0 <= 2 ^ (- c)) as Hp by (apply Z.pow_nonneg; lia).
    pose proof (nearest_even_nonneg (n * 2 ^ (- c)) d ltac:(nia)).
    unfold Qle. cbn [Qnum Qden]. lia.
Qed.

Lemma round64_pos_le (n m : Z) (d : positive) :
  0 < n → n <= m * Zpos d → m < 2 ^ 53 →
  (Go.round64_pos n d <= inject_Z m)%Q.
Proof.
  intros Hn Hle Hm.
  destruct (round64_pos_small n d Hn ltac:(nia)) as (k & Hk & ->).
  assert (0 < 2 ^ k) as Hp by (apply Z.pow_pos_nonneg; lia).
  unfold Qle. cbn. rewrite Z2Pos.id by done.
  pose proof (nearest_even_le (n * 2 ^ k) (m * 2 ^ k) d ltac:(nia)). lia.
Qed.

Lemma round64_pos_exact (z : Z) (d : positive) :
  0 < z < 2 ^ 53 → (Go.round64_pos (z * Zpos d) d == inject_Z z)%Q.
Proof.
  intros Hz.
  destruct (round64_pos_small (z * Zpos d) d ltac:(nia) ltac:(nia)) as (k & Hk & ->).
  assert (0 < 2 ^ k) as Hp by (apply Z.pow_pos_nonneg; lia).
  replace (z * Zpos d * 2 ^ k) with (z * 2 ^ k * Zpos d) by lia.
  rewrite nearest_even_exact.
  unfold Qeq. cbn. rewrite Z2Pos.id by done. lia.
Qed.

Lemma round64_nonneg (q : Q) : (0 <= q)%Q → (0 <= Go.round64 q)%Q.
Proof.
  intros Hq. unfold Go.round64. rewrite Qred_correct.
  destruct q as [[|n|n] d]; cbn [Qnum Qden].
  - done.
  - by apply round64_pos_nonneg.
  - unfold Qle in Hq. cbn in Hq. lia.
Qed.

Lemma round64_le_int (q : Q) (m : Z) :
  (q <= inject_Z m)%Q → 0 <= m < 2 ^ 53 → (Go.round64 q <= inject_Z m)%Q.
Proof.
  intros Hq Hm. unfold Go.round64. rewrite Qred_correct.
  destruct q as [[|n|n] d]; cbn [Qnum Qden].
  - change 0%Q with (inject_Z 0). rewrite <- Zle_Qle. lia.
  - apply round64_pos_le; [lia| |lia].
    unfold Qle in Hq. cbn in Hq. lia.
  - pose proof (round64_pos_nonneg (Zpos n) d ltac:(lia)) as H0.
    apply Qle_trans with 0%Q.
    + apply Qopp_le_compat in H0. exact H0.
    + change 0%Q with (inject_Z 0). rewrite <- Zle_Qle. lia.
Qed.

(** The conversion of an integer of less than 54 bits is exact. *)
Lemma round64_int (q : Q) (z : Z) :
  (q == inject_Z z)%Q → 0 <= z < 2 ^ 53 → (Go.round64 q == inject_Z z)%Q.
Proof.
  intros Hq Hz. unfold Go.round64. rewrite Qred_correct.
  destruct q as [[|n|n] d]; unfold Qeq in Hq; cbn in Hq; cbn [Qnum Qden].
  - unfold Qeq. cbn. lia.
  - assert (Zpos n = z * Zpos d) as -> by lia.
    apply round64_pos_exact. nia.
  - exfalso. nia.
Qed.

Lemma float_exact (z : Z) : 0 <= z < 2 ^ 53 → (Go.float z == inject_Z z)%Q.
Proof. intros Hz. unfold Go.float. by apply round64_int. Qed.

(** ** The tallies and the accuracy *)

Lemma accuracy_in_range (raw n : Z) :
  0 < n → 0 <= raw <= 300 * n → 30000 * n < 2 ^ 53 →
  (0 <= Go.fdiv (Go.fmul 100 (Go.float raw)) (Go.float (n * 300)))%Q
  ∧ (Go.fdiv (Go.fmul 100 (Go.float raw)) (Go.float (n * 300)) <= 100)%Q.
Proof.
  intros Hn Hr Hb.
  assert (Go.fmul 100 (Go.float raw) == inject_Z (100 * raw))%Q as Hx.
  { unfold Go.fmul. apply round64_int; [|lia].
    rewrite float_exact by lia. by rewrite inject_Z_mult. }
  assert (Go.float (n * 300) == inject_Z (n * 300))%Q as Hy
    by (apply float_exact; lia).
  assert (0 < inject_Z (n * 300))%Q as Hpos.
  { change 0%Q with (inject_Z 0). rewrite <- Zlt_Qlt. lia. }
  unfold Go.fdiv. split.
  - apply round64_nonneg. rewrite Hx, Hy.
    apply Qle_shift_div_l; [done|].
    change 0%Q with (inject_Z 0). rewrite <- !inject_Z_mult, <- Zle_Qle. lia.
  - change 100%Q with (inject_Z 100). apply round64_le_int; [|lia].
    rewrite Hx, Hy. apply Qle_shift_div_r; [done|].
    rewrite <- !inject_Z_mult, <- Zle_Qle. lia.
Qed.

Lemma judged_app (l1 l2 : list HitResult) : judged (l1 ++ l2) = judged l1 + judged l2.
Proof. unfold judged. rewrite filter_app, length_app. lia. Qed.

Lemma top_tier_app (l1 l2 : list HitResult) :
  top_tier (l1 ++ l2) = top_tier l1 + top_tier l2.
Proof. unfold top_tier. rewrite filter_app, length_app. lia. Qed.

Lemma judged_one (r : HitResult) : judged [r] = if is_base r then 1 else 0.
Proof.
  unfold judged. rewrite filter_cons, filter_nil.
  destruct (is_base r); by case_decide.
Qed.

Lemma top_tier_one (r : HitResult) : top_tier [r] = if is_top r then 1 else 0.
Proof.
  unfold top_tier. rewrite filter_cons, filter_nil.
  destruct (is_top r); by case_decide.
Qed.

Lemma recorded_tally (l : list HitResult) s s' :
  ScoreValue_bounded →
  recorded l s s' →
  ∀ n, tally_ok n s → 30000 * (n + Z.of_nat (length l)) < 2 ^ 53 →
       tally_ok (n + Z.of_nat (length l)) s'
       ∧ numObjects s' = numObjects s + judged l.
Proof.
  intros Hsv.
  induction 1 as [s s' Hv|set s0 src r cr s1 r' cr' Ha|l1 l2 s1 s2 s3 _ IH1 _ IH2];
    intros n Hok Hn.
  - destruct Hv as (_ & Hsc & _ & Hraw & _ & _ & Hnum & _).
    unfold tally_ok. rewrite Hsc, Hraw, Hnum. simpl.
    unfold tally_ok in Hok. split; [|unfold judged; simpl; lia].
    split_and!; try tauto; lia.
  - apply aggregate_inv in Ha. cbn zeta in Ha.
    destruct Ha as (_ & _ & _ & _ & Hnum & Hraw & _ & _ & _ & _ & Hacc & _).
    fold (recorded_result s0 src r cr) in Hnum, Hraw.
    destruct Hok as (Hn0 & Hr0 & _ & _ & _).
    cbn [length] in *. rewrite judged_one. unfold is_base.
    destruct (Z.ltb_spec 0 (Z.land (recorded_result s0 src r cr) BaseHitsM)) as [Hb|Hb].
    + specialize (Hsv _ Hb).
      rewrite uint_id in Hnum by lia. rewrite int64_id in Hraw by lia.
      split; [|lia]. unfold tally_ok. rewrite Hacc, Hnum, Hraw.
      destruct (Z.eqb_spec (numObjects s0 + 1) 0) as [?|_]; [lia|].
      rewrite uint_id by lia.
      destruct (accuracy_in_range (rawScore s0 + ScoreValue (recorded_result s0 src r cr))
                  (numObjects s0 + 1)); [lia..|].
      split_and!; try done; lia.
    + split; [|lia]. unfold tally_ok. rewrite Hacc, Hnum, Hraw.
      destruct (Z.eqb_spec (numObjects s0) 0) as [Hz|Hz].
      * split_and!; try done; lia.
      * rewrite uint_id by lia.
        destruct (accuracy_in_range (rawScore s0) (numObjects s0)); [lia..|].
        split_and!; try done; lia.
  - rewrite length_app, Nat2Z.inj_add in *.
    destruct (IH1 n Hok) as [Hok2 Hn2]; [lia|].
    destruct (IH2 _ Hok2) as [Hok3 Hn3]; [lia|].
    rewrite judged_app. split; [|lia].
    by rewrite Z.add_assoc.
Qed.

Lemma fresh_tally_ok s : fresh s → tally_ok 0 s.
Proof.
  intros (Hn & Hr & Ha & _). unfold tally_ok. rewrite Hn, Hr, Ha.
  split_and!; try done.
Qed.

(** C2.  In a session that starts from the state built by [NewOsuRuleset],
    as long as the numbers of line 606 are converted to float64 without
    rounding (fewer than 2^53 / 30000 calls of [SendResult], about
    3 * 10^11, which also keeps the counters clear of the 64-bit overflow)
    and base results are worth 0 to 300 points: the sub-set of every
    player is still there, its tally [numObjects] is the number of base
    results recorded for it, its published accuracy, the binary64 value of
    line 606, lies in [0, 100], and the accuracy is 100 when no base
    result has been recorded (the initial state included). *)
Theorem accuracy_range (beatMap : BeatMap) (cs : list Cursor) (ms : list Modifier)
  set0 (calls : list Call) set c s0 :
  NewOsuRuleset beatMap cs ms = Some set0 →
  run set0 calls = Some set →
  ScoreValue_bounded →
  30000 * Z.of_nat (run_judgements set0 calls) < 2 ^ 53 →
  cursors set0 !! c = Some s0 →
  ∃ s l,
    cursors set !! c = Some s
    ∧ recorded l s0 s
    ∧ numObjects s = judged l
    ∧ (0 <= Accuracy (score s))%Q ∧ (Accuracy (score s) <= 100)%Q
    ∧ (judged l = 0 → Accuracy (score s) = 100%Q).
Proof.
  intros Hnew Hrun Hsv Hb Hs0.
  destruct (run_evolving _ _ _ Hrun c s0 Hs0) as (s & l & Hs & Hrec & Hl).
  pose proof (NewOsuRuleset_fresh _ _ _ _ _ _ Hnew Hs0) as Hf.
  destruct (recorded_tally _ _ _ Hsv Hrec 0 (fresh_tally_ok _ Hf)) as [Hok Hn]; [lia|].
  destruct Hf as (Hn0 & _). rewrite Hn0 in Hn.
  destruct Hok as (_ & _ & H0 & H100 & Hz).
  exists s, l.
  split_and!; [done|done|lia|done|done|intros Hj; apply Hz; lia].
Qed.

(** ** The grade *)

Lemma grade_ladder_top mods k300 k50 km n :
  (grade_ladder mods k300 k50 km n = Grade.SS
   ∨ grade_ladder mods k300 k50 km n = Grade.SSH) ↔ k300 = n.
Proof.
  unfold grade_ladder. destruct (Z.eqb_spec k300 n) as [Heq|Hne].
  - split; [done|]. intros _. destruct (0 <? _); auto.
  - split; [|done].
    repeat match goal with |- context [if ?b then _ else _] => destruct b end;
      intros [?|?]; done.
Qed.

Lemma grade_ladder_variant mods k300 k50 km n :
  let g := grade_ladder mods k300 k50 km n in
  (0 < Z.land mods (Z.lor Hidden Flashlight) → g ≠ Grade.SS ∧ g ≠ Grade.S)
  ∧ (Z.land mods (Z.lor Hidden Flashlight) <= 0 → g ≠ Grade.SSH ∧ g ≠ Grade.SH).
Proof.
  cbn zeta. unfold grade_ladder.
  destruct (Z.ltb_spec 0 (Z.land mods (Z.lor Hidden Flashlight))).
  - split; [|lia]. intros _.
    repeat match goal with |- context [if ?b then _ else _] => destruct b end; done.
  - split; [lia|]. intros _.
    repeat match goal with |- context [if ?b then _ else _] => destruct b end; done.
Qed.

(** The ladder compares rounded numbers: with 90000000000000001 top-tier
    results among 10^17 the quotient rounds to the float64 value of 0.9,
    which is not above it, and the grade is [A], not [S]. *)
Lemma grade_ladder_rounded :
  grade_ladder 0 90000000000000001 0 0 (10 ^ 17) = Grade.A
  ∧ Go.fgt 90000000000000001 (10 ^ 17) 9 10 = false
  ∧ 9 * 10 ^ 17 < 90000000000000001 * 10.
Proof. split_and!; [by vm_compute|by vm_compute|lia]. Qed.

Lemma top_le_judged (l : list HitResult) : 0 <= top_tier l <= judged l.
Proof.
  split; [unfold top_tier; lia|].
  induction l as [|r l IH]; [done|].
  change (r :: l) with ([r] ++ l).
  rewrite top_tier_app, judged_app, top_tier_one, judged_one.
  unfold is_top, is_base.
  destruct (0 <? Z.land r BaseHitsM); simpl; [|lia].
  destruct (_ =? Hit300); lia.
Qed.

Lemma all_top_iff (l : list HitResult) :
  top_tier l = judged l
  ↔ Forall (λ r, 0 < Z.land r BaseHitsM → Z.land r BaseHitsM = Hit300) l.
Proof.
  induction l as [|r l IH].
  - split; [constructor|done].
  - change (r :: l) with ([r] ++ l).
    rewrite top_tier_app, judged_app, top_tier_one, judged_one, Forall_app, Forall_singleton.
    pose proof (top_le_judged l) as Hle.
    unfold is_top, is_base.
    destruct (Z.ltb_spec 0 (Z.land r BaseHitsM)) as [Hb|Hb]; simpl.
    + destruct (Z.eqb_spec (Z.land r BaseHitsM) Hit300) as [He|He].
      * rewrite <- IH. split; [intros; split; [done|lia]|intros [_ ?]; lia].
      * split; [lia|]. intros [Hr _]. by specialize (Hr Hb).
    + rewrite <- IH. split; [intros; split; [lia|lia]|intros [_ ?]; lia].
Qed.

Lemma recorded_counts (l : list HitResult) s s' :
  recorded l s s' →
  ∀ n, 0 <= Count300 (score s) <= numObjects s → numObjects s <= n →
       n + Z.of_nat (length l) < 2 ^ 64 →
       (0 <= Count300 (score s') <= numObjects s'
        ∧ numObjects s' <= n + Z.of_nat (length l))
       ∧ numObjects s' = numObjects s + judged l
       ∧ Count300 (score s') = Count300 (score s) + top_tier l.
Proof.
  induction 1 as [s s' Hv|set s0 src r cr s1 r' cr' Ha|l1 l2 s1 s2 s3 _ IH1 _ IH2];
    intros n Hc Hn Hb.
  - destruct Hv as (_ & -> & _ & _ & _ & _ & -> & _).
    unfold judged, top_tier. simpl. lia.
  - apply aggregate_inv in Ha. cbn zeta in Ha.
    destruct Ha as (_ & _ & _ & _ & Hnum & _ & H300 & _).
    fold (recorded_result s0 src r cr) in Hnum, H300.
    cbn [length] in *. rewrite judged_one, top_tier_one. unfold is_base, is_top.
    destruct (Z.ltb_spec 0 (Z.land (recorded_result s0 src r cr) BaseHitsM)) as [Hb'|Hb'];
      simpl in *.
    + rewrite uint_id in Hnum by lia.
      destruct (_ =? Hit300); [rewrite uint_id in H300 by lia|]; lia.
    + lia.
  - rewrite length_app, Nat2Z.inj_add in *.
    destruct (IH1 n Hc Hn) as ([Hc2 Hn2] & Hj2 & Ht2); [lia|].
    destruct (IH2 _ Hc2 Hn2) as ([Hc3 Hn3] & Hj3 & Ht3); [lia|].
    rewrite judged_app, top_tier_app. lia.
Qed.

Lemma recorded_graded (l : list HitResult) s s' :
  recorded l s s' → l ≠ [] ∨ graded s → graded s'.
Proof.
  induction 1 as [s s' Hv|set s0 src r cr s1 r' cr' Ha|l1 l2 s1 s2 s3 _ IH1 _ IH2].
  - intros [?|Hg]; [done|]. unfold graded in *.
    destruct Hv as (-> & -> & _ & _ & _ & _ & -> & _). done.
  - intros _. unfold graded.
    destruct (aggregate_frame _ _ _ _ _ _ _ _ Ha) as (-> & _).
    apply aggregate_inv in Ha. cbn zeta in Ha.
    destruct Ha as (_ & _ & _ & _ & _ & _ & _ & _ & _ & _ & _ & Hg & _). done.
  - intros Hl. destruct l2 as [|r l2].
    + apply IH2. right. apply IH1. rewrite app_nil_r in Hl. done.
    + apply IH2. by left.
Qed.

Lemma SendResult_recorded set time c (src : Obj) x y r cr set' :
  SendResult set time c src x y r cr = Some set' →
  (r =? Ignore) || (r =? PositionalMiss) = false →
  ∃ s s',
    cursors set !! c = Some s ∧ cursors set' !! c = Some s'
    ∧ recorded [recorded_result s src r cr] s s'.
Proof.
  intros Hs Hi.
  destruct (SendResult_inv _ _ _ _ _ _ _ _ _ Hs Hi)
    as (s & s1 & r' & cr' & s' & Hs0 & Ha & Hs' & Hv & _).
  exists s, s'. split_and!; [done|done|].
  change [recorded_result s src r cr] with ([recorded_result s src r cr] ++ []).
  eapply recorded_trans; [by eapply recorded_aggregate|by apply recorded_same].
Qed.

(** C8.  In a session that starts from the state built by [NewOsuRuleset]
    and stays clear of the 64-bit overflow of the counters, let [l] be the
    results recorded for a player so far, at most one for each result
    sent; the tallies [numObjects] and [Count300] count the base results
    and the top-tier ones of [l].  A call of [SendResult] for the player
    with a result that is neither [Ignore] nor [PositionalMiss] records one
    more result, and the grade published after it is the one of the
    threshold ladder of lines 609-631 on the tallies that include this
    result; it is a top grade ([SS] or [SSH]) exactly when every base
    result recorded, this one included, is [Hit300]; with Hidden or
    Flashlight it is never [SS] or [S], without them never [SSH] or
    [SH]. *)
Theorem grade_after_judgement (beatMap : BeatMap) (cs : list Cursor)
  (ms : list Modifier) set0 (calls : list Call) set c s0 time (src : Obj) x y
  r cr set' :
  NewOsuRuleset beatMap cs ms = Some set0 →
  run set0 calls = Some set →
  Z.of_nat (run_judgements set0 calls) + 1 < 2 ^ 64 →
  cursors set0 !! c = Some s0 →
  (r =? Ignore) || (r =? PositionalMiss) = false →
  SendResult set time c src x y r cr = Some set' →
  ∃ s l s',
    cursors set !! c = Some s
    ∧ recorded l s0 s
    ∧ (length l ≤ run_judgements set0 calls)%nat
    ∧ numObjects s = judged l
    ∧ Count300 (score s) = top_tier l
    ∧ cursors set' !! c = Some s'
    ∧ let l' := l ++ [recorded_result s src r cr] in
      let mods := Mods (diff (player s')) in
      let g := Grade_ (score s') in
      recorded l' s0 s'
      ∧ numObjects s' = judged l'
      ∧ Count300 (score s') = top_tier l'
      ∧ g = grade_ladder mods (Count300 (score s')) (Count50 (score s'))
              (CountMiss (score s')) (numObjects s')
      ∧ ((g = Grade.SS ∨ g = Grade.SSH)
         ↔ Forall (λ r, 0 < Z.land r BaseHitsM → Z.land r BaseHitsM = Hit300) l')
      ∧ (0 < Z.land mods (Z.lor Hidden Flashlight) → g ≠ Grade.SS ∧ g ≠ Grade.S)
      ∧ (Z.land mods (Z.lor Hidden Flashlight) <= 0 → g ≠ Grade.SSH ∧ g ≠ Grade.SH).
Proof.
  intros Hnew Hrun Hb Hs0 Hi Hsend.
  destruct (run_evolving _ _ _ Hrun c s0 Hs0) as (s & l & Hs & Hrec & Hl).
  destruct (SendResult_recorded _ _ _ _ _ _ _ _ _ Hsend Hi)
    as (s_ & s' & Hs_ & Hs' & Hrec1).
  assert (s_ = s) as -> by congruence.
  pose proof (NewOsuRuleset_fresh _ _ _ _ _ _ Hnew Hs0) as Hf.
  destruct Hf as (Hn0 & _ & _ & H300 & _).
  destruct (recorded_counts _ _ _ Hrec 0) as (_ & Hj & Ht); [lia..|].
  rewrite Hn0 in Hj. rewrite H300 in Ht.
  pose proof (recorded_trans _ _ _ _ _ Hrec Hrec1) as Hrec'.
  destruct (recorded_counts _ _ _ Hrec' 0) as (_ & Hj' & Ht');
    [lia|lia|rewrite length_app; cbn [length]; lia|].
  rewrite Hn0 in Hj'. rewrite H300 in Ht'.
  exists s, l, s'. split_and!; [done|done|done|lia|lia|done|].
  cbn zeta.
  assert (l ++ [recorded_result s src r cr] ≠ []) as Hne
    by (intros [_ ?]%app_eq_nil; done).
  pose proof (recorded_graded _ _ _ Hrec' (or_introl Hne)) as Hg.
  unfold graded in Hg.
  split_and!; [done|lia|lia|done| |rewrite Hg; apply grade_ladder_variant
              |rewrite Hg; apply grade_ladder_variant].
  rewrite Hg, grade_ladder_top, <- all_top_iff. lia.
Qed.

(** ** The perfect-combo flag *)

(** C6 (as amended).  After every recorded result the published
    perfect-combo flag tells whether the published max combo equals the
    [MaxCombo] of the step attributes at index [max(1, numObjects) - 1] for
    the masked modifiers of the player.  It is computed anew from these two
    numbers at every result; nothing latches it after a Miss. *)
Theorem SendResult_perfect_combo set time c (src : Obj) x y r cr set' :
  SendResult set time c src x y r cr = Some set' →
  (r =? Ignore) || (r =? PositionalMiss) = false →
  ∃ s' diffs d,
    cursors set' !! c = Some s'
    ∧ oppDiffs set !! GetDiffMaskedMods (Mods (diff (player s'))) = Some diffs
    ∧ index diffs (Go.Max 1 (numObjects s') - 1) = Some d
    ∧ PerfectCombo (score s') = (Go.uint (Attr_MaxCombo d) =? Combo (score s')).
Proof.
  intros Hs Hi.
  destruct (SendResult_inv _ _ _ _ _ _ _ _ _ Hs Hi)
    as (s0 & s1 & r' & cr' & s' & Hs0 & Ha & Hs' & Hv & _).
  destruct (aggregate_frame _ _ _ _ _ _ _ _ Ha) as (Hp & _).
  apply aggregate_inv in Ha. cbn zeta in Ha.
  destruct Ha as (_ & _ & _ & _ & _ & _ & _ & _ & _ & _ & _ & _ & diffs & d & Hd & Hi' & Hpc).
  destruct Hv as (Hp' & Hsc & _ & _ & _ & _ & Hn & _).
  exists s', diffs, d. rewrite Hp', Hsc, Hn, Hp. done.
Qed.

(** ** The click gate *)

Lemma Qltb_false (a b : Q) : Go.Qltb a b = false → (b <= a)%Q.
Proof. unfold Go.Qltb, Qle. intros H%Z.ltb_ge. lia. Qed.

Lemma shake_scan_false set (object : Obj) (p : difficultyPlayer) (l : list Obj) :
  shake_scan set object p l = Some false →
  Forall (λ g, IsHit g p = false →
            ∃ gObj oObj,
              index (HitObjects (beatMap set)) (GetNumber g) = Some gObj
              ∧ index (HitObjects (beatMap set)) (GetNumber object) = Some oObj
              ∧ (GetStartTime oObj
                 <= Go.fadd (GetEndTime gObj) (inject_Z Tolerance2B))%Q)
    (scanned object p l).
Proof.
  induction l as [|g l IH]; simpl; [constructor|].
  destruct (IsHit g p) eqn:Hh; simpl.
  - intros Hs. constructor; [intros ?; congruence|auto].
  - destruct (GetNumber g =? GetNumber object); simpl; [constructor|].
    destruct (index _ (GetNumber g)) as [gObj|] eqn:Hg; [|done]. simpl.
    destruct (index _ (GetNumber object)) as [oObj|] eqn:Ho; [|done]. simpl.
    destruct (Go.Qltb _ _) eqn:Hq; [done|].
    intros Hs. constructor; [|auto].
    intros _. exists gObj, oObj. split_and!; [done|done|by apply Qltb_false].
Qed.

Lemma in_range_not_ignored set time (object : Obj) (p : difficultyPlayer) :
  in_range set time object p ≠ Some Ignored.
Proof.
  unfold in_range. destruct (index _ _); simpl; [|done].
  by destruct (Go.Qleb _ _).
Qed.

(** C7 (as amended).  When [CanBeHit] answers [Click]:
    for a replay cursor (neither autoplay nor player), every unresolved
    judge that the scan of [processed] meets before the open entry of the
    clicked object has its END time plus [Tolerance2B], the float64 sum of
    line 753, at or after the START time of the clicked object; for an
    autoplay or player cursor the tolerance plays no part: the last circle
    of [processed] that starts before the clicked object is resolved, or
    the click time, as a float64, is not before its start time. *)
Theorem CanBeHit_click set time (object : Obj) (p : difficultyPlayer) :
  CanBeHit set time object p = Some Click →
  if negb (IsAutoplay (cursor p)) && negb (IsPlayer (cursor p)) then
    Forall (λ g, IsHit g p = false →
              ∃ gObj oObj,
                index (HitObjects (beatMap set)) (GetNumber g) = Some gObj
                ∧ index (HitObjects (beatMap set)) (GetNumber object) = Some oObj
                ∧ (GetStartTime oObj
                   <= Go.fadd (GetEndTime gObj) (inject_Z Tolerance2B))%Q)
      (scanned object p (processed set))
  else
    ∀ cObj lastObj lastBObj,
      index (HitObjects (beatMap set)) (GetNumber object) = Some cObj →
      last_circle set cObj (processed set) None = Some (Some (lastObj, lastBObj)) →
      IsHit lastObj p = true ∨ (GetStartTime lastBObj <= Go.float time)%Q.
Proof.
  unfold CanBeHit.
  destruct (negb (IsAutoplay (cursor p)) && negb (IsPlayer (cursor p))).
  - destruct (if isCircle object then _ else _) as [[|]|]; simpl; [done| |done].
    destruct (shake_scan set object p (processed set)) as [[|]|] eqn:Hs;
      simpl; [done| |done].
    intros _. by apply shake_scan_false.
  - intros Hc cObj lastObj lastBObj Ho Hl. rewrite Ho in Hc. simpl in Hc.
    rewrite Hl in Hc. simpl in Hc.
    destruct (IsHit lastObj p); [auto|]. simpl in Hc.
    destruct (Go.Qltb _ _) eqn:Hq; [done|]. right. by apply Qltb_false.
Qed.

(** ** The per-tick update *)

Lemma recorded_nil (l : list HitResult) s s' :
  recorded l s s' → l = [] → same_scoring s s'.
Proof.
  induction 1 as [s s' Hv|set s0 src r cr s1 r' cr' Ha|l1 l2 s1 s2 s3 _ IH1 _ IH2];
    intros Hl; [done|done|].
  apply app_eq_nil in Hl as [-> ->].
  eapply same_scoring_trans; [by apply IH1|by apply IH2].
Qed.

Lemma hp_tick_board time set c set' :
  hp_tick time set c = Some set' → board set' = board set.
Proof.
  unfold hp_tick. intros Ht.
  destruct (cursors set !! c) as [s|]; [|done]. simpl in Ht.
  apply failEvent_frame in Ht as [_ Hb]. by rewrite Hb.
Qed.

Lemma hp_ticks_board time (cs : list nat) set set' :
  hp_ticks time set cs = Some set' → board set' = board set.
Proof.
  revert set. induction cs as [|c cs IH]; intros set; simpl.
  - by intros [= <-].
  - intros Ht. destruct (hp_tick time set c) as [set1|] eqn:H1; [|done].
    simpl in Ht. rewrite (IH _ Ht). by eapply hp_tick_board.
Qed.



(** *** The sub-sets stay under the cursors of their players *)

Lemma wf_cursors_same set set' :
  cursors set' = cursors set → wf_cursors set → wf_cursors set'.
Proof. unfold wf_cursors. by intros ->. Qed.

Lemma wf_cursors_insert set set' c s s' :
  cursors set' = <[c := s']> (cursors set) →
  cursors set !! c = Some s → player s' = player s →
  wf_cursors set → wf_cursors set'.
Proof.
  unfold wf_cursors. intros -> Hs Hp Hwf.
  apply map_Forall_insert_2; [|done]. rewrite Hp. by apply (Hwf c s).
Qed.












Lemma new_players_wf (beatMap : BeatMap) (cs : list Cursor) (ms : list Modifier)
  (ps ps' : list difficultyPlayer) (od od' : gmap Z (list Attributes))
  (m m' : gmap nat subSet) :
  new_players beatMap cs ms (ps, od, m) = Some (ps', od', m') →
  map_Forall (λ k s, ptr (cursor (player s)) = k) m →
  map_Forall (λ k s, ptr (cursor (player s)) = k) m'.
Proof.
  revert ms ps od m. induction cs as [|cur cs IH]; intros ms ps od m;
    cbn [new_players].
  - by intros [= <- <- <-].
  - destruct ms as [|mod_ ms]; [done|].
    unfold new_player at 1.
    destruct (od !! GetDiffMaskedMods mod_) as [l|].
    + cbn [mbind option_bind]. intros Hn Hm. eapply IH; [exact Hn|].
      by apply map_Forall_insert_2.
    + cbn [mbind option_bind].
      destruct (index _ _) as [star|]; [|done].
      cbn [mbind option_bind]. intros Hn Hm. eapply IH; [exact Hn|].
      by apply map_Forall_insert_2.
Qed.

Lemma NewOsuRuleset_wf (beatMap : BeatMap) (cs : list Cursor) (ms : list Modifier) set :
  NewOsuRuleset beatMap cs ms = Some set → wf_cursors set.
Proof.
  unfold NewOsuRuleset. intros Hn.
  destruct (new_players _ _ _ _) as [[[ps od] m]|] eqn:Hp; [|done].
  cbn [mbind option_bind] in Hn. injection Hn as <-. unfold wf_cursors. simpl.
  eapply new_players_wf; [exact Hp|]. apply map_Forall_empty.
Qed.





End Properties.

(** * Concrete sessions *)

Section Concrete.

Import Sample.

#[local] Existing Instances results modifiers judges counters health performances.

(** The sample states are the ones the constructor builds. *)
Lemma NewOsuRuleset_sample (cur : Cursor) (mods : Modifier) :
  NewOsuRuleset (st := settings) two_objects [cur] [mods] = Some (new_set cur mods).
Proof.
  unfold NewOsuRuleset, new_players, new_player, new_set, new_subSet.
  cbn. rewrite ?Z.lor_0_r, lookup_empty. cbn.
  by destruct (0 <? Z.land mods 536870912).
Qed.

(** So are the states of the other sample sessions: the overlap once both
    objects are active, the session without players, and the session with
    the late judges. *)
Lemma overlap_set_built :
  (set0 ← NewOsuRuleset (st := settings) overlap [replay_cursor 1] [0];
   run (st := settings) set0
     [CallSetListener true; CallSetFailListener true; CallUpdate 1200])
  = Some (overlap_set (replay_cursor 1)).
Proof. by vm_compute. Qed.

Lemma no_player_set_built :
  NewOsuRuleset (st := settings) two_objects [] [] = Some no_player_set.
Proof. by vm_compute. Qed.

Lemma late_set_built :
  (set0 ← NewOsuRuleset (st := settings) (ho := late_judges) two_objects
            [player_cursor 1] [0];
   run (st := settings) (ho := late_judges) set0 [CallSetListener true])
  = Some late_set.
Proof. by vm_compute. Qed.

Lemma failed_terminal_listener_once_witness :
  ∃ set',
    run (st := settings) (listening (new_set (player_cursor 1) 0))
      [CallFail 1; CallFail 1; CallPlayerStopped 1 0] = Some set'
    ∧ ∃ s', cursors set' !! 1%nat = Some s' ∧
        (false = true → failed s' = true) ∧
        (fail_calls set' 1 ≤ 0 + 1)%nat.
Proof.
  eexists. split; [vm_compute; reflexivity|].
  eapply (failed_terminal_listener_once (st := settings)
            (listening (new_set (player_cursor 1) 0))
            [CallFail 1; CallFail 1; CallPlayerStopped 1 0] _ 1%nat
            (new_subSet (player_cursor 1) 0));
    vm_compute; reflexivity.
Defined.

Lemma failInternal_recovery_witness :
  ∃ set' s',
    failInternal (st := settings) (listening (new_set (replay_cursor 1) 2))
      (player (new_subSet (replay_cursor 1) 2)) = Some set'
    ∧ cursors set' !! 1%nat = Some s'
    ∧ recoveries s' = 1 ∧ hp s' = 200 ∧ failed s' = false ∧ failLog set' = [].
Proof.
  refine (failInternal_recovery (st := settings)
            (listening (new_set (replay_cursor 1) 2))
            (player (new_subSet (replay_cursor 1) 2))
            (new_subSet (replay_cursor 1) 2) _ _ _ _);
    vm_compute; (reflexivity || (split; congruence)).
Defined.

Lemma PlayerStopped_forced_fail_witness :
  ∃ set' s',
    PlayerStopped (st := settings) (listening (new_set (replay_cursor 1) 1)) 1 0
      = Some set'
    ∧ cursors set' !! 1%nat = Some s'
    ∧ forceFail s' = true ∧ hp s' = 0 ∧ recoveries s' = 0
    ∧ failed s' = true ∧ failLog set' = [1%nat].
Proof.
  refine (PlayerStopped_forced_fail (st := settings)
            (listening (new_set (replay_cursor 1) 1)) 1%nat 0
            (slider_at 1 1200 1800 false) (new_subSet (replay_cursor 1) 1) _ _ _ _);
    vm_compute; reflexivity.
Defined.

(** The sample hit results obey the two assumptions on the enumeration. *)
Lemma sample_ScoreValue_bounded : ScoreValue_bounded.
Proof.
  intros r Hb. cbn in Hb |- *. change (4 + 8 + 16 + 32) with 60 in Hb.
  pose proof (Z.land_assoc r (Z.lnot Additions) 60) as Hv.
  change (Z.land (Z.lnot Additions) 60) with 60 in Hv.
  rewrite Hv in Hb. clear Hv.
  generalize dependent (Z.land r (Z.lnot Additions)). intros v Hb.
  repeat match goal with
         | |- context [?x =? ?y] => destruct (Z.eqb_spec x y) as [->|_];
             [try (vm_compute in Hb; discriminate)|]
         end; cbn; lia.
Qed.

Lemma sample_HitResults_wf : HitResults_wf.
Proof. unfold HitResults_wf. cbn. split_and!; (done || lia). Qed.

Lemma max_combo_invariant_witness :
  ∃ set',
    run (st := settings) (listening (new_set (player_cursor 1) 0))
      [CallSendResult 1000 1 judge0 0 0 Hit300 Increase;
       CallSendResult 1900 1 judge1 0 0 Miss Reset] = Some set'
    ∧ ∃ s', cursors set' !! 1%nat = Some s'
        ∧ Go.uint (GetCombo (Obj := Judge) (scoreProcessor s')) <= Combo (score s')
        ∧ 0 <= Combo (score s').
Proof.
  eexists. split; [vm_compute; reflexivity|].
  refine (max_combo_invariant (st := settings)
            (listening (new_set (player_cursor 1) 0))
            [CallSendResult 1000 1 judge0 0 0 Hit300 Increase;
             CallSendResult 1900 1 judge1 0 0 Miss Reset] _ 1%nat
            (new_subSet (player_cursor 1) 0) _ _ _);
    vm_compute; (reflexivity || discriminate).
Defined.

Lemma accuracy_range_witness :
  ∃ set s,
    run (st := settings) (new_set (player_cursor 1) 0)
      session_100_miss = Some set
    ∧ cursors set !! 1%nat = Some s
    ∧ (0 <= Accuracy (score s))%Q ∧ (Accuracy (score s) <= 100)%Q.
Proof.
  assert (∃ set,
            run (st := settings) (new_set (player_cursor 1) 0)
              session_100_miss = Some set)
    as [set Hrun] by (eexists; vm_compute; reflexivity).
  destruct (accuracy_range (st := settings) two_objects [player_cursor 1] [0]
              (new_set (player_cursor 1) 0) session_100_miss set 1%nat
              (new_subSet (player_cursor 1) 0))
    as (s & l & Hs & _ & _ & H0 & H100 & _);
    [vm_compute; reflexivity | exact Hrun | exact sample_ScoreValue_bounded
    | vm_compute; reflexivity | vm_compute; reflexivity |].
  exists set, s. split; [exact Hrun|]. split; [exact Hs|]. split; [exact H0|exact H100].
Defined.

Lemma SendResult_sdpf_override_witness :
  ∃ set',
    SendResult (st := settings) (listening (new_set (replay_cursor 1) 32))
      1000 1 judge0 0 0 Hit100 Reset = Some set'
    ∧ SendResult (st := settings) (listening (new_set (replay_cursor 1) 32))
        1000 1 judge0 0 0 Miss Reset = Some set'.
Proof.
  eexists. split; [vm_compute; reflexivity|].
  refine (proj2 (proj2 (proj2
            (SendResult_sdpf_override (st := settings)
               (listening (new_set (replay_cursor 1) 32))
               1000 1%nat judge0 0 0 Hit100 Reset
               (new_subSet (replay_cursor 1) 32) _ _ _ _ _)))
            sample_HitResults_wf);
    vm_compute; reflexivity.
Defined.

Lemma grade_after_judgement_witness :
  ∃ set set' s',
    run (st := settings) (new_set (player_cursor 1) 8)
      [CallSendResult 1000 1 judge0 0 0 (@Hit300 results) Increase] = Some set
    ∧ SendResult (st := settings) set 1900 1 judge1 0 0 (@Hit100 results) Increase
      = Some set'
    ∧ cursors set' !! 1%nat = Some s'
    ∧ numObjects s' = 2 ∧ Count300 (score s') = 1
    ∧ Grade_ (score s') = Grade.D
    ∧ ¬ (Grade_ (score s') = Grade.SS ∨ Grade_ (score s') = Grade.SSH).
Proof.
  assert (∃ set set',
            run (st := settings) (new_set (player_cursor 1) 8)
              [CallSendResult 1000 1 judge0 0 0 (@Hit300 results) Increase]
            = Some set
            ∧ SendResult (st := settings) set 1900 1 judge1 0 0 (@Hit100 results)
                Increase = Some set')
    as (set & set' & Hrun & Hsend)
    by (eexists _, _; split; [vm_compute; reflexivity|]; vm_compute; reflexivity).
  destruct (grade_after_judgement (st := settings) two_objects [player_cursor 1] [8]
              (new_set (player_cursor 1) 8)
              [CallSendResult 1000 1 judge0 0 0 (@Hit300 results) Increase]
              set 1%nat (new_subSet (player_cursor 1) 8) 1900 judge1 0 0
              (@Hit100 results) Increase set')
    as (s & l & s' & Hs & _ & _ & _ & _ & Hs' & _ & _ & _ & Hg & Htop & _);
    [vm_compute; reflexivity | exact Hrun | vm_compute; reflexivity
    | vm_compute; reflexivity | vm_compute; reflexivity | exact Hsend |].
  exists set, set', s'.
  vm_compute in Hrun. injection Hrun as <-.
  vm_compute in Hsend. injection Hsend as <-.
  vm_compute in Hs'. injection Hs' as <-.
  split_and!; [reflexivity|reflexivity|reflexivity|reflexivity|reflexivity
              |rewrite Hg; vm_compute; reflexivity|].
  rewrite Hg. vm_compute. intros [?|?]; discriminate.
Defined.

(** C10, counterexample.  The replay cursor 1 with NoFail stops at time 0,
    long before the end of the map, with a fail listener registered.  When
    the fails of replays are ignored, [forceFail] is set and the health bar
    is emptied, but the listener is not called and the player has not
    failed. *)
Lemma forced_fail_ignored_for_replays :
  (set' ← PlayerStopped (st := settings_ignore)
            (listening (new_set (replay_cursor 1) 1)) 1 0;
   s' ← cursors set' !! 1%nat;
   Some (forceFail s', hp s', failed s', failLog set'))
  = Some (true, 0, false, [])
  ∧ ¬ forced_fail_reaches_listener (st := settings_ignore)
        (listening (new_set (replay_cursor 1) 1)) 1 0.
Proof.
  split; [by vm_compute|].
  intros Hclaim.
  destruct (Hclaim (slider_at 1 1200 1800 false)) as (set' & s' & Hp & _ & _ & Hn);
    [by vm_compute..|].
  vm_compute in Hp. simplify_eq.
Qed.

(** C6, counterexample.  The circle is missed, then the head of the slider
    is hit.  One object has been judged, so the flag compares the max combo
    1 with the [MaxCombo] 1 of the first object: it is true again, with one
    Miss in the tallies. *)
Lemma perfect_combo_after_miss :
  SendResult (st := settings) (listening (new_set (replay_cursor 1) 0))
    1100 1 judge0 0 0 Miss Reset = Some after_miss
  ∧ SendResult (st := settings) after_miss 1200 1 judge1 0 0 SliderStart Increase
    = Some after_slider_head
  ∧ CountMiss (score (subSet_of after_slider_head)) = 1
  ∧ Combo (score (subSet_of after_slider_head)) = 1
  ∧ PerfectCombo (score (subSet_of after_slider_head)) = true
  ∧ ¬ miss_clears_perfect_combo (st := settings) after_miss 1.
Proof.
  split_and!; [by vm_compute..|].
  intros Hclaim.
  assert (PerfectCombo (score (subSet_of after_slider_head)) = false) as Hfalse.
  { apply (Hclaim (subSet_of after_miss) 1200 judge1 0%Q 0%Q SliderStart Increase
             after_slider_head); by vm_compute. }
  vm_compute in Hfalse. discriminate.
Qed.

Lemma SendResult_perfect_combo_witness :
  ∃ set' s' diffs d,
    SendResult (st := settings) (listening (new_set (replay_cursor 1) 0))
      1100 1 judge0 0 0 Miss Reset = Some set'
    ∧ cursors set' !! 1%nat = Some s'
    ∧ oppDiffs (listening (new_set (replay_cursor 1) 0))
        !! GetDiffMaskedMods (Mods (diff (player s'))) = Some diffs
    ∧ index diffs (Go.Max 1 (numObjects s') - 1) = Some d
    ∧ PerfectCombo (score s') = (Go.uint (Attr_MaxCombo d) =? Combo (score s')).
Proof.
  assert (∃ set',
            SendResult (st := settings) (listening (new_set (replay_cursor 1) 0))
              1100 1 judge0 0 0 Miss Reset = Some set')
    as [set' Hs] by (eexists; vm_compute; reflexivity).
  destruct (SendResult_perfect_combo (st := settings)
              (listening (new_set (replay_cursor 1) 0)) 1100 1%nat judge0 0 0
              Miss Reset set' Hs)
    as (s' & diffs & d & H1 & H2 & H3 & H4); [vm_compute; reflexivity|].
  by exists set', s', diffs, d.
Defined.

(** C7, counterexample.  A replay clicks at 1500 ms on the circle that
    lies on the unresolved slider.  The slider is the first open object
    and starts 500 ms before the circle; it has not ended (2000 + 3 is not
    before 1500), so the answer is [Click]. *)
Lemma click_on_overlapped_circle :
  CanBeHit (overlap_set (replay_cursor 1)) 1500
    (circle_on_slider (replay_cursor 1))
    {| cursor := replay_cursor 1; diff := {| Mods := 0 |} |} = Some Click
  ∧ ¬ click_only_within_tolerance (overlap_set (replay_cursor 1)) 1500
        (circle_on_slider (replay_cursor 1))
        {| cursor := replay_cursor 1; diff := {| Mods := 0 |} |}.
Proof.
  split; [by vm_compute|].
  intros Hclaim.
  assert (Qabs (1500 - 1000) <= inject_Z Tolerance2B)%Q as Hfalse.
  { apply (Hclaim ltac:(by vm_compute)
             (Init (slider_at 0 1000 2000 true)
                [{| cursor := replay_cursor 1; diff := {| Mods := 0 |} |}])
             (slider_at 0 1000 2000 true) (circle_at 1 1500 false));
      by vm_compute. }
  vm_compute in Hfalse. by apply Hfalse.
Qed.

Lemma CanBeHit_click_witness :
  CanBeHit (close_call_set (replay_cursor 1)) 513
    (circle_after_slider (replay_cursor 1))
    {| cursor := replay_cursor 1; diff := {| Mods := 0 |} |} = Some Click
  ∧ Forall (λ g, IsHit g {| cursor := replay_cursor 1; diff := {| Mods := 0 |} |}
                 = false →
              ∃ gObj oObj,
                index (HitObjects close_call) (GetNumber g) = Some gObj
                ∧ index (HitObjects close_call)
                    (GetNumber (circle_after_slider (replay_cursor 1))) = Some oObj
                ∧ (GetStartTime oObj
                   <= Go.fadd (GetEndTime gObj) (inject_Z Tolerance2B))%Q)
      (scanned (circle_after_slider (replay_cursor 1))
         {| cursor := replay_cursor 1; diff := {| Mods := 0 |} |}
         (processed (close_call_set (replay_cursor 1)))).
Proof.
  split; [vm_compute; reflexivity|].
  refine (CanBeHit_click (close_call_set (replay_cursor 1)) 513
            (circle_after_slider (replay_cursor 1))
            {| cursor := replay_cursor 1; diff := {| Mods := 0 |} |} _).
  vm_compute; reflexivity.
Defined.



End Concrete.

(** * Further properties of the coordinator *)

Section Coverage.

Context {hr : HitResults} {md : Modifiers} {st : Settings}.
Context {SP HP Obj Attributes PPv2 : Type}.
Context {ho : HitObject Obj} {sp : ScoreProcessor SP Obj} {hpr : HealthProcessor HP}.
Context {pf : Performances Attributes PPv2}.

Abbreviation subSet := (@subSet SP HP PPv2).
Abbreviation OsuRuleSet := (@OsuRuleSet SP HP Obj Attributes PPv2).

Implicit Types (set : OsuRuleSet) (s : subSet) (c : nat).

(** ** grade.go *)

(** X1.  Two different grades never share a name, a texture name or a
    number: [String], [TextureName] and the numbering of the enumeration
    are injective. *)
Theorem Grade_names_distinct (g1 g2 : Grade.t) :
  g1 ≠ g2 →
  Grade.String g1 ≠ Grade.String g2
  ∧ Grade.TextureName g1 ≠ Grade.TextureName g2
  ∧ Grade.value g1 ≠ Grade.value g2.
Proof. intros Hg. destruct g1, g2; try done; by split_and!. Qed.

(** ** The constructor *)

Lemma new_players_short (beatMap : BeatMap) (cs : list Cursor) (ms : list Modifier)
  (acc : list difficultyPlayer * gmap Z (list Attributes) * gmap nat subSet) :
  (length ms < length cs)%nat → new_players beatMap cs ms acc = None.
Proof.
  revert ms acc. induction cs as [|cur cs IH]; intros ms acc Hl; simpl in *; [lia|].
  destruct ms as [|m ms]; [done|]. simpl in Hl.
  destruct (new_player beatMap cur m acc) as [acc1|]; [|done].
  cbn [mbind option_bind]. apply IH. lia.
Qed.

(** X2.  With fewer modifier sets than cursors the constructor does not
    return: the read of [mods[i]] at line 280 is out of range. *)
Theorem NewOsuRuleset_short_mods (beatMap : BeatMap) (cs : list Cursor)
  (ms : list Modifier) :
  (length ms < length cs)%nat → NewOsuRuleset beatMap cs ms = None.
Proof.
  intros Hl. unfold NewOsuRuleset. by rewrite new_players_short.
Qed.




Lemma index_Some_nonempty {X : Type} (l : list X) (i : Z) (x : X) :
  index l i = Some x → l ≠ [].
Proof.
  unfold index. destruct (i <? 0); [done|]. intros H ->. by rewrite lookup_nil in H.
Qed.

Lemma new_player_inv (beatMap : BeatMap) (cur : Cursor) (mod_ : Modifier)
  (ps ps1 : list difficultyPlayer) (od od1 : gmap Z (list Attributes))
  (m m1 : gmap nat subSet) :
  new_player beatMap cur mod_ (ps, od, m) = Some (ps1, od1, m1) →
  let p := {| cursor := cur;
              diff := {| Mods := Z.lor mod_ (Z.land (Diff_Mods beatMap) ScoreV2) |} |} in
  ps1 = ps ++ [p]
  ∧ (∃ s1, m1 = <[ptr cur := s1]> m ∧ player s1 = p ∧ untouched s1)
  ∧ (od1 = od ∧ is_Some (od !! GetDiffMaskedMods mod_)
     ∨ od !! GetDiffMaskedMods mod_ = None
       ∧ od1 = <[GetDiffMaskedMods mod_ := CalculateStep (HitObjects beatMap) (diff p)]> od
       ∧ CalculateStep (HitObjects beatMap) (diff p) ≠ []).
Proof.
  intros Hn p. unfold new_player in Hn.
  destruct (od !! GetDiffMaskedMods mod_) as [l|] eqn:Hod.
  - cbn [mbind option_bind] in Hn. injection Hn as <- <- <-.
    split_and!; [done|eexists; split_and!; [done|done|]; unfold untouched; cbn; split_and!; try done; by rewrite Z.lor_assoc, Z.lor_diag|]. left. by split.
  - cbn [mbind option_bind] in Hn.
    destruct (index _ _) as [star|] eqn:Hi; [|done].
    cbn [mbind option_bind] in Hn. injection Hn as <- <- <-.
    split_and!; [done|eexists; split_and!; [done|done|]; unfold untouched; cbn; split_and!; try done; by rewrite Z.lor_assoc, Z.lor_diag|]. right. split_and!; [done..|].
    by eapply index_Some_nonempty.
Qed.

Lemma new_players_built (beatMap : BeatMap) (cs : list Cursor) (ms : list Modifier)
  (ps ps' : list difficultyPlayer) (od od' : gmap Z (list Attributes))
  (m m' : gmap nat subSet) :
  new_players beatMap cs ms (ps, od, m) = Some (ps', od', m') →
  let mk := λ cur mod_,
    {| cursor := cur;
       diff := {| Mods := Z.lor mod_ (Z.land (Diff_Mods beatMap) ScoreV2) |} |} in
  (length cs ≤ length ms)%nat
  ∧ ps' = ps ++ zip_with mk cs ms
  ∧ (∀ k, is_Some (m' !! k) ↔ is_Some (m !! k) ∨ k ∈ ptr <$> cs)
  ∧ (∀ k s, m' !! k = Some s →
       m !! k = Some s
       ∨ (player s ∈ zip_with mk cs ms ∧ ptr (cursor (player s)) = k ∧ untouched s))
  ∧ ((∀ key v, od !! key = Some v → v ≠ []) →
     (∀ key v, od' !! key = Some v → v ≠ []))
  ∧ (∀ mod_, mod_ ∈ take (length cs) ms → is_Some (od' !! GetDiffMaskedMods mod_))
  ∧ (∀ key, is_Some (od !! key) → is_Some (od' !! key)).
Proof.
  intros Hn mk. revert ms ps od m Hn.
  induction cs as [|cur cs IH]; intros ms ps od m; cbn [new_players].
  - intros [= <- <- <-]. split_and!; [simpl; lia|by rewrite app_nil_r|..].
    + intros k. rewrite fmap_nil, elem_of_nil. tauto.
    + intros k s Hs. by left.
    + done.
    + intros mod_. simpl. by rewrite elem_of_nil.
    + done.
  - destruct ms as [|mod_ ms]; [done|].
    destruct (new_player beatMap cur mod_ (ps, od, m)) as [[[ps1 od1] m1]|] eqn:H1;
      [|done].
    cbn [mbind option_bind]. intros Hn.
    destruct (IH _ _ _ _ Hn) as (Hlen & Hps & Hdom & Hm & Hod & Hin & Hmono).
    apply new_player_inv in H1 as (-> & (s1 & -> & Hp1 & Hun) & Hod1).
    assert (∀ key, is_Some (od !! key) → is_Some (od1 !! key)) as Hmono1.
    { intros key Hk. destruct Hod1 as [[-> _]|(_ & -> & _)]; [done|].
      rewrite lookup_insert. by case_decide. }
    assert (is_Some (od1 !! GetDiffMaskedMods mod_)) as Hkey.
    { destruct Hod1 as [[-> ?]|(_ & -> & _)]; [done|].
      rewrite lookup_insert. by case_decide. }
    split_and!.
    + simpl. lia.
    + rewrite Hps, <- app_assoc. done.
    + intros k. rewrite Hdom, lookup_insert, fmap_cons, elem_of_cons.
      case_decide as Hk; [subst k|]; [by split; eauto|].
      split; [intros [?|?]; auto|intros [?|[?|?]]; auto; congruence].
    + intros k s Hs. destruct (Hm k s Hs) as [Hs0|(Hel & Hk & Hu)].
      * rewrite lookup_insert in Hs0. case_decide as Hk; [|by left].
        right. injection Hs0 as <-. subst k. rewrite Hp1. split; [|done].
        simpl. apply elem_of_cons. by left.
      * right. split; [|done]. simpl. apply elem_of_cons. by right.
    + intros Hne. apply Hod. intros key v.
      destruct Hod1 as [[-> _]|(_ & -> & Hsteps)]; [apply Hne|].
      rewrite lookup_insert. case_decide; [|apply Hne]. by intros [= <-].
    + intros mm. simpl. rewrite elem_of_cons. intros [->|Hmm]; [|by apply Hin].
      by apply Hmono.
    + intros key Hk. by apply Hmono, Hmono1.
Qed.

(** X3.  What the constructor returns: there are at least as many
    modifier sets as cursors; the queue holds one judge for every object of
    the map, in the order of the map, each initialised with all the
    players; nothing is processed, the session has not ended and no
    listener has been called; the cursors with a sub-set are exactly the
    ones passed; every sub-set is stored under the cursor of its player and
    is untouched; and the step attributes of the masked modifiers of every
    player are cached and not empty. *)
Theorem NewOsuRuleset_built (beatMap : BeatMap) (cs : list Cursor)
  (ms : list Modifier) set :
  NewOsuRuleset beatMap cs ms = Some set →
  let players :=
    zip_with
      (λ cur mod_,
         {| cursor := cur;
            diff := {| Mods := Z.lor mod_ (Z.land (Diff_Mods beatMap) ScoreV2) |} |})
      cs ms in
  (length cs ≤ length ms)%nat
  ∧ queue set = (λ obj, Init obj players) <$> HitObjects beatMap
  ∧ processed set = [] ∧ ended set = false
  ∧ (hitLog set = [] ∧ endLog set = [] ∧ failLog set = [])
  ∧ (∀ k, is_Some (cursors set !! k) ↔ k ∈ ptr <$> cs)
  ∧ (∀ k s, cursors set !! k = Some s →
       player s ∈ players ∧ ptr (cursor (player s)) = k ∧ untouched s)
  ∧ (∀ mod_, mod_ ∈ take (length cs) ms →
       ∃ steps, oppDiffs set !! GetDiffMaskedMods mod_ = Some steps ∧ steps ≠ []).
Proof.
  intros Hn players. unfold NewOsuRuleset in Hn.
  destruct (new_players _ _ _ _) as [[[ps od] m]|] eqn:Hp; [|done].
  cbn [mbind option_bind] in Hn. injection Hn as <-. simpl.
  apply new_players_built in Hp as (Hlen & -> & Hdom & Hm & Hod & Hin & _).
  split_and!; try done.
  - intros k. rewrite Hdom, lookup_empty. split; [intros [[]%is_Some_None|]|]; auto.
  - intros k s Hs. destruct (Hm k s Hs) as [Hs0|]; [|done]. by rewrite lookup_empty in Hs0.
  - intros mm Hmm. destruct (Hin mm Hmm) as [steps Hsteps]. exists steps.
    split; [done|]. eapply Hod; [|done]. intros key v. by rewrite lookup_empty.
Qed.


(** ** Results that are not recorded *)

(** X4.  A result [Ignore] or [PositionalMiss] is not recorded: the
    sub-sets, the lists of judges, the ended flag and the end and fail logs
    stay as they are.  The only effect is one call of the hit listener for
    a [PositionalMiss] of a player without Relax, with the result as it was
    sent; any other case, also for a cursor that is not registered, leaves
    the state as it is. *)
Theorem SendResult_not_recorded set time c (src : Obj) x y r cr set' :
  (r =? Ignore) || (r =? PositionalMiss) = true →
  SendResult set time c src x y r cr = Some set' →
  cursors set' = cursors set
  ∧ (queue set' = queue set ∧ processed set' = processed set ∧ ended set' = ended set)
  ∧ (endLog set' = endLog set ∧ failLog set' = failLog set)
  ∧ (hitLog set' = hitLog set
     ∨ r = PositionalMiss ∧ hitListener set = true
       ∧ ∃ s, cursors set !! c = Some s
           ∧ Active (Mods (diff (player s))) Relax = false
           ∧ hitLog set' = hitLog set ++ [hit_event s c time (GetNumber src) x y r cr])
  ∧ (r ≠ PositionalMiss → set' = set).
Proof.
  intros Hr. unfold SendResult. rewrite Hr.
  destruct (r =? PositionalMiss) eqn:Hp; cbn [andb].
  - apply Z.eqb_eq in Hp.
    destruct (hitListener set) eqn:Hl.
    + destruct (cursors set !! c) as [s|] eqn:Hs; [|done].
      cbn [mbind option_bind].
      destruct (Active _ _) eqn:Ha; cbn [negb]; intros [= <-].
      * by split_and!; auto.
      * split_and!; try done. right. split_and!; [done..|]. by exists s.
    + intros [= <-]. by split_and!; auto.
  - apply Z.eqb_neq in Hp. intros [= <-]. by split_and!; auto.
Qed.

(** ** A stop at the end of the map *)

Lemma index_last {X : Type} (l : list X) :
  index l (Z.of_nat (length l) - 1) = last l.
Proof.
  unfold index. destruct l as [|a l]; [done|].
  destruct (Z.ltb_spec (Z.of_nat (length (a :: l)) - 1) 0) as [H|H];
    [simpl in H; lia|].
  replace (Z.to_nat (Z.of_nat (length (a :: l)) - 1)) with (length l)
    by (simpl; lia).
  rewrite last_lookup. done.
Qed.

(** X5.  A stop at or after the end time of the last object minus one
    millisecond changes nothing, whoever the cursor is. *)
Theorem PlayerStopped_at_end set c time (lastObj : IHitObject) :
  last (HitObjects (beatMap set)) = Some lastObj →
  Go.int64 (Go.trunc (GetEndTime lastObj) - 1) <= time →
  PlayerStopped set c time = Some set.
Proof.
  intros Hl Ht. unfold PlayerStopped. rewrite index_last, Hl.
  cbn [mbind option_bind].
  by destruct (Z.ltb_spec time (Go.int64 (Go.trunc (GetEndTime lastObj) - 1))); [lia|].
Qed.

(** ** The click gate *)

Lemma Qleb_false (a b : Q) : Go.Qleb a b = false → (b < a)%Q.
Proof. unfold Go.Qleb, Qlt. intros H%Z.leb_gt. lia. Qed.

Lemma in_range_click set time (object : Obj) (p : difficultyPlayer) :
  in_range set time object p = Some Click →
  ∃ oObj,
    index (HitObjects (beatMap set)) (GetNumber object) = Some oObj
    ∧ (Qabs (Go.float (Go.int64 (time - Go.trunc (GetStartTime oObj))))
       < (if CheckModActive (diff p) Relax2 then HittableRange - 200
          else HittableRange))%Q.
Proof.
  unfold in_range.
  destruct (index _ _) as [oObj|]; [|done]. cbn [mbind option_bind].
  destruct (Go.Qleb _ _) eqn:Hq; [done|]. intros _.
  exists oObj. split; [done|]. by apply Qleb_false.
Qed.

Lemma CanBeHit_in_range set time (object : Obj) (p : difficultyPlayer) :
  CanBeHit set time object p = Some Click →
  in_range set time object p = Some Click.
Proof.
  unfold CanBeHit.
  destruct (negb (IsAutoplay (cursor p)) && negb (IsPlayer (cursor p))).
  - destruct (if isCircle object then _ else _) as [[|]|]; [done| |done].
    cbn [mbind option_bind].
    destruct (shake_scan _ _ _ _) as [[|]|]; try done.
  - destruct (index _ _) as [cObj|]; [|done]. cbn [mbind option_bind].
    destruct (last_circle _ _ _ _) as [[[lastObj lastBObj]|]|]; try done.
    cbn [mbind option_bind]. by destruct (_ && _).
Qed.

(** X6.  [CanBeHit] answers [Click] only for an object of the map and
    inside its hit window: the distance between the click and the start
    time of the object, truncated to milliseconds, is below
    [HittableRange], or below [HittableRange - 200] with Relax2. *)
Theorem CanBeHit_click_window set time (object : Obj) (p : difficultyPlayer) :
  CanBeHit set time object p = Some Click →
  ∃ oObj,
    index (HitObjects (beatMap set)) (GetNumber object) = Some oObj
    ∧ (Qabs (Go.float (Go.int64 (time - Go.trunc (GetStartTime oObj))))
       < (if CheckModActive (diff p) Relax2 then HittableRange - 200
          else HittableRange))%Q.
Proof. intros H. by apply in_range_click, CanBeHit_in_range. Qed.

Lemma last_index_spec (object : Obj) (l : list Obj) (i idx : Z) :
  last_index object l i idx = idx
  ∧ Forall (λ g, sameObject g object = false) l
  ∨ ∃ k g, l !! k = Some g ∧ sameObject g object = true
      ∧ last_index object l i idx = i + Z.of_nat k
      ∧ ∀ j g', (k < j)%nat → l !! j = Some g' → sameObject g' object = false.
Proof.
  revert i idx. induction l as [|g l IH]; intros i idx; simpl.
  - left. by split.
  - destruct (IH (i + 1) (if sameObject g object then i else idx))
      as [[Hi Hall]|(k & g' & Hk & Hs & Hi & Hlater)].
    + destruct (sameObject g object) eqn:Hg.
      * right. exists 0%nat, g. split_and!; [done|done|lia|].
        intros j g'' Hj Hl. destruct j as [|j]; [lia|]. simpl in Hl.
        by eapply Forall_lookup_1 in Hall.
      * left. split; [done|]. by constructor.
    + right. exists (S k), g'. split_and!; [done|done|lia|].
      intros j g'' Hj Hl. destruct j as [|j]; [lia|]. simpl in Hl.
      eapply Hlater; [|done]. lia.
Qed.

(** X7.  [CanBeHit] answers [Ignored] only to a replay cursor that
    clicks a circle whose last entry in [processed] comes right after an
    object of a stack that the player has not resolved. *)
Theorem CanBeHit_ignored set time (object : Obj) (p : difficultyPlayer) :
  CanBeHit set time object p = Some Ignored →
  IsAutoplay (cursor p) = false ∧ IsPlayer (cursor p) = false
  ∧ isCircle object = true
  ∧ ∃ k g prev pObj,
      processed set !! S k = Some g ∧ sameObject g object = true
      ∧ (∀ j g', (S k < j)%nat → processed set !! j = Some g' →
           sameObject g' object = false)
      ∧ processed set !! k = Some prev
      ∧ index (HitObjects (beatMap set)) (GetNumber prev) = Some pObj
      ∧ 0 < GetStackIndex pObj (Mods (diff p))
      ∧ IsHit prev p = false.
Proof.
  unfold CanBeHit.
  destruct (IsAutoplay (cursor p)), (IsPlayer (cursor p)); cbn [negb andb].
  1-3: destruct (index _ _) as [cObj|]; [|done]; cbn [mbind option_bind];
       destruct (last_circle _ _ _ _) as [[[lastObj lastBObj]|]|]; try done;
       cbn [mbind option_bind]; [destruct (_ && _); [done|]|];
       intros H; by apply in_range_not_ignored in H.
  destruct (isCircle object) eqn:Hc.
  2:{ cbn [mbind option_bind].
      destruct (shake_scan _ _ _ _) as [[|]|]; try done.
      intros H. by apply in_range_not_ignored in H. }
  destruct (last_index_spec object (processed set) 0 (-1))
    as [[Hi _]|(k & g & Hk & Hs & Hi & Hlater)].
  { rewrite Hi. cbn [mbind option_bind Z.ltb Z.compare].
    destruct (shake_scan _ _ _ _) as [[|]|]; try done.
    intros H. by apply in_range_not_ignored in H. }
  rewrite Hi. destruct (Z.ltb_spec 0 (0 + Z.of_nat k)) as [Hpos|Hpos].
  2:{ cbn [mbind option_bind].
      destruct (shake_scan _ _ _ _) as [[|]|]; try done.
      intros H. by apply in_range_not_ignored in H. }
  destruct k as [|k]; [lia|].
  assert (index (processed set) (0 + Z.of_nat (S k) - 1) = processed set !! k) as ->.
  { unfold index. destruct (Z.ltb_spec (0 + Z.of_nat (S k) - 1) 0); [lia|].
    f_equal. lia. }
  destruct (processed set !! k) as [prev|] eqn:Hprev; [|by cbn].
  cbn [mbind option_bind].
  destruct (index _ (GetNumber prev)) as [pObj|] eqn:HpObj; [|by cbn].
  cbn [mbind option_bind].
  destruct (0 <? GetStackIndex pObj (Mods (diff p))) eqn:Hst; cbn [andb].
  2:{ destruct (shake_scan _ _ _ _) as [[|]|]; try done.
      intros H. by apply in_range_not_ignored in H. }
  destruct (IsHit prev p) eqn:Hhit; cbn [negb].
  { destruct (shake_scan _ _ _ _) as [[|]|]; try done.
    intros H. by apply in_range_not_ignored in H. }
  intros _. split_and!; try done.
  exists k, g, prev, pObj. split_and!; try done. by apply Z.ltb_lt.
Qed.





(** ** Relations kept by every call *)

Section Relation.

Context (R : OsuRuleSet → OsuRuleSet → Prop).
Hypothesis R_refl : ∀ set, R set set.
Hypothesis R_trans : ∀ set1 set2 set3, R set1 set2 → R set2 set3 → R set1 set3.
Hypothesis R_fail : ∀ set k s set',
  cursors set !! k = Some s → failInternal set (player s) = Some set' → R set set'.
Hypothesis R_hp : ∀ set k s h,
  cursors set !! k = Some s → R set (store set k (set_hp s h)).
Hypothesis R_force : ∀ set k s h,
  cursors set !! k = Some s →
  R set (store set k (set_hp (set_forceFail s true) h)).
Hypothesis R_aggregate : ∀ set k s0 (src : Obj) r cr s1 r' cr' h,
  cursors set !! k = Some s0 → aggregate set s0 src r cr = Some (s1, r', cr') →
  R set (store set k (set_hp s1 h)).
Hypothesis R_board : ∀ set set',
  cursors set' = cursors set → failLog set' = failLog set →
  beatMap set' = beatMap set → oppDiffs set' = oppDiffs set → R set set'.

Lemma failEvent_rel (fails : bool) set k s set' :
  cursors set !! k = Some s → failEvent fails set (player s) = Some set' → R set set'.
Proof.
  unfold failEvent. destruct fails; [by apply R_fail|]. intros _ [= <-]. apply R_refl.
Qed.

Lemma SendResult_rel set time c (src : Obj) x y r cr set' :
  SendResult set time c src x y r cr = Some set' → R set set'.
Proof.
  unfold SendResult. intros Hs.
  destruct ((r =? Ignore) || (r =? PositionalMiss)).
  { destruct ((r =? PositionalMiss) && hitListener set).
    - destruct (cursors set !! c) as [s|]; [|done]. simpl in Hs.
      destruct (negb _); simplify_eq; [by apply R_board|apply R_refl].
    - simplify_eq. apply R_refl. }
  destruct (cursors set !! c) as [s0|] eqn:Hs0; [|done].
  cbn [mbind option_bind] in Hs.
  destruct (aggregate set s0 src r cr) as [[[s1 r1] cr1]|] eqn:Ha; [|done].
  cbn [mbind option_bind] in Hs.
  destruct (failEvent _ _ _) as [set1|] eqn:He; [|done].
  cbn [mbind option_bind] in Hs.
  assert (R set set1) as H1.
  { eapply R_trans; [by eapply R_aggregate|].
    eapply failEvent_rel; [|exact He]. apply lookup_store_eq. }
  destruct (hitListener set1); simplify_eq; [|done].
  eapply R_trans; [done|]. by apply R_board.
Qed.

Lemma send_all_rel (js : list (Judgement Obj)) set set' :
  send_all set js = Some set' → R set set'.
Proof.
  revert set. induction js as [|j js IH]; intros set; simpl.
  - intros [= <-]. apply R_refl.
  - intros Hs. destruct (SendResult _ _ _ _ _ _ _ _) as [set1|] eqn:H1; [|done].
    simpl in Hs. eapply R_trans; [by eapply SendResult_rel|by apply IH].
Qed.

Lemma post_loop_rel time (rest kept : list Obj) set set' :
  post_loop time kept rest set = Some set' → R set set'.
Proof.
  revert kept set. induction rest as [|g rest IH]; intros kept set; simpl.
  - intros [= <-]. by apply R_board.
  - destruct (UpdatePost g time) as [[g1 calls] isDone].
    intros Hp. destruct (send_all _ calls) as [set1|] eqn:H1; [|done].
    simpl in Hp. apply send_all_rel in H1.
    assert (R set set1) as Hm.
    { eapply R_trans; [|done]. by apply R_board. }
    destruct isDone.
    + apply IH in Hp. destruct (endListener set1).
      * eapply R_trans; [done|]. eapply R_trans; [|done]. by apply R_board.
      * by eapply R_trans.
    + apply IH in Hp. by eapply R_trans.
Qed.

Lemma hp_tick_rel time set c set' :
  hp_tick time set c = Some set' → R set set'.
Proof.
  unfold hp_tick. intros Ht.
  destruct (cursors set !! c) as [s|] eqn:Hs; [|done]. simpl in Ht.
  eapply R_trans; [by eapply R_hp|].
  eapply (failEvent_rel _ _ c (set_hp s _)); [apply lookup_store_eq|exact Ht].
Qed.

Lemma hp_ticks_rel time (cs : list nat) set set' :
  hp_ticks time set cs = Some set' → R set set'.
Proof.
  revert set. induction cs as [|c cs IH]; intros set; simpl.
  - intros [= <-]. apply R_refl.
  - intros Ht. destruct (hp_tick time set c) as [set1|] eqn:H1; [|done].
    simpl in Ht. eapply R_trans; [by eapply hp_tick_rel|by apply IH].
Qed.

Lemma Update_rel set time set' :
  Update set time = Some set' → R set set'.
Proof.
  unfold Update. intros Hu.
  destruct (post_loop _ _ _ _) as [set1|] eqn:H1; [|done]. simpl in Hu.
  destruct (activate _ _ _) as [q p].
  destruct (hp_ticks _ _ _) as [set3|] eqn:H3; [|done]. simpl in Hu.
  apply post_loop_rel in H1. apply hp_ticks_rel in H3.
  assert (R set set3) as Hm.
  { eapply R_trans; [done|]. eapply R_trans; [|done]. by apply R_board. }
  destruct (_ && _); simplify_eq; [|done].
  eapply R_trans; [done|]. by apply R_board.
Qed.

Lemma PlayerStopped_rel set c time set' :
  PlayerStopped set c time = Some set' → R set set'.
Proof.
  unfold PlayerStopped. intros Hp.
  destruct (index _ _) as [lastObj|]; [|done]. simpl in Hp.
  destruct (time <? _); [|simplify_eq; apply R_refl].
  destruct (cursors set !! c) as [s|] eqn:Hs; [|done]. simpl in Hp.
  eapply R_trans; [by eapply R_force|].
  eapply (failEvent_rel _ _ c (set_hp (set_forceFail s true) _));
    [apply lookup_store_eq|exact Hp].
Qed.

Lemma step_rel set (call : Call) set' :
  step set call = Some set' → R set set'.
Proof.
  destruct call as [t k src x y r cr|t|k t|k|f|l|l|l]; simpl.
  - apply SendResult_rel.
  - apply Update_rel.
  - apply PlayerStopped_rel.
  - intros Hf. destruct (cursors set !! k) as [s|] eqn:Hs; [|done].
    by eapply R_fail.
  - intros [= <-]. by apply R_board.
  - intros [= <-]. by apply R_board.
  - intros [= <-]. by apply R_board.
  - intros [= <-]. by apply R_board.
Qed.

Lemma run_rel (calls : list Call) set set' :
  run set calls = Some set' → R set set'.
Proof.
  revert set. induction calls as [|call calls IH]; intros set; simpl.
  - intros [= <-]. apply R_refl.
  - intros Hr. destruct (step set call) as [set1|] eqn:H1; [|done].
    simpl in Hr. eapply R_trans; [by eapply step_rel|by apply IH].
Qed.

End Relation.


(** ** The guards of the fail path *)

Lemma immune_latch s s' :
  player s' = player s → (forceFail s = true → forceFail s' = true) →
  immune s' = true → immune s = true.
Proof.
  unfold immune. intros -> Hf.
  destruct (IsReplay _ && IgnoreFailsInReplays); [done|]. cbn [orb].
  destruct (forceFail s'), (forceFail s); try done. by discriminate Hf.
Qed.

Lemma fail_guard_refl c set : fail_guard c set set.
Proof.
  intros Hwf. split; [done|]. intros s Hs. exists s.
  split_and!; try done. lia.
Qed.

Lemma fail_guard_trans c set1 set2 set3 :
  fail_guard c set1 set2 → fail_guard c set2 set3 → fail_guard c set1 set3.
Proof.
  intros H12 H23 Hwf1.
  destruct (H12 Hwf1) as [Hwf2 H12']. destruct (H23 Hwf2) as [Hwf3 H23'].
  split; [done|]. intros s1 Hs1.
  destruct (H12' s1 Hs1) as (s2 & Hs2 & Hp2 & Hf2 & Hd2 & Hr2 & Hi2).
  destruct (H23' s2 Hs2) as (s3 & Hs3 & Hp3 & Hf3 & Hd3 & Hr3 & Hi3).
  exists s3. split_and!; [done|congruence|tauto|tauto|lia|].
  intros Him. destruct (Hi3 Him) as (Hfa & Hre & Hca).
  assert (immune s2 = true) as Him2 by (by eapply immune_latch).
  destruct (Hi2 Him2) as (Hfa2 & Hre2 & Hca2).
  split_and!; congruence.
Qed.

(** A change of the sub-set of one player that keeps what the guard
    watches. *)
Lemma fail_guard_insert c set set' k s s' :
  cursors set !! k = Some s → cursors set' = <[k := s']> (cursors set) →
  failLog set' = failLog set ∨ (∃ l, failLog set' = failLog set ++ l
                                    ∧ Forall (λ x, x = k) l
                                    ∧ (k = c → immune s' = false)) →
  player s' = player s →
  (forceFail s = true → forceFail s' = true) →
  (sdpfFail s = true → sdpfFail s' = true) →
  (0 <= recoveries s < 2 ^ 63 → 0 <= recoveries s' <= recoveries s) →
  (immune s' = true → failed s' = failed s ∧ recoveries s' = recoveries s) →
  fail_guard c set set'.
Proof.
  intros Hs Hc Hlog Hp Hf Hd Hr Hi Hwf. split.
  { by eapply wf_cursors_insert. }
  intros sc Hsc. rewrite Hc, lookup_insert. case_decide as Hk.
  - subst k. assert (sc = s) as -> by congruence.
    exists s'. split_and!; try done. intros Him.
    destruct (Hi Him) as (? & ?). split_and!; try done.
    unfold fail_calls. destruct Hlog as [->|(l & -> & _ & Hno)]; [done|].
    rewrite Hno in Him; done.
  - exists sc. split_and!; try done; [lia|]. intros _. split_and!; try done.
    unfold fail_calls. destruct Hlog as [->|(l & -> & Hl & _)]; [done|].
    rewrite filter_app, length_app.
    assert (filter (λ x, x = c) l = []) as ->; [|simpl; lia].
    clear -Hl Hk. induction Hl as [|x l Hx _ IH]; [done|].
    rewrite filter_cons. case_decide; [congruence|done].
Qed.

Lemma fail_guard_board c set set' :
  cursors set' = cursors set → failLog set' = failLog set →
  beatMap set' = beatMap set → oppDiffs set' = oppDiffs set → fail_guard c set set'.
Proof.
  intros Hc Hl _ _ Hwf. split; [by eapply wf_cursors_same|].
  intros s Hs. exists s. rewrite Hc. split_and!; try done; [lia|].
  intros _. split_and!; try done. unfold fail_calls. by rewrite Hl.
Qed.

Lemma fail_guard_fail c set k s set' :
  cursors set !! k = Some s → failInternal set (player s) = Some set' →
  fail_guard c set set'.
Proof.
  intros Hs Hf Hwf.
  assert (ptr (cursor (player s)) = k) as Hk by (by eapply (map_Forall_lookup_1 _ _ _ _ Hwf)).
  revert Hwf. change (fail_guard c set set').
  unfold failInternal in Hf. rewrite Hk, Hs in Hf.
  destruct (IsReplay (cursor (player s)) && IgnoreFailsInReplays) eqn:Hg1.
  { simplify_eq. apply fail_guard_refl. }
  cbn [mbind option_bind] in Hf.
  destruct (negb (forceFail s) && CheckModActive _ _) eqn:Hg2.
  { simplify_eq. apply fail_guard_refl. }
  assert (∀ s', player s' = player s → forceFail s' = forceFail s →
                immune s' = false) as Hno.
  { intros s' Hp Hff. unfold immune. by rewrite Hp, Hff, Hg1, Hg2. }
  destruct ((0 <? recoveries s) && negb (sdpfFail s) && negb (forceFail s)) eqn:Hr.
  - simplify_eq. eapply fail_guard_insert; [done|done|by left|done..| |].
    + intros Hb. simpl.
      apply andb_prop in Hr as [[Hr%Z.ltb_lt _]%andb_prop _].
      rewrite int64_id by lia. lia.
    + intros Him. rewrite Hno in Him; done.
  - assert (∃ l, failLog set' = failLog set ++ l ∧ Forall (λ x, x = k) l
                 ∧ cursors set' = <[k := set_failed s true]> (cursors set))
      as (l & Hl & Hall & Hc).
    { destruct (failListener set && negb (failed s)); simplify_eq; simpl.
      - exists [ptr (cursor (player s))]. split_and!; [done| |done].
        by repeat constructor.
      - exists []. split_and!; [by rewrite app_nil_r|done|done]. }
    eapply fail_guard_insert; [done|exact Hc| |done..| |].
    + right. exists l. split_and!; [done..|]. intros _. by apply Hno.
    + simpl. lia.
    + intros Him. rewrite Hno in Him; done.
Qed.

Lemma fail_guard_hp c set k s (h : HP) :
  cursors set !! k = Some s → fail_guard c set (store set k (set_hp s h)).
Proof.
  intros Hs. eapply fail_guard_insert; [done|done|by left|done..| |done].
  simpl. lia.
Qed.

Lemma fail_guard_force c set k s (h : HP) :
  cursors set !! k = Some s →
  fail_guard c set (store set k (set_hp (set_forceFail s true) h)).
Proof.
  intros Hs. eapply fail_guard_insert; [done|done|by left|done..| |done].
  simpl. lia.
Qed.

Lemma aggregate_sdpfFail set s0 (src : Obj) r cr s1 r' cr' :
  aggregate set s0 src r cr = Some (s1, r', cr') →
  sdpfFail s0 = true → sdpfFail s1 = true.
Proof.
  intros Ha. apply aggregate_inv in Ha. cbn zeta in Ha.
  destruct Ha as (_ & _ & _ & -> & _). by destruct (sdpf_override _ _ _).
Qed.

Lemma fail_guard_aggregate c set k s0 (src : Obj) r cr s1 r' cr' (h : HP) :
  cursors set !! k = Some s0 → aggregate set s0 src r cr = Some (s1, r', cr') →
  fail_guard c set (store set k (set_hp s1 h)).
Proof.
  intros Hs Ha.
  destruct (aggregate_frame _ _ _ _ _ _ _ _ Ha) as (Hp & _ & Hr & Hf & Hff).
  eapply fail_guard_insert; [done|done|by left|done|..].
  - simpl. by rewrite Hff.
  - simpl. by eapply aggregate_sdpfFail.
  - simpl. rewrite Hr. lia.
  - simpl. by rewrite Hr, Hf.
Qed.

Lemma run_fail_guard c (calls : list Call) set set' :
  run set calls = Some set' → fail_guard c set set'.
Proof.
  apply run_rel.
  - apply fail_guard_refl.
  - apply fail_guard_trans.
  - apply fail_guard_fail.
  - apply fail_guard_hp.
  - apply fail_guard_force.
  - intros. by eapply fail_guard_aggregate.
  - apply fail_guard_board.
Qed.

(** X8.  When the fails of replays are ignored, a replay never fails: over
    any session, forced stops included, its failed flag and its recoveries
    stay as they are and the fail listener is not called for it. *)
Theorem replay_fails_ignored set (calls : list Call) set' c s :
  IgnoreFailsInReplays = true →
  wf_cursors set →
  run set calls = Some set' →
  cursors set !! c = Some s →
  IsReplay (cursor (player s)) = true →
  ∃ s', cursors set' !! c = Some s'
    ∧ failed s' = failed s ∧ recoveries s' = recoveries s
    ∧ fail_calls set' c = fail_calls set c.
Proof.
  intros Hi Hwf Hr Hs Hre.
  destruct (run_fail_guard c _ _ _ Hr Hwf) as [_ Hg].
  destruct (Hg s Hs) as (s' & Hs' & Hp & _ & _ & _ & Him).
  exists s'. split; [done|]. apply Him. unfold immune. by rewrite Hp, Hre, Hi.
Qed.

(** X9.  A player with NoFail, Relax or Relax2 fails only by a forced
    stop: over any session, as long as [forceFail] is not set at the end,
    its failed flag and its recoveries are unchanged and the fail listener
    has not been called for it. *)
Theorem nofail_fails_only_forced set (calls : list Call) set' c s :
  wf_cursors set →
  run set calls = Some set' →
  cursors set !! c = Some s →
  CheckModActive (diff (player s)) (Z.lor (Z.lor NoFail Relax) Relax2) = true →
  ∃ s', cursors set' !! c = Some s'
    ∧ (forceFail s' = false →
       failed s' = failed s ∧ recoveries s' = recoveries s
       ∧ fail_calls set' c = fail_calls set c).
Proof.
  intros Hwf Hr Hs Hm.
  destruct (run_fail_guard c _ _ _ Hr Hwf) as [_ Hg].
  destruct (Hg s Hs) as (s' & Hs' & Hp & _ & _ & _ & Him).
  exists s'. split; [done|]. intros Hff. apply Him.
  unfold immune. rewrite Hp, Hff, Hm. apply orb_true_r.
Qed.

(** X10.  Over any session the player of a cursor stays the same, the
    flags [forceFail] and [sdpfFail] are never cleared, and the recoveries
    never grow nor fall below zero. *)
Theorem fail_flags_latched set (calls : list Call) set' c s :
  wf_cursors set →
  run set calls = Some set' →
  cursors set !! c = Some s →
  ∃ s', cursors set' !! c = Some s'
    ∧ player s' = player s
    ∧ (forceFail s = true → forceFail s' = true)
    ∧ (sdpfFail s = true → sdpfFail s' = true)
    ∧ (0 <= recoveries s < 2 ^ 63 → 0 <= recoveries s' <= recoveries s).
Proof.
  intros Hwf Hr Hs.
  destruct (run_fail_guard c _ _ _ Hr Hwf) as [_ Hg].
  destruct (Hg s Hs) as (s' & Hs' & Hp & Hf & Hd & Hre & _).
  by exists s'.
Qed.





(** ** What a session keeps *)

Lemma run_static (calls : list Call) set set' :
  run set calls = Some set' →
  beatMap set' = beatMap set ∧ oppDiffs set' = oppDiffs set.
Proof.
  apply (run_rel (λ set set', beatMap set' = beatMap set ∧ oppDiffs set' = oppDiffs set)).
  - done.
  - intros set1 set2 set3 [? ?] [? ?]. split; congruence.
  - intros set1 k s set1' _ Hf. apply failInternal_frame in Hf as [_ Hb].
    unfold board in Hb. by simplify_eq.
  - done.
  - done.
  - done.
  - done.
Qed.

(** X11.  If the mask of the difficulty modifiers ignores ScoreV2, the
    lookup of line 651 always finds step attributes: in every state of a
    session that starts from the constructor, the masked modifiers of each
    player have a cached, non-empty list. *)
Theorem attributes_available (beatMap : BeatMap) (cs : list Cursor)
  (ms : list Modifier) set0 (calls : list Call) set c s0 :
  (∀ m x, GetDiffMaskedMods (Z.lor m (Z.land x ScoreV2)) = GetDiffMaskedMods m) →
  NewOsuRuleset beatMap cs ms = Some set0 →
  run set0 calls = Some set →
  cursors set0 !! c = Some s0 →
  ∃ s steps,
    cursors set !! c = Some s
    ∧ oppDiffs set !! GetDiffMaskedMods (Mods (diff (player s))) = Some steps
    ∧ steps ≠ [].
Proof.
  intros Hmask Hnew Hrun Hs0.
  pose proof (NewOsuRuleset_wf _ _ _ _ Hnew) as Hwf.
  destruct (run_fail_guard c _ _ _ Hrun Hwf) as [_ Hg].
  destruct (Hg s0 Hs0) as (s & Hs & Hp & _).
  destruct (run_static _ _ _ Hrun) as [_ Hod].
  destruct (NewOsuRuleset_built _ _ _ _ Hnew) as (Hlen & _ & _ & _ & _ & _ & Hpl & Hin).
  destruct (Hpl c s0 Hs0) as (Hel & _).
  apply elem_of_lookup_zip_with in Hel as (i & cur & m & Hmk & Hcs & Hms).
  destruct (Hin m) as (steps & Hsteps & Hne).
  { apply elem_of_take. exists i. split; [done|]. by eapply lookup_lt_Some. }
  exists s, steps. split_and!; [done| |done].
  rewrite Hod, Hp, Hmk. simpl. by rewrite Hmask.
Qed.

(** X12.  Only judgements change a score: over a session in which no
    call of [SendResult] is made, directly or by a judge, every player
    keeps its published score, score processor, raw score, object count,
    performance and [sdpfFail] flag. *)
Theorem silent_calls_keep_score set (calls : list Call) set' c s :
  run set calls = Some set' →
  run_judgements set calls = 0%nat →
  cursors set !! c = Some s →
  ∃ s', cursors set' !! c = Some s'
    ∧ score s' = score s ∧ scoreProcessor s' = scoreProcessor s
    ∧ rawScore s' = rawScore s ∧ numObjects s' = numObjects s
    ∧ performance s' = performance s ∧ sdpfFail s' = sdpfFail s.
Proof.
  intros Hrun Hj Hs.
  destruct (run_evolving _ _ _ Hrun c s Hs) as (s' & l & Hs' & Hrec & Hl).
  assert (l = []) as -> by (apply length_zero_iff_nil; lia).
  apply recorded_nil in Hrec; [|done].
  destruct Hrec as (? & ? & ? & ? & ? & ? & ? & ? & ? & ?).
  exists s'. by split_and!.
Qed.

(** ** One result *)

Lemma failInternal_others set (p : difficultyPlayer) set' k :
  failInternal set p = Some set' → k ≠ ptr (cursor p) →
  cursors set' !! k = cursors set !! k.
Proof.
  unfold failInternal. intros Hf Hk.
  destruct (IsReplay (cursor p) && IgnoreFailsInReplays); [by simplify_eq|].
  destruct (cursors set !! ptr (cursor p)) as [s|] eqn:Hs; [|done].
  cbn [mbind option_bind] in Hf.
  destruct (negb (forceFail s) && CheckModActive _ _); [by simplify_eq|].
  destruct ((0 <? recoveries s) && negb (sdpfFail s) && negb (forceFail s)).
  - simplify_eq. rewrite lookup_store. by case_decide.
  - destruct (failListener set && negb (failed s)); simplify_eq;
      rewrite lookup_store; by case_decide.
Qed.

(** X13.  A result of one player leaves the sub-set of every other player
    as it is. *)
Theorem SendResult_other_players set time c (src : Obj) x y r cr set' k :
  wf_cursors set →
  SendResult set time c src x y r cr = Some set' →
  k ≠ c →
  cursors set' !! k = cursors set !! k.
Proof.
  intros Hwf Hs Hk. unfold SendResult in Hs.
  destruct ((r =? Ignore) || (r =? PositionalMiss)).
  { destruct ((r =? PositionalMiss) && hitListener set); [|by simplify_eq].
    destruct (cursors set !! c) as [s|]; [|done]. simpl in Hs.
    by destruct (negb _); simplify_eq. }
  destruct (cursors set !! c) as [s0|] eqn:Hs0; [|done].
  cbn [mbind option_bind] in Hs.
  destruct (aggregate set s0 src r cr) as [[[s1 r1] cr1]|] eqn:Ha; [|done].
  cbn [mbind option_bind] in Hs.
  destruct (aggregate_frame _ _ _ _ _ _ _ _ Ha) as (Hp & _).
  destruct (failEvent _ _ _) as [set1|] eqn:He; [|done].
  cbn [mbind option_bind] in Hs.
  assert (ptr (cursor (player s0)) = c) as Hc
    by (by eapply (map_Forall_lookup_1 _ _ _ _ Hwf)).
  assert (cursors set1 !! k = cursors set !! k) as H1.
  { unfold failEvent in He. destruct (if sdpfFail s1 then _ else _).
    - eapply failInternal_others in He.
      + rewrite He, lookup_store. by case_decide.
      + simpl. rewrite Hp, Hc. done.
    - simplify_eq. rewrite lookup_store. by case_decide. }
  by destruct (hitListener set1); simplify_eq.
Qed.

Lemma aggregate_performance set s0 (src : Obj) r cr s1 r' cr' :
  aggregate set s0 src r cr = Some (s1, r', cr') →
  let mods := Mods (diff (player s0)) in
  MapPath (performance s1) = MapPath (performance s0)
  ∧ PP (score s1) = PR_PP (Performance (performance s1))
  ∧ Performance (performance s1)
    = calculate_score (MapPath (performance s0)) 0 (Go.c_uint (Go.uint mods))
        (Go.c_uint (Combo (score s1))) (Accuracy (score s1))
        (Go.c_uint (CountMiss (score s1)))
        (if 0 <? Z.land mods Relax then None
         else if 0 <? numObjects s1 then Some (Go.c_uint (numObjects s1))
         else None).
Proof.
  unfold aggregate. intros Ha.
  destruct (oppDiffs set !! _) as [diffs|] eqn:Hd; [|done].
  cbn [mbind option_bind] in Ha.
  destruct (index diffs _) as [d|] eqn:Hi; [|done].
  cbn [mbind option_bind] in Ha.
  destruct (combo_end _ _ _ _ _ _ _ _) as [[[[[r2 g] k] ck] cb]|]; [|done].
  cbn [mbind option_bind] in Ha. injection Ha as <- <- <-.
  cbn. split_and!; try reflexivity.
  unfold Calculate. cbn.
  by destruct (0 <? Z.land (Mods (diff (player s0))) Relax).
Qed.

(** X14.  The performance published with a recorded result is the answer
    of [calculate_score] for the map of the player, mode 0, and the
    modifiers, max combo, accuracy and miss count of the new score, each cut
    to 32 bits; the passed objects are handed over only without Relax and
    once an object is judged.  The published pp is the pp of this
    answer. *)
Theorem SendResult_performance set time c (src : Obj) x y r cr set' s0 :
  (r =? Ignore) || (r =? PositionalMiss) = false →
  SendResult set time c src x y r cr = Some set' →
  cursors set !! c = Some s0 →
  ∃ s',
    let mods := Mods (diff (player s0)) in
    cursors set' !! c = Some s'
    ∧ MapPath (performance s') = MapPath (performance s0)
    ∧ PP (score s') = PR_PP (Performance (performance s'))
    ∧ Performance (performance s')
      = calculate_score (MapPath (performance s0)) 0 (Go.c_uint (Go.uint mods))
          (Go.c_uint (Combo (score s'))) (Accuracy (score s'))
          (Go.c_uint (CountMiss (score s')))
          (if 0 <? Z.land mods Relax then None
           else if 0 <? numObjects s' then Some (Go.c_uint (numObjects s'))
           else None).
Proof.
  intros Hr Hs Hs0.
  destruct (SendResult_inv _ _ _ _ _ _ _ _ _ Hs Hr)
    as (s0' & s1 & r' & cr' & s' & Hs0' & Ha & Hs' & Hsame & _).
  assert (s0' = s0) as -> by congruence.
  destruct Hsame as (_ & Hsc & _ & _ & _ & _ & Hn & Hpe & _).
  apply aggregate_performance in Ha. cbn zeta in Ha.
  exists s'. cbn zeta. rewrite Hsc, Hn, Hpe. by split.
Qed.

(** X15.  With a hit listener registered, a recorded result makes exactly
    one call of it, for the cursor, time, object number and position of the
    result, and with the score and the pp that [GetScore] gives for the
    cursor right after the call. *)
Theorem SendResult_event set time c (src : Obj) x y r cr set' :
  hitListener set = true →
  (r =? Ignore) || (r =? PositionalMiss) = false →
  SendResult set time c src x y r cr = Some set' →
  ∃ e sc,
    hitLog set' = hitLog set ++ [e]
    ∧ OsuRuleSet_GetScore set' c = Some sc
    ∧ he_cursor e = c ∧ he_time e = time ∧ he_number e = GetNumber src
    ∧ he_position e = (x, y)
    ∧ he_score e = Score_ sc
    ∧ PR_PP (he_ppResults e) = PP sc.
Proof.
  intros Hl Hr Hs.
  destruct (SendResult_inv _ _ _ _ _ _ _ _ _ Hs Hr)
    as (s0 & s1 & r' & cr' & s' & Hs0 & Ha & Hs' & Hsame & _ & _ & _ & _ & _ & _ & _ & Hlog).
  rewrite Hl in Hlog.
  destruct Hsame as (_ & Hsc & _).
  pose proof (aggregate_performance _ _ _ _ _ _ _ _ Ha) as Hpp. cbn zeta in Hpp.
  destruct Hpp as (_ & Hpp & _).
  apply aggregate_inv in Ha. cbn zeta in Ha.
  destruct Ha as (_ & _ & Hscore & _).
  eexists _, (score s'). split; [exact Hlog|].
  unfold OsuRuleSet_GetScore. rewrite Hs'. split; [done|].
  cbn. rewrite Hsc. by split_and!.
Qed.


(** ** The tallies *)

Lemma combo_end_counts set s number (result : HitResult) (cg ck katu bad : Z)
  r2 g k x1 x2 :
  combo_end set s number result cg ck katu bad = Some (r2, g, k, x1, x2) →
  g = cg ∧ k = ck
  ∨ 0 < Z.land result BaseHitsM
    ∧ (g = Go.uint (cg + 1) ∧ k = ck ∨ g = cg ∧ k = Go.uint (ck + 1)).
Proof.
  unfold combo_end. intros Hc.
  destruct (Z.ltb_spec 0 (Z.land result BaseHitsM)) as [Hb|Hb]; cbn [negb] in Hc.
  2:{ cbn [mbind option_bind] in Hc. simplify_eq. by left. }
  destruct (if number =? _ then _ else _) as [[|]|]; cbn [mbind option_bind] in Hc;
    [|by simplify_eq; left|done].
  destruct (allClicked_scan _ _ _) as [allClicked|]; [|done].
  cbn [mbind option_bind] in Hc.
  destruct (0 <? Z.land result BaseHits); [|by simplify_eq; left].
  destruct (_ && _ && allClicked); [simplify_eq; right; split; [done|by left]|].
  destruct (_ && allClicked); [simplify_eq; right; split; [done|by right]|].
  simplify_eq. by left.
Qed.

Lemma aggregate_counts set s0 (src : Obj) r cr s1 r' cr' :
  aggregate set s0 src r cr = Some (s1, r', cr') →
  let b := Z.land (recorded_result s0 src r cr) BaseHitsM in
  Count100 (score s1)
  = (if (0 <? b) && negb (b =? Hit300) && (b =? Hit100)
     then Go.uint (Count100 (score s0) + 1) else Count100 (score s0))
  ∧ (CountGeki (score s1) = CountGeki (score s0)
     ∧ CountKatu (score s1) = CountKatu (score s0)
     ∨ 0 < b
       ∧ (CountGeki (score s1) = Go.uint (CountGeki (score s0) + 1)
          ∧ CountKatu (score s1) = CountKatu (score s0)
          ∨ CountGeki (score s1) = CountGeki (score s0)
            ∧ CountKatu (score s1) = Go.uint (CountKatu (score s0) + 1))).
Proof.
  unfold aggregate, recorded_result. intros Ha.
  destruct (oppDiffs set !! _) as [diffs|] eqn:Hd; [|done].
  cbn [mbind option_bind] in Ha.
  destruct (index diffs _) as [d|] eqn:Hi; [|done].
  cbn [mbind option_bind] in Ha.
  destruct (combo_end _ _ _ _ _ _ _ _) as [[[[[r2 g] k] ck] cb]|] eqn:Hc; [|done].
  cbn [mbind option_bind] in Ha. injection Ha as <- <- <-.
  cbn. split; [done|]. by apply combo_end_counts in Hc.
Qed.

Lemma counted_app (l1 l2 : list HitResult) : counted (l1 ++ l2) = counted l1 + counted l2.
Proof. unfold counted. rewrite filter_app, length_app. lia. Qed.

Lemma counted_le_judged (l : list HitResult) : 0 <= counted l <= judged l.
Proof.
  induction l as [|r l IH]; [done|].
  change (r :: l) with ([r] ++ l). rewrite counted_app, judged_app.
  assert (0 <= counted [r] <= judged [r]); [|lia].
  unfold counted, judged, is_counted, is_base. rewrite !filter_cons, !filter_nil.
  cbn zeta. destruct (0 <? Z.land r BaseHitsM); cbn [andb].
  - repeat case_decide; simpl; try lia. exfalso; auto.
  - repeat case_decide; simpl; try lia; done.
Qed.

Lemma recorded_sum (l : list HitResult) s s' :
  recorded l s s' →
  ∀ n, counts_ok n s → n + Z.of_nat (length l) < 2 ^ 64 →
       counts_ok (n + Z.of_nat (length l)) s'
       ∧ numObjects s' = numObjects s + judged l
       ∧ Count300 (score s') + Count100 (score s') + Count50 (score s')
         + CountMiss (score s')
         = Count300 (score s) + Count100 (score s) + Count50 (score s)
           + CountMiss (score s) + counted l.
Proof.
  induction 1 as [s s' Hv|set s0 src r cr s1 r' cr' Ha|l1 l2 s1 s2 s3 _ IH1 _ IH2];
    intros n Hc Hb.
  - destruct Hv as (_ & Hsc & _ & _ & _ & _ & Hn & _).
    unfold counts_ok in *. rewrite Hsc, Hn. unfold judged, counted. simpl.
    split_and!; lia.
  - pose proof (aggregate_counts _ _ _ _ _ _ _ _ Ha) as [H100 Hgk]. cbn zeta in H100, Hgk.
    apply aggregate_inv in Ha. cbn zeta in Ha.
    destruct Ha as (_ & _ & _ & _ & Hnum & _ & H300 & H50 & Hmiss & _).
    fold (recorded_result s0 src r cr) in Hnum, H300, H50, Hmiss.
    destruct Hc as (? & ? & ? & ? & ? & ? & Ht & Hg & Hn).
    cbn [length] in *. rewrite judged_one. unfold counted, is_base.
    rewrite filter_cons, filter_nil. unfold is_counted. cbn zeta.
    destruct (Z.ltb_spec 0 (Z.land (recorded_result s0 src r cr) BaseHitsM)) as [Hb'|Hb'];
      cbn [andb negb] in *.
    + rewrite uint_id in Hnum by lia.
      assert (Count300 (score s1) + Count100 (score s1) + Count50 (score s1)
              + CountMiss (score s1)
              = Count300 (score s0) + Count100 (score s0) + Count50 (score s0)
                + CountMiss (score s0)
                + (if (Z.land (recorded_result s0 src r cr) BaseHitsM =? Hit300)
                      || (Z.land (recorded_result s0 src r cr) BaseHitsM =? Hit100)
                      || (Z.land (recorded_result s0 src r cr) BaseHitsM =? Hit50)
                      || (Z.land (recorded_result s0 src r cr) BaseHitsM =? Miss)
                   then 1 else 0)
              ∧ 0 <= Count300 (score s1) ∧ 0 <= Count100 (score s1)
              ∧ 0 <= Count50 (score s1) ∧ 0 <= CountMiss (score s1)) as (Hsum & ? & ? & ? & ?).
      { rewrite H300, H100, H50, Hmiss.
        destruct (_ =? Hit300); cbn [negb andb orb];
          [rewrite uint_id by lia; lia|].
        destruct (_ =? Hit100); cbn [negb andb orb];
          [rewrite uint_id by lia; lia|].
        destruct (_ =? Hit50); cbn [negb andb orb];
          [rewrite uint_id by lia; lia|].
        destruct (_ =? Miss); cbn [negb andb orb];
          [rewrite uint_id by lia; lia|]. lia. }
      assert (0 <= CountGeki (score s1) ∧ 0 <= CountKatu (score s1)
              ∧ CountGeki (score s1) + CountKatu (score s1)
                <= CountGeki (score s0) + CountKatu (score s0) + 1) as (? & ? & ?).
      { destruct Hgk as [[-> ->]|[_ [[-> ->]|[-> ->]]]];
          rewrite ?uint_id by lia; lia. }
      unfold counts_ok. rewrite Hsum.
      destruct (_ || _); case_decide; try done; simpl; split_and!; lia.
    + destruct Hgk as [[Hg1 Hk1]|[? _]]; [|lia].
      case_decide; [done|].
      unfold counts_ok. rewrite H300, H100, H50, Hmiss, Hnum, Hg1, Hk1. simpl.
      split_and!; lia.
  - rewrite length_app, Nat2Z.inj_add in *.
    destruct (IH1 n Hc) as (Hc2 & Hj2 & Ht2); [lia|].
    destruct (IH2 _ Hc2) as (Hc3 & Hj3 & Ht3); [lia|].
    rewrite judged_app, counted_app.
    split_and!; [|lia|lia].
    by rewrite Z.add_assoc.
Qed.

(** X16.  In a session that starts from the constructor, the counters of
    300s, 100s, 50s and misses of a player add up to the number of recorded
    results whose base part is one of these four; this is at most the
    number of judged objects, and so is the number of gekis and katus. *)
Theorem tallies_bounded (beatMap : BeatMap) (cs : list Cursor) (ms : list Modifier)
  set0 (calls : list Call) set c s0 :
  NewOsuRuleset beatMap cs ms = Some set0 →
  run set0 calls = Some set →
  Z.of_nat (run_judgements set0 calls) < 2 ^ 64 →
  cursors set0 !! c = Some s0 →
  ∃ s l,
    cursors set !! c = Some s
    ∧ recorded l s0 s
    ∧ numObjects s = judged l
    ∧ Count300 (score s) + Count100 (score s) + Count50 (score s) + CountMiss (score s)
      = counted l
    ∧ counted l <= judged l
    ∧ 0 <= CountGeki (score s) + CountKatu (score s) <= judged l.
Proof.
  intros Hnew Hrun Hb Hs0.
  destruct (run_evolving _ _ _ Hrun c s0 Hs0) as (s & l & Hs & Hrec & Hl).
  destruct (NewOsuRuleset_built _ _ _ _ Hnew) as (_ & _ & _ & _ & _ & _ & Hpl & _).
  destruct (Hpl c s0 Hs0) as (_ & _ & Hsc & _ & _ & Hn0 & _).
  assert (counts_ok 0 s0) as Hc0.
  { unfold counts_ok. rewrite Hsc, Hn0. simpl. lia. }
  destruct (recorded_sum _ _ _ Hrec 0 Hc0) as (Hc & Hj & Ht); [lia|].
  rewrite Hsc, Hn0 in *. simpl in Ht.
  destruct Hc as (_ & _ & _ & _ & ? & ? & _ & ? & _).
  pose proof (counted_le_judged l).
  exists s, l. split_and!; [done|done|lia|lia|lia|lia|lia].
Qed.



(** ** The tick *)

Lemma failEvent_timeline (fails : bool) set (p : difficultyPlayer) set' :
  failEvent fails set p = Some set' → timeline set' = timeline set.
Proof.
  intros Hf. apply failEvent_frame in Hf as [_ Hb].
  unfold board in Hb. unfold timeline. injection Hb; intros; congruence.
Qed.

Lemma SendResult_timeline set time c (src : Obj) x y r cr set' :
  SendResult set time c src x y r cr = Some set' → timeline set' = timeline set.
Proof.
  unfold SendResult. intros Hs.
  destruct ((r =? Ignore) || (r =? PositionalMiss)).
  { destruct ((r =? PositionalMiss) && hitListener set); [|by simplify_eq].
    destruct (cursors set !! c) as [s|]; [|done]. simpl in Hs.
    by destruct (negb _); simplify_eq. }
  destruct (cursors set !! c) as [s0|] eqn:Hs0; [|done].
  cbn [mbind option_bind] in Hs.
  destruct (aggregate set s0 src r cr) as [[[s1 r1] cr1]|] eqn:Ha; [|done].
  cbn [mbind option_bind] in Hs.
  destruct (failEvent _ _ _) as [set1|] eqn:He; [|done].
  cbn [mbind option_bind] in Hs.
  apply failEvent_timeline in He.
  change (timeline set1 = timeline set) in He.
  destruct (hitListener set1); injection Hs as <-; unfold timeline in *; simpl;
    exact He.
Qed.

Lemma send_all_timeline (js : list (Judgement Obj)) set set' :
  send_all set js = Some set' → timeline set' = timeline set.
Proof.
  revert set. induction js as [|j js IH]; intros set; simpl; [by intros [= <-]|].
  intros Hs. destruct (SendResult _ _ _ _ _ _ _ _) as [set1|] eqn:H1; [|done].
  simpl in Hs. rewrite (IH _ Hs). by eapply SendResult_timeline.
Qed.

Lemma post_loop_timeline time (rest kept : list Obj) set set' :
  post_loop time kept rest set = Some set' →
  queue set' = queue set ∧ ended set' = ended set
  ∧ endListener set' = endListener set
  ∧ ∃ kept' ends,
      processed set' = kept ++ kept' ∧ endLog set' = endLog set ++ ends
      ∧ (length kept' ≤ length rest)%nat
      ∧ Forall (λ e, e.1 = time
                     ∧ ∃ g, g ∈ rest ∧ e.2 = GetNumber (UpdatePost g time).1.1) ends
      ∧ (if endListener set then (length kept' + length ends = length rest)%nat
         else ends = []).
Proof.
  revert kept set. induction rest as [|g rest IH]; intros kept set; simpl.
  - intros [= <-]. simpl. split_and!; try done. exists [], [].
    rewrite !app_nil_r. split_and!; try done. by destruct (endListener set).
  - destruct (UpdatePost g time) as [[g1 calls] isDone] eqn:Hg.
    intros Hp. destruct (send_all _ calls) as [set1|] eqn:H1; [|done].
    cbn [mbind option_bind] in Hp.
    apply send_all_timeline in H1. unfold timeline in H1. simpl in H1.
    injection H1 as Hq1 Hp1 He1 Hl1 Hlog1.
    destruct isDone.
    + destruct (endListener set1) eqn:Hend;
        apply IH in Hp
          as (Hq & He & Hl & kept' & ends & Hpr & Hlog & Hlen & Hall & Hcount);
        simpl in *; rewrite ?Hend in Hcount;
        (assert (Forall (λ e, e.1 = time
                   ∧ ∃ g0, g0 ∈ g :: rest ∧ e.2 = GetNumber (UpdatePost g0 time).1.1) ends)
           as Hall';
         [eapply Forall_impl; [exact Hall|]; intros e [? (g0 & ? & ?)];
          split; [done|]; exists g0; split; [by apply elem_of_cons; right|done]|]).
      * split_and!; [congruence..|].
        exists kept', ((time, GetNumber g1) :: ends).
        rewrite Hlog, Hlog1, <- app_assoc. split_and!; [done|done|lia| |].
        -- constructor; [|done]. split; [done|]. exists g.
           split; [by apply elem_of_cons; left|]. by rewrite Hg.
        -- rewrite <- Hl1. simpl. lia.
      * split_and!; [congruence..|].
        exists kept', ends. rewrite <- Hl1.
        split_and!; [done|congruence|lia|done|done].
    + apply IH in Hp as (Hq & He & Hl & kept' & ends & Hpr & Hlog & Hlen & Hall & Hcount).
      split_and!; [congruence..|].
      exists (g1 :: kept'), ends. rewrite Hpr, <- app_assoc.
      split_and!; [done|congruence|simpl; lia| |].
      * eapply Forall_impl; [exact Hall|]. intros e [? (g0 & ? & ?)].
        split; [done|]. exists g0. split; [by apply elem_of_cons; right|done].
      * rewrite <- Hl1.
        destruct (endListener set1); simpl; [lia|done].
Qed.

Lemma activate_spec time (q p q' p' : list Obj) :
  activate time q p = (q', p') →
  ∃ moved,
    q = moved ++ q' ∧ p' = p ++ moved
    ∧ Forall (λ g, GetFadeTime g <= time) moved
    ∧ (∀ g, head q' = Some g → time < GetFadeTime g).
Proof.
  revert p. induction q as [|g q IH]; intros p; simpl.
  - intros [= <- <-]. exists []. rewrite !app_nil_r. by split_and!.
  - destruct (Z.ltb_spec time (GetFadeTime g)) as [Hf|Hf].
    + intros [= <- <-]. exists []. rewrite !app_nil_r. split_and!; try done.
      by intros g' [= <-].
    + intros Ha. apply IH in Ha as (moved & -> & -> & Hall & Hhead).
      exists (g :: moved). rewrite <- app_assoc. split_and!; try done.
      by constructor.
Qed.

Lemma Update_inv set time set' :
  Update set time = Some set' →
  ∃ kept moved ends,
    queue set = moved ++ queue set'
    ∧ processed set' = kept ++ moved
    ∧ (length kept ≤ length (processed set))%nat
    ∧ Forall (λ g, GetFadeTime g <= time) moved
    ∧ (∀ g, head (queue set') = Some g → time < GetFadeTime g)
    ∧ endListener set' = endListener set
    ∧ endLog set' = endLog set ++ ends
    ∧ Forall (λ e, e.1 = time
                   ∧ ∃ g, g ∈ processed set ∧ e.2 = GetNumber (UpdatePost g time).1.1)
        ends
    ∧ (if endListener set
       then (length kept + length ends = length (processed set))%nat
       else ends = [])
    ∧ ended set'
      = ended set || bool_decide (queue set' = []) && bool_decide (processed set' = []).
Proof.
  unfold Update. intros Hu.
  destruct (post_loop _ _ _ _) as [set1|] eqn:H1; [|done].
  cbn [mbind option_bind] in Hu.
  destruct (activate _ _ _) as [q p] eqn:Hact.
  destruct (hp_ticks _ _ _) as [set3|] eqn:H3; [|done].
  cbn [mbind option_bind] in Hu.
  apply post_loop_timeline in H1
    as (Hq1 & He1 & Hl1 & kept & ends & Hp1 & Hlog1 & Hlen & Hall & Hcount).
  simpl in Hp1.
  apply activate_spec in Hact as (moved & Hq & Hp & Hfade & Hhead).
  apply hp_ticks_board in H3. unfold board in H3. cbn in H3.
  injection H3 as Hbm3 Hod3 Hq3 Hp3 He3 Hhl3 Hl3 Hfl3 Hhlog3 Hlog3.
  exists kept, moved, ends.
  assert (queue set' = q ∧ processed set' = p ∧ endListener set' = endListener set
          ∧ endLog set' = endLog set ++ ends
          ∧ ended set' = ended set || bool_decide (q = []) && bool_decide (p = []))
    as (-> & -> & -> & -> & ->).
  { destruct (bool_decide (queue set3 = []) && bool_decide (processed set3 = [])
              && negb (ended set3)) eqn:Hc; injection Hu as <-; simpl;
      rewrite Hq3, Hp3, He3, He1 in Hc.
    - apply andb_prop in Hc as [-> Hne]. apply negb_true_iff in Hne as ->.
      split_and!; try done; congruence.
    - split_and!; try congruence. rewrite He3, He1.
      destruct (ended set); [done|]. by rewrite andb_true_r in Hc. }
  rewrite <- Hq1, Hq, Hp, Hp1. by split_and!.
Qed.

(** X17.  The activation pass of [Update] moves a prefix of the queue to
    the end of [processed], in order: every judge moved has a fade time at
    or before the time of the tick, and the judge left at the head of the
    queue has a later one.  What stays of the former [processed] comes
    first. *)
Theorem Update_activation set time set' :
  Update set time = Some set' →
  ∃ kept moved,
    queue set = moved ++ queue set'
    ∧ processed set' = kept ++ moved
    ∧ (length kept ≤ length (processed set))%nat
    ∧ Forall (λ g, GetFadeTime g <= time) moved
    ∧ (∀ g, head (queue set') = Some g → time < GetFadeTime g).
Proof.
  intros Hu. apply Update_inv in Hu as (kept & moved & ends & H).
  exists kept, moved. by destruct_and!.
Qed.

(** X18.  When an end listener is registered, [Update] calls it once for
    every judge that the late update retires, with the time of the tick and
    the number of the judge: the judges left in [processed] and in the
    queue and the calls made account for all the judges there were.
    Without a listener the log stays as it is. *)
Theorem Update_end_listener set time set' :
  Update set time = Some set' →
  ∃ ends,
    endLog set' = endLog set ++ ends
    ∧ Forall (λ e, e.1 = time
                   ∧ ∃ g, g ∈ processed set ∧ e.2 = GetNumber (UpdatePost g time).1.1)
        ends
    ∧ (if endListener set
       then (length (processed set') + length (queue set') + length ends
             = length (processed set) + length (queue set))%nat
       else ends = []).
Proof.
  intros Hu. apply Update_inv in Hu
    as (kept & moved & ends & Hq & Hp & _ & _ & _ & _ & Hlog & Hall & Hcount & _).
  exists ends. split_and!; [done..|].
  destruct (endListener set); [|done].
  rewrite Hq, Hp, !length_app. lia.
Qed.

Lemma step_timeline set (call : Call) set' :
  step set call = Some set' →
  match call with
  | CallUpdate _ => True
  | CallJudges f =>
      queue set' = queue set ∧ processed set' = f <$> processed set
      ∧ ended set' = ended set
  | _ => queue set' = queue set ∧ processed set' = processed set
         ∧ ended set' = ended set
  end.
Proof.
  destruct call as [t k src x y r cr|t|k t|k|f|l|l|l]; simpl; try done.
  - intros Hs. apply SendResult_timeline in Hs. unfold timeline in Hs.
    injection Hs; intros; by split_and!.
  - unfold PlayerStopped.
    destruct (index _ _) as [lastObj|]; [|done]. cbn [mbind option_bind].
    destruct (t <? _) eqn:Ht; [|by intros [= <-]].
    destruct (cursors set !! k) as [s|]; [|done]. cbn [mbind option_bind].
    intros Hf. apply failEvent_timeline in Hf. unfold timeline in Hf.
    injection Hf; intros; by split_and!.
  - destruct (cursors set !! k) as [s|]; [|done]. cbn [mbind option_bind].
    intros Hf. apply (failEvent_timeline true) in Hf. unfold timeline in Hf.
    injection Hf; intros; by split_and!.
  - by intros [= <-].
  - by intros [= <-].
  - by intros [= <-].
  - by intros [= <-].
Qed.

(** X19.  The end of a session is final: a session that has ended stays
    ended, and in a session that has ended the queue and [processed] are
    empty, provided this holds at the start (as it does after the
    constructor). *)
Theorem ended_is_final set (calls : list Call) set' :
  run set calls = Some set' →
  (ended set = true → queue set = [] ∧ processed set = []) →
  (ended set = true → ended set' = true)
  ∧ (ended set' = true → queue set' = [] ∧ processed set' = []).
Proof.
  revert set. induction calls as [|call calls IH]; intros set; simpl.
  - by intros [= <-].
  - intros Hr Hinv. destruct (step set call) as [set1|] eqn:H1; [|done].
    cbn [mbind option_bind] in Hr.
    assert ((ended set = true → ended set1 = true)
            ∧ (ended set1 = true → queue set1 = [] ∧ processed set1 = [])) as [Hm H1'].
    { pose proof (step_timeline _ _ _ H1) as Ht.
      destruct call as [t k src x y r cr|t|k t|k|f|l|l|l];
        try (destruct Ht as (-> & -> & ->); done).
      - simpl in H1. apply Update_inv in H1
          as (kept & moved & ends & Hq & Hp & Hlen & _ & _ & _ & _ & _ & _ & He).
        split; [intros Hen; by rewrite He, Hen|].
        rewrite He. destruct (ended set) eqn:Hen.
        + destruct (Hinv eq_refl) as [Hq0 Hp0]. intros _.
          rewrite Hq0 in Hq. symmetry in Hq.
          apply app_eq_nil in Hq as [-> ->].
          rewrite Hp0 in Hlen. destruct kept; [|simpl in Hlen; lia].
          by rewrite Hp.
        + simpl. intros [Hq'%bool_decide_eq_true Hp'%bool_decide_eq_true]%andb_prop.
          done.
      - destruct Ht as (-> & -> & ->). split; [done|].
        intros Hen. destruct (Hinv Hen) as [-> ->]. done. }
    destruct (IH _ Hr H1') as [Hm' Hfin]. split; [tauto|done].
Qed.


(** ** When a result is accepted without a panic *)

Lemma search_loop_range (f : Z → bool) (fuel : nat) (i j : Z) :
  0 <= i <= j → j < 2 ^ 63 → i <= Go.search_loop fuel f i j <= j.
Proof.
  revert i j. induction fuel as [|fuel IH]; intros i j Hij Hj; simpl; [lia|].
  destruct (Z.ltb_spec i j) as [Hlt|]; [|lia].
  pose proof (search_half i j (proj1 Hij) Hlt Hj) as Hh. cbn zeta in Hh.
  destruct (f _).
  - specialize (IH i (Z.shiftr (Go.uint (i + j)) 1)). lia.
  - specialize (IH (Z.shiftr (Go.uint (i + j)) 1 + 1) j). lia.
Qed.

Lemma Search_range (n : Z) (f : Z → bool) :
  0 <= n < 2 ^ 63 → 0 <= Go.Search n f <= n.
Proof. intros Hn. unfold Go.Search. apply search_loop_range; lia. Qed.

Lemma index_is_Some {X : Type} (l : list X) (i : Z) :
  0 <= i < Z.of_nat (length l) → is_Some (index l i).
Proof.
  intros Hi. unfold index. destruct (Z.ltb_spec i 0); [lia|].
  apply lookup_lt_is_Some. lia.
Qed.

Lemma allClicked_scan_total set (p : difficultyPlayer) (i : nat) :
  (i ≤ length (processed set))%nat →
  Forall (λ g, 0 <= GetNumber g < Z.of_nat (length (HitObjects (beatMap set))))
    (processed set) →
  is_Some (allClicked_scan set p i).
Proof.
  intros Hi Hall. induction i as [|i IH]; simpl; [done|].
  destruct (lookup_lt_is_Some_2 (processed set) i) as [obj Hobj]; [lia|].
  rewrite Hobj. cbn [mbind option_bind].
  destruct (negb (IsHit obj p)); [done|].
  destruct (index_is_Some (HitObjects (beatMap set)) (GetNumber obj)) as [bObj ->].
  { by eapply Forall_lookup_1 in Hall. }
  cbn [mbind option_bind]. destruct (IsNewCombo bObj); [done|]. apply IH. lia.
Qed.

Lemma combo_end_total set s number (result : HitResult) (cg ck katu bad : Z) :
  0 <= number < Z.of_nat (length (HitObjects (beatMap set))) →
  Z.of_nat (length (HitObjects (beatMap set))) < 2 ^ 63 →
  Z.of_nat (length (processed set)) < 2 ^ 63 →
  Forall (λ g, 0 <= GetNumber g < Z.of_nat (length (HitObjects (beatMap set))))
    (processed set) →
  is_Some (combo_end set s number result cg ck katu bad).
Proof.
  intros Hn Hlen Hpl Hall. unfold combo_end.
  assert (∃ isEnd : bool,
            (if negb (0 <? Z.land result BaseHitsM) then Some false
             else if number =? Z.of_nat (length (HitObjects (beatMap set))) - 1
                  then Some true
                  else if number <? Z.of_nat (length (HitObjects (beatMap set))) - 1
                       then next ← index (HitObjects (beatMap set)) (Go.int64 (number + 1));
                            Some (IsNewCombo next)
                       else Some false) = Some isEnd) as [isEnd ->].
  { destruct (negb _); [by eexists|]. destruct (_ =? _); [by eexists|].
    destruct (Z.ltb_spec number (Z.of_nat (length (HitObjects (beatMap set))) - 1));
      [|by eexists].
    rewrite int64_id by lia.
    destruct (index_is_Some (HitObjects (beatMap set)) (number + 1)) as [next ->]; [lia|].
    by eexists. }
  cbn [mbind option_bind]. destruct isEnd; [|done].
  set (idx := Go.Search _ _).
  assert (0 <= idx <= Z.of_nat (length (processed set))) as Hidx.
  { apply Search_range. lia. }
  destruct (allClicked_scan_total set (player s) (Z.to_nat idx)) as [b ->];
    [lia|done|].
  cbn [mbind option_bind].
  destruct (0 <? Z.land result BaseHits); [|done].
  destruct (_ && _ && b); [done|]. by destruct (_ && b).
Qed.

Lemma aggregate_total set s0 (src : Obj) r cr (diffs : list Attributes) :
  oppDiffs set !! GetDiffMaskedMods (Mods (diff (player s0))) = Some diffs →
  0 <= numObjects s0 < Z.of_nat (length diffs) →
  0 <= GetNumber src < Z.of_nat (length (HitObjects (beatMap set))) →
  Z.of_nat (length (HitObjects (beatMap set))) < 2 ^ 63 →
  Z.of_nat (length (processed set)) < 2 ^ 63 →
  Forall (λ g, 0 <= GetNumber g < Z.of_nat (length (HitObjects (beatMap set))))
    (processed set) →
  is_Some (aggregate set s0 src r cr).
Proof.
  intros Hd Hn Hsrc Hlen Hpl Hall. unfold aggregate. rewrite Hd.
  cbn [mbind option_bind].
  match goal with
  | |- context [index diffs ?i] =>
      destruct (index_is_Some diffs i) as [d ->]
  end.
  { destruct (0 <? _).
    - pose proof (uint_range (numObjects s0 + 1)) as Hu.
      assert (Go.uint (numObjects s0 + 1) <= numObjects s0 + 1).
      { unfold Go.uint. apply Z.mod_le; lia. }
      rewrite Max_spec. lia.
    - rewrite Max_spec. lia. }
  cbn [mbind option_bind].
  match goal with
  | |- context [combo_end ?a ?b ?c ?d ?e ?f ?g ?h] =>
      destruct (combo_end_total a b c d e f g h) as [[[[[r2 g'] k] ck] cb] ->]
  end; try done.
Qed.

Lemma failInternal_total set (p : difficultyPlayer) :
  is_Some (cursors set !! ptr (cursor p)) → is_Some (failInternal set p).
Proof.
  intros [s Hs]. unfold failInternal. rewrite Hs.
  destruct (_ && IgnoreFailsInReplays); [done|]. cbn [mbind option_bind].
  destruct (negb (forceFail s) && _); [done|]. by destruct (_ && _ && _).
Qed.

(** X20.  [SendResult] returns, without a panic, for a registered cursor
    stored under its own player when the step attributes of the player
    reach beyond the objects judged so far, and the source and the judges
    of [processed] carry numbers of objects of the map. *)
Theorem SendResult_returns set time c (src : Obj) x y r cr s0
  (diffs : list Attributes) :
  cursors set !! c = Some s0 →
  ptr (cursor (player s0)) = c →
  oppDiffs set !! GetDiffMaskedMods (Mods (diff (player s0))) = Some diffs →
  0 <= numObjects s0 < Z.of_nat (length diffs) →
  0 <= GetNumber src < Z.of_nat (length (HitObjects (beatMap set))) →
  Z.of_nat (length (HitObjects (beatMap set))) < 2 ^ 63 →
  Z.of_nat (length (processed set)) < 2 ^ 63 →
  Forall (λ g, 0 <= GetNumber g < Z.of_nat (length (HitObjects (beatMap set))))
    (processed set) →
  ∃ set', SendResult set time c src x y r cr = Some set'.
Proof.
  intros Hs0 Hc Hd Hn Hsrc Hlen Hpl Hall. unfold SendResult. rewrite Hs0.
  destruct ((r =? Ignore) || (r =? PositionalMiss)).
  { destruct (_ && hitListener set); [|by eexists]. cbn [mbind option_bind].
    destruct (negb _); by eexists. }
  cbn [mbind option_bind].
  destruct (aggregate_total set s0 src r cr diffs) as [[[s1 r1] cr1] Ha]; try done.
  rewrite Ha. cbn [mbind option_bind].
  destruct (aggregate_frame _ _ _ _ _ _ _ _ Ha) as (Hp & _).
  match goal with
  | |- context [failEvent ?f ?st ?p] =>
      assert (is_Some (failEvent f st p)) as [set1 ->]
  end.
  { unfold failEvent. destruct (if sdpfFail s1 then _ else _); [|done].
    apply failInternal_total. cbn [player set_hp]. rewrite Hp, Hc, lookup_store_eq.
    done. }
  cbn [mbind option_bind]. destruct (hitListener set1); by eexists.
Qed.


(** ** The per-player passes *)

Section PassProperties.

Context {bb : ButtonBits} {jp : JudgePasses SP HP Obj Attributes PPv2}.


(** What a pass keeps, for a relation [R] that the calls of [SendResult]
    and a change of the judges keep. *)
Section PassRelation.

Context (R : OsuRuleSet → OsuRuleSet → Prop).
Hypothesis R_refl : ∀ set, R set set.
Hypothesis R_trans : ∀ set1 set2 set3, R set1 set2 → R set2 set3 → R set1 set3.
Hypothesis R_send : ∀ set (js : list (Judgement Obj)) set',
  send_all set js = Some set' → R set set'.
Hypothesis R_lists : ∀ set q l, R set (set_lists set q l).

Lemma judge_calls_inv set (kept rest : list Obj) (g1 : Obj)
  (calls : list (Judgement Obj)) set1 :
  send_all (set_lists set (queue set) (kept ++ g1 :: rest)) calls = Some set1 →
  R set set1
  ∧ timeline set1
    = (queue set, (kept ++ [g1]) ++ rest, ended set, endListener set, endLog set).
Proof.
  intros H1. split.
  - eapply R_trans; [apply R_lists|]. by eapply R_send.
  - apply send_all_timeline in H1. rewrite H1. unfold timeline. simpl.
    by rewrite <- app_assoc.
Qed.

Lemma click_loop_inv (player : difficultyPlayer) (input : CursorInput) time
  (rest kept : list Obj) set p set' p' :
  click_loop player input time kept rest set p = Some (set', p') →
  processed set = kept ++ rest →
  R set set'
  ∧ ∃ rest', timeline set'
             = (queue set, kept ++ rest', ended set, endListener set, endLog set)
      ∧ length rest' = length rest.
Proof.
  revert kept set p. induction rest as [|g rest IH]; intros kept set p; simpl.
  - intros [= <- <-] Hp. split; [done|]. exists []. unfold timeline. by rewrite Hp.
  - destruct (UpdateClickFor set g player input p time) as [[[g1 p1] calls] b].
    intros Hl _. destruct (send_all _ calls) as [set1|] eqn:H1; [|done].
    cbn [mbind option_bind] in Hl.
    apply judge_calls_inv in H1 as [HR1 Ht1].
    unfold timeline in Ht1. injection Ht1 as Hq1 Hp1 He1 Hl1 Hlog1.
    apply IH in Hl as [HR (rest' & Ht & Hlen)]; [|done].
    split; [by eapply R_trans|].
    exists (g1 :: rest'). rewrite Ht, Hq1, He1, Hl1, Hlog1, <- app_assoc.
    split; [done|]. simpl. lia.
Qed.

Lemma postFor_loop_inv (player : difficultyPlayer) (input : CursorInput) time
  (ahead : bool) (rest kept : list Obj) set p set' p' :
  postFor_loop player input time ahead kept rest set p = Some (set', p') →
  processed set = kept ++ rest →
  R set set'
  ∧ ∃ rest', timeline set'
             = (queue set, kept ++ rest', ended set, endListener set, endLog set)
      ∧ length rest' = length rest.
Proof.
  revert kept set p. induction rest as [|g rest IH]; intros kept set p; simpl.
  - intros [= <- <-] Hp. split; [done|]. exists []. unfold timeline. by rewrite Hp.
  - destruct (UpdatePostFor set g player input p time ahead) as [[[g1 p1] calls] b].
    intros Hl _. destruct (send_all _ calls) as [set1|] eqn:H1; [|done].
    cbn [mbind option_bind] in Hl.
    apply judge_calls_inv in H1 as [HR1 Ht1].
    unfold timeline in Ht1. injection Ht1 as Hq1 Hp1 He1 Hl1 Hlog1.
    apply IH in Hl as [HR (rest' & Ht & Hlen)]; [|done].
    split; [by eapply R_trans|].
    exists (g1 :: rest'). rewrite Ht, Hq1, He1, Hl1, Hlog1, <- app_assoc.
    split; [done|]. simpl. lia.
Qed.

Lemma normal_loop_inv (cursor : Cursor) (player : difficultyPlayer)
  (input : CursorInput) time (ahead was : bool) (rest kept : list Obj)
  set p set' p' :
  normal_loop cursor player input time ahead was kept rest set p = Some (set', p') →
  processed set = kept ++ rest →
  R set set'
  ∧ ∃ rest', timeline set'
             = (queue set, kept ++ rest', ended set, endListener set, endLog set)
      ∧ length rest' = length rest
      ∧ ∀ j g, rest !! j = Some g → gated cursor g = true →
          (was = true
           ∨ ∃ i gi, (i < j)%nat ∧ rest !! i = Some gi ∧ gated cursor gi = true
                     ∧ IsHit gi player = false) →
          rest' !! j = Some g.
Proof.
  revert kept set p was. induction rest as [|g rest IH]; intros kept set p was; simpl.
  - intros [= <- <-] Hp. split; [done|]. exists []. unfold timeline.
    rewrite Hp. by split_and!.
  - fold (gated cursor g).
    destruct (gated cursor g && was) eqn:Hskip.
    + intros Hl Hp. apply IH in Hl as [HR (rest' & Ht & Hlen & Hkeep)].
      2:{ by rewrite Hp, <- app_assoc. }
      split; [done|]. exists (g :: rest'). rewrite Ht, <- app_assoc.
      split_and!; [done|simpl; lia|].
      apply andb_prop in Hskip as [Hg ->].
      intros [|j] g' Hj Hg' Hpre; simpl in *; [congruence|].
      apply (Hkeep j g' Hj Hg'). by left.
    + destruct (UpdateFor set g player input p time ahead) as [[[g1 p1] calls] b].
      intros Hl _. destruct (send_all _ calls) as [set1|] eqn:H1; [|done].
      cbn [mbind option_bind] in Hl.
      apply judge_calls_inv in H1 as [HR1 Ht1].
      unfold timeline in Ht1. injection Ht1 as Hq1 Hp1 He1 Hl1 Hlog1.
      apply IH in Hl as [HR (rest' & Ht & Hlen & Hkeep)]; [|done].
      split; [by eapply R_trans|].
      exists (g1 :: rest'). rewrite Ht, Hq1, He1, Hl1, Hlog1, <- app_assoc.
      split_and!; [done|simpl; lia|].
      intros [|j] g' Hj Hg' Hpre; simpl in *.
      * injection Hj as ->. destruct Hpre as [->|(i & gi & Hi & _)]; [|lia].
        rewrite Hg' in Hskip. done.
      * apply (Hkeep j g' Hj Hg').
        destruct Hpre as [->|(i & gi & Hi & Hgi & Hgated & Hhit)].
        -- left. by destruct (gated cursor g && negb (IsHit g player)).
        -- destruct i as [|i]; simpl in Hgi.
           ++ injection Hgi as ->. left. by rewrite Hgated, Hhit.
           ++ right. exists i, gi. split_and!; [lia|done..].
Qed.

Lemma run_pass_inv set (cursor : Cursor) (input : CursorInput) p time
  (pass : Pass) set' p' :
  run_pass set cursor input p time pass = Some (set', p') →
  R set set'
  ∧ queue set' = queue set
  ∧ length (processed set') = length (processed set)
  ∧ ended set' = ended set ∧ endListener set' = endListener set
  ∧ endLog set' = endLog set.
Proof.
  destruct pass as [|ahead|ahead]; simpl.
  - unfold OsuRuleSet_UpdateClickFor.
    destruct (cursors set !! ptr cursor) as [s|]; [|done]. cbn [mbind option_bind].
    destruct (_ && negb (failed s)).
    + destruct (click_loop _ _ _ _ _ _ _) as [[set1 p2]|] eqn:Hl; [|done].
      cbn [mbind option_bind]. intros [= <- <-].
      apply click_loop_inv in Hl as [HR (rest' & Ht & Hlen)]; [|done].
      unfold timeline in Ht. injection Ht as -> -> -> -> ->. by split_and!.
    + cbn [mbind option_bind]. intros [= <- <-]. by split_and!.
  - unfold UpdateNormalFor.
    destruct (cursors set !! ptr cursor) as [s|]; [|done]. cbn [mbind option_bind].
    intros Hl. apply normal_loop_inv in Hl as [HR (rest' & Ht & Hlen & _)]; [|done].
    unfold timeline in Ht. injection Ht as -> -> -> -> ->. by split_and!.
  - unfold OsuRuleSet_UpdatePostFor.
    destruct (cursors set !! ptr cursor) as [s|]; [|done]. cbn [mbind option_bind].
    intros Hl. apply postFor_loop_inv in Hl as [HR (rest' & Ht & Hlen)]; [|done].
    unfold timeline in Ht. injection Ht as -> -> -> -> ->. by split_and!.
Qed.

End PassRelation.

(** X21.  The per-player passes neither activate nor retire an object:
    [UpdateClickFor], [UpdateNormalFor] and [UpdatePostFor] keep the queue,
    the number of judges in [processed], the ended flag and the calls made
    to the end listener. *)
Theorem pass_keeps_objects set (cursor : Cursor) (input : CursorInput) p time
  (pass : Pass) set' p' :
  run_pass set cursor input p time pass = Some (set', p') →
  queue set' = queue set
  ∧ length (processed set') = length (processed set)
  ∧ ended set' = ended set
  ∧ endLog set' = endLog set.
Proof.
  intros Hp.
  apply (run_pass_inv (λ _ _, True)) in Hp as (_ & ? & ? & ? & ? & ?); done.
Qed.

(** X22.  Whatever the judges do in a per-player pass, a player that has
    failed stays failed and the fail listener is called for a player at
    most once, and not at all for one that had failed before. *)
Theorem pass_failed_terminal set (cursor : Cursor) (input : CursorInput) p time
  (pass : Pass) set' p' c s :
  run_pass set cursor input p time pass = Some (set', p') →
  cursors set !! c = Some s →
  ∃ s', cursors set' !! c = Some s' ∧
    (failed s = true → failed s' = true) ∧
    (fail_calls set' c ≤ fail_calls set c + (if failed s then 0 else 1))%nat.
Proof.
  intros Hp Hs.
  apply (run_pass_inv fail_mono) in Hp as (Hm & _).
  - destruct (Hm c s Hs) as (s' & Hs' & Hf & Hn).
    exists s'. split_and!; [done|done|].
    destruct (failed s), (failed s'); simpl in *; lia.
  - apply fail_mono_refl.
  - apply fail_mono_trans.
  - intros set0 js set1. apply send_all_mono.
  - apply fail_mono_lists.
Qed.

(** X23.  For a replay cursor, [UpdateNormalFor] updates no slider that
    comes after a slider the player has not resolved: such a slider keeps
    its state and its place in [processed]. *)
Theorem UpdateNormalFor_sliders set (cursor : Cursor) (input : CursorInput) p time
  (ahead : bool) set' p' s (i j : nat) (gi gj : Obj) :
  UpdateNormalFor set cursor input p time ahead = Some (set', p') →
  cursors set !! ptr cursor = Some s →
  IsAutoplay cursor = false → IsPlayer cursor = false →
  (i < j)%nat →
  processed set !! i = Some gi → isSlider gi = true → IsHit gi (player s) = false →
  processed set !! j = Some gj → isSlider gj = true →
  processed set' !! j = Some gj.
Proof.
  intros Hu Hs Ha Hpl Hij Hi Hsi Hhit Hj Hsj.
  unfold UpdateNormalFor in Hu. rewrite Hs in Hu. cbn [mbind option_bind] in Hu.
  apply (normal_loop_inv (λ _ _, True)) in Hu as [_ (rest' & Ht & Hlen & Hkeep)];
    try done.
  unfold timeline in Ht. injection Ht as _ -> _ _ _. simpl.
  apply (Hkeep j gj Hj).
  - unfold gated. by rewrite Ha, Hpl, Hsj.
  - right. exists i, gi. split_and!; try done. unfold gated. by rewrite Ha, Hpl, Hsi.
Qed.

(** X24.  [UpdateClickFor] for a player that has failed, or with nothing
    in [processed], calls no judge and leaves the coordinator as it is.  It
    still clears [alreadyStolen]; for a replay frame or a player cursor it
    sets the click conditions to the buttons that went down since the last
    call and takes over the buttons of the cursor; for other cursors the
    buttons and the conditions stay. *)
Theorem UpdateClickFor_failed set (cur : Cursor) (input : CursorInput) p time s :
  cursors set !! ptr cur = Some s →
  failed s = true ∨ processed set = [] →
  ∃ p',
    OsuRuleSet_UpdateClickFor set cur input p time = Some (set, p')
    ∧ alreadyStolen p' = false
    ∧ DoubleClick p' = DoubleClick p
    ∧ (IsReplayFrame input || IsPlayer (cursor (player s)) = true →
       leftCond p' = negb (buttonState.Left (buttons p)) && LeftButton input
       ∧ rightCond p' = negb (buttonState.Right (buttons p)) && RightButton input
       ∧ leftCondE p' = leftCond p' ∧ rightCondE p' = rightCond p'
       ∧ buttons p'
         = {| buttonState.Left := LeftButton input;
              buttonState.Right := RightButton input |})
    ∧ (IsReplayFrame input || IsPlayer (cursor (player s)) = false →
       buttons p' = buttons p ∧ leftCond p' = leftCond p
       ∧ rightCond p' = rightCond p ∧ mouseDownButton p' = mouseDownButton p).
Proof.
  intros Hs Hf. unfold OsuRuleSet_UpdateClickFor. rewrite Hs.
  cbn [mbind option_bind].
  assert ((0 <? Z.of_nat (length (processed set))) && negb (failed s) = false) as ->.
  { destruct Hf as [->| ->]; [apply andb_false_r|done]. }
  cbn [mbind option_bind]. eexists. split; [done|].
  unfold click_buttons, click_edges.
  destruct (IsReplayFrame input || IsPlayer _); cbn.
  - destruct (negb _ || negb _); cbn; by split_and!.
  - by split_and!.
Qed.

(** X25.  After [UpdateClickFor] for a replay frame or a player cursor the
    stored buttons are the ones of the cursor, whatever the judges did.  So
    the next call hands the judges a click condition for a button exactly
    when the button is down and was up at the previous call; with
    unchanged buttons there is no click, and the pressed-button state is
    kept. *)
Theorem click_on_rising_edge set (cur : Cursor) (input1 input2 : CursorInput)
  p time set1 p1 s :
  OsuRuleSet_UpdateClickFor set cur input1 p time = Some (set1, p1) →
  cursors set !! ptr cur = Some s →
  IsReplayFrame input1 || IsPlayer (cursor (player s)) = true →
  IsReplayFrame input2 || IsPlayer (cursor (player s)) = true →
  let p2 := click_edges (player s) input2 p1 in
  buttons p1
  = {| buttonState.Left := LeftButton input1;
       buttonState.Right := RightButton input1 |}
  ∧ buttonState.BothReleased (buttons p1)
    = negb (LeftButton input1 || RightButton input1)
  ∧ leftCond p2 = negb (LeftButton input1) && LeftButton input2
  ∧ rightCond p2 = negb (RightButton input1) && RightButton input2
  ∧ (LeftButton input2 = LeftButton input1 →
     RightButton input2 = RightButton input1 →
     leftCond p2 = false ∧ rightCond p2 = false
     ∧ mouseDownButton p2 = mouseDownButton p1
     ∧ gameDownState p2 = gameDownState p1).
Proof.
  intros Hu Hs Ht1 Ht2. unfold OsuRuleSet_UpdateClickFor in Hu. rewrite Hs in Hu.
  cbn [mbind option_bind] in Hu.
  destruct (if _ && negb (failed s) then _ else _) as [[set' pm]|]; [|done].
  cbn [mbind option_bind] in Hu. injection Hu as <- <-.
  unfold click_buttons, click_edges. rewrite Ht1, Ht2. cbn.
  split_and!; try done.
  - destruct (negb _ || negb _); done.
  - destruct (negb _ || negb _); done.
  - intros -> ->. rewrite !eqb_reflx. cbn.
    split_and!; try done; by destruct (LeftButton input1), (RightButton input1).
Qed.

End PassProperties.

(** ** The equipment of a player *)

Lemma land_lor_same (a b : Z) : Z.land (Z.lor a b) b = b.
Proof.
  apply Z.bits_inj'. intros n Hn.
  rewrite Z.land_spec, Z.lor_spec. by destruct (Z.testbit a n), (Z.testbit b n).
Qed.

Lemma new_player_equipped (beatMap : BeatMap) (cur : Cursor) (mod_ : Modifier)
  (ps ps1 : list difficultyPlayer) (od od1 : gmap Z (list Attributes))
  (m m1 : gmap nat subSet) :
  new_player beatMap cur mod_ (ps, od, m) = Some (ps1, od1, m1) →
  ∃ s1, m1 = <[ptr cur := s1]> m ∧ equipped beatMap s1.
Proof.
  unfold new_player. intros Hn.
  destruct (od !! GetDiffMaskedMods mod_) as [l|].
  - cbn [mbind option_bind] in Hn. injection Hn as <- <- <-.
    eexists. split; [done|]. unfold equipped. cbn. split_and!; try done.
    apply land_lor_same.
  - cbn [mbind option_bind] in Hn.
    destruct (index _ _) as [star|]; [|done].
    cbn [mbind option_bind] in Hn. injection Hn as <- <- <-.
    eexists. split; [done|]. unfold equipped. cbn. split_and!; try done.
    apply land_lor_same.
Qed.

Lemma new_players_equipped (beatMap : BeatMap) (cs : list Cursor) (ms : list Modifier)
  (ps ps' : list difficultyPlayer) (od od' : gmap Z (list Attributes))
  (m m' : gmap nat subSet) :
  new_players beatMap cs ms (ps, od, m) = Some (ps', od', m') →
  (∀ k s, m !! k = Some s → equipped beatMap s) →
  ∀ k s, m' !! k = Some s → equipped beatMap s.
Proof.
  revert ms ps od m. induction cs as [|cur cs IH]; intros ms ps od m;
    cbn [new_players].
  - intros [= <- <- <-]. done.
  - destruct ms as [|mod_ ms]; [done|].
    destruct (new_player beatMap cur mod_ (ps, od, m)) as [[[ps1 od1] m1]|] eqn:H1;
      [|done].
    cbn [mbind option_bind]. intros Hn Hm.
    apply new_player_equipped in H1 as (s1 & -> & He).
    eapply IH; [exact Hn|].
    intros k s. rewrite lookup_insert. case_decide; [|by apply Hm].
    by intros [= <-].
Qed.

(** X26.  Every player of a set that the constructor returns is equipped
    as lines 280, 320-322 and 337-359 say, whatever the number of players
    and whether the difficulty attributes of its modifiers were computed
    for it or for an earlier player: its modifiers contain the ScoreV2 bit
    of the map when the map has it, its score processor is the ScoreV2 one
    exactly when its own modifiers have that bit and the ScoreV1 one
    otherwise, its health processor is a fresh one made for its difficulty,
    its performance calculator reads the file of the map, and its pp
    calculator is a zero value. *)
Theorem NewOsuRuleset_equipped (beatMap : BeatMap) (cs : list Cursor)
  (ms : list Modifier) set k s :
  NewOsuRuleset beatMap cs ms = Some set →
  cursors set !! k = Some s →
  Z.land (Mods (diff (player s))) (Z.land (Diff_Mods beatMap) ScoreV2)
  = Z.land (Diff_Mods beatMap) ScoreV2
  ∧ scoreProcessor s
    = (if CheckModActive (diff (player s)) ScoreV2
       then newScoreV2Processor beatMap (player s)
       else newScoreV1Processor beatMap (player s))
  ∧ hp s
    = NewHealthProcessor beatMap (diff (player s))
        (negb (OldSpinnerScoring (cursor (player s))))
  ∧ MapPath (performance s) = SongPath beatMap
  ∧ ppv2 s = PPv2_zero.
Proof.
  unfold NewOsuRuleset. intros Hn.
  destruct (new_players _ _ _ _) as [[[ps od] m]|] eqn:Hp; [|done].
  cbn [mbind option_bind] in Hn. injection Hn as <-. simpl. intros Hs.
  eapply (new_players_equipped _ _ _ _ _ _ _ _ _ Hp); [|exact Hs].
  intros k' s'. by rewrite lookup_empty.
Qed.


(** ** The health of the players *)

Lemma send_all_nil set : send_all set ([] : list (Judgement Obj)) = Some set.
Proof. done. Qed.

Lemma post_loop_quiet time (rest kept : list Obj) set set' :
  (∀ g, g ∈ rest → (UpdatePost g time).1.2 = []) →
  post_loop time kept rest set = Some set' →
  cursors set' = cursors set ∧ hitLog set' = hitLog set ∧ failLog set' = failLog set.
Proof.
  revert kept set. induction rest as [|g rest IH]; intros kept set Hq; simpl.
  - by intros [= <-].
  - pose proof (Hq g ltac:(by apply elem_of_cons; left)) as Hg.
    destruct (UpdatePost g time) as [[g1 calls] isDone]. simpl in Hg. subst calls.
    assert (∀ g', g' ∈ rest → (UpdatePost g' time).1.2 = []) as Hq'.
    { intros g' Hg'. apply Hq. by apply elem_of_cons; right. }
    simpl. destruct isDone; [destruct (endListener set)|];
      intros Hp; apply IH in Hp; done.
Qed.

Lemma hp_ticks_quiet time (cs : list nat) set :
  NoDup cs →
  (∀ c, c ∈ cs → ∃ s, cursors set !! c = Some s ∧ hpUpdate_fails (hp s) time = false) →
  ∃ set',
    hp_ticks time set cs = Some set'
    ∧ failLog set' = failLog set
    ∧ ∀ k, cursors set' !! k
           = if decide (k ∈ cs)
             then (λ s, set_hp s (hpUpdate (hp s) time)) <$> cursors set !! k
             else cursors set !! k.
Proof.
  revert set. induction cs as [|c cs IH]; intros set Hnd Hall; cbn [hp_ticks].
  - eexists. split_and!; [done..|]. intros k. rewrite decide_False; [done|].
    apply not_elem_of_nil.
  - apply NoDup_cons in Hnd as [Hc Hnd].
    destruct (Hall c ltac:(by apply elem_of_cons; left)) as (s & Hs & Hf).
    unfold hp_tick. rewrite Hs. cbn [mbind option_bind set_hp hp player]. rewrite Hf.
    cbn [failEvent mbind option_bind].
    destruct (IH (store set c (set_hp s (hpUpdate (hp s) time))) Hnd)
      as (set' & Ht & Hlog & Hk).
    { intros k Hkin. destruct (Hall k ltac:(by apply elem_of_cons; right))
        as (sk & Hsk & Hfk).
      exists sk. split; [|done]. rewrite lookup_store.
      case_decide; [by subst|done]. }
    exists set'. split_and!; [done|done|].
    intros k. rewrite Hk, lookup_store.
    destruct (decide (c = k)) as [->|Hne].
    + rewrite decide_False by done. rewrite decide_True by (by apply elem_of_cons; left).
      by rewrite Hs.
    + destruct (decide (k ∈ cs)).
      * by rewrite decide_True by (by apply elem_of_cons; right).
      * rewrite decide_False; [done|]. rewrite elem_of_cons. intros [?|?]; congruence.
Qed.

(** X27.  The health tick of [Update] (lines 418-420) reaches every player,
    the failed ones too: when no judge of the processed list reports a
    result in the late update and no health processor raises the fail
    event, a call that returns has replaced the health processor of each
    player by its update at [time] and changed nothing else in the
    players, and it has called neither the hit listener nor the fail
    listener. *)
Theorem Update_health_tick set time set' :
  Update set time = Some set' →
  (∀ g, g ∈ processed set → (UpdatePost g time).1.2 = []) →
  (∀ c s, cursors set !! c = Some s → hpUpdate_fails (hp s) time = false) →
  cursors set' = (λ s, set_hp s (hpUpdate (hp s) time)) <$> cursors set
  ∧ hitLog set' = hitLog set ∧ failLog set' = failLog set.
Proof.
  unfold Update. intros Hu Hquiet Hfails.
  destruct (post_loop _ _ _ _) as [set1|] eqn:H1; [|done].
  cbn [mbind option_bind] in Hu.
  destruct (activate _ _ _) as [q p].
  apply post_loop_quiet in H1 as (Hc1 & Hh1 & Hf1); [|done].
  destruct (hp_ticks_quiet time (map_to_list (cursors (set_lists set1 q p))).*1
              (set_lists set1 q p)) as (set3 & H3 & Hf3 & Hk).
  { apply NoDup_fst_map_to_list. }
  { intros c [[c' s] [-> Hcs]]%list_elem_of_fmap. simpl in *.
    apply elem_of_map_to_list in Hcs. exists s. split; [done|].
    apply (Hfails c'). by rewrite <- Hc1. }
  pose proof (hp_ticks_board _ _ _ _ H3) as Hb. unfold board in Hb.
  injection Hb as _ _ _ _ _ _ _ _ Hh3 _.
  rewrite H3 in Hu. cbn [mbind option_bind] in Hu.
  assert (cursors set3 = (λ s, set_hp s (hpUpdate (hp s) time)) <$> cursors set) as Hc3.
  { apply map_eq. intros k. rewrite Hk, lookup_fmap.
    change (cursors (set_lists set1 q p)) with (cursors set1). rewrite Hc1.
    case_decide as Hin; [done|].
    destruct (cursors set !! k) as [s|] eqn:Hs; [|done].
    exfalso. apply Hin. apply list_elem_of_fmap. exists (k, s). split; [done|].
    by apply elem_of_map_to_list. }
  simpl in Hf3, Hh3.
  destruct (_ && _); injection Hu as <-; simpl; split_and!; congruence.
Qed.

Lemma SendResult_hp set time c (src : Obj) x y r cr set' :
  SendResult set time c src x y r cr = Some set' →
  (r =? Ignore) || (r =? PositionalMiss) = false →
  ∃ s0 s1 r' cr',
    cursors set !! c = Some s0
    ∧ aggregate set s0 src r cr = Some (s1, r', cr')
    ∧ hitLog set'
      = hitLog set
        ++ (if hitListener set
            then [hit_event s1 c time (GetNumber src) x y r' cr'] else [])
    ∧ (sdpfFail s1 = false → hpAddResult_fails (hp s0) r' = false →
       cursors set' = <[c := set_hp s1 (hpAddResult (hp s0) r')]> (cursors set)
       ∧ failLog set' = failLog set).
Proof.
  unfold SendResult. intros Hs Hr. rewrite Hr in Hs.
  destruct (cursors set !! c) as [s0|] eqn:Hs0; [|done].
  cbn [mbind option_bind] in Hs.
  destruct (aggregate set s0 src r cr) as [[[s1 r1] cr1]|] eqn:Ha; [|done].
  cbn [mbind option_bind] in Hs.
  destruct (aggregate_frame _ _ _ _ _ _ _ _ Ha) as (_ & Hhp & _).
  destruct (failEvent _ _ _) as [set1|] eqn:He; [|done].
  cbn [mbind option_bind] in Hs.
  exists s0, s1, r1, cr1. split; [done|]. split; [done|].
  pose proof (failEvent_frame _ _ _ _ He) as [_ Hb]. unfold board in Hb.
  injection Hb as _ _ _ _ _ Hhl _ _ Hlog _. simpl in Hhl, Hlog.
  split.
  - rewrite <- Hhl. destruct (hitListener set1); injection Hs as <-; simpl.
    + by rewrite Hlog.
    + by rewrite Hlog, app_nil_r.
  - intros Hsd Hnf. rewrite Hsd, Hhp, Hnf in He. cbn [failEvent] in He.
    injection He as <-.
    destruct (hitListener _); by injection Hs as <-.
Qed.

(** X28.  The health processor is fed the result that the hit listener is
    told (lines 703-711): a result that is neither [Ignore] nor
    [PositionalMiss], sent for a player of the set with a hit listener
    registered, makes exactly one call of the listener; unless the player
    is failed by sudden death or perfect, or the health processor raises
    the fail event, the health processor of the player is afterwards the
    old one with [AddResult] applied to the result of that call, and the
    recoveries, the failed flag and the log of the fail listener are
    unchanged. *)
Theorem SendResult_health set time c (src : Obj) x y r cr set' s0 :
  hitListener set = true →
  (r =? Ignore) || (r =? PositionalMiss) = false →
  SendResult set time c src x y r cr = Some set' →
  cursors set !! c = Some s0 →
  ∃ e s',
    hitLog set' = hitLog set ++ [e]
    ∧ cursors set' !! c = Some s'
    ∧ (sdpfFail s' = false → hpAddResult_fails (hp s0) (he_result e) = false →
       hp s' = hpAddResult (hp s0) (he_result e)
       ∧ recoveries s' = recoveries s0 ∧ failed s' = failed s0
       ∧ failLog set' = failLog set).
Proof.
  intros Hl Hr Hs Hs0.
  destruct (SendResult_inv _ _ _ _ _ _ _ _ _ Hs Hr)
    as (s0' & s1' & r'' & cr'' & s' & Hs0' & Ha' & Hs' & Hsame & _).
  destruct (SendResult_hp _ _ _ _ _ _ _ _ _ Hs Hr)
    as (s0'' & s1 & r' & cr' & Hs0'' & Ha & Hlog & Hq).
  assert (s0' = s0) as -> by congruence.
  assert (s0'' = s0) as -> by congruence.
  assert (s1' = s1) as -> by congruence.
  rewrite Hl in Hlog.
  eexists _, s'. split; [exact Hlog|]. split; [exact Hs'|].
  cbn [he_result hit_event].
  destruct Hsame as (_ & _ & _ & _ & _ & _ & _ & _ & _ & Hsd).
  intros Hsd' Hnf. rewrite Hsd in Hsd'.
  destruct (Hq Hsd' Hnf) as [Hc Hfl].
  rewrite Hc, lookup_insert in Hs'. rewrite decide_True in Hs' by done.
  injection Hs' as <-.
  destruct (aggregate_frame _ _ _ _ _ _ _ _ Ha) as (_ & _ & Hre & Hfa & _).
  by split_and!.
Qed.

End Coverage.

(** * The score overlay *)

Section OverlayProperties.

Context {hr : HitResults}.
Context {Glider SpriteManager Sprite Track : Type}.
Context {gl : Gliders Glider} {sm : Sprites SpriteManager Sprite} {tr : Tracks Track}.

Abbreviation Overlay := (@ScoreOverlay.t Glider SpriteManager Track).
Abbreviation OverlayEvent := (@ScoreOverlay.Event Track).

Implicit Types (ov : Overlay) (es : list OverlayEvent).

Lemma button_spec time (last now : bool) (scale : Glider) lastC count :
  ∃ scale' lastC',
    ScoreOverlay.button time last now scale lastC count
    = (scale', lastC',
       if negb last && now then Go.int64 (count + 1) else count).
Proof.
  unfold ScoreOverlay.button. destruct (negb last && now); eexists _, _; reflexivity.
Qed.

(** What a call of [Update] that returns does to the counters. *)
Lemma overlay_Update_inv ov time space start input ov' :
  ScoreOverlay.Update ov time space start input = Some ov' →
  ScoreOverlay.newCombo ov' = ScoreOverlay.newCombo ov
  ∧ (ScoreOverlay.combo ov' = ScoreOverlay.combo ov
     ∨ ScoreOverlay.combo ov' = ScoreOverlay.newCombo ov)
  ∧ ScoreOverlay.combobreaks ov' = ScoreOverlay.combobreaks ov
  ∧ ScoreOverlay.countLeft ov'
    = (if negb (ScoreOverlay.lastLeft ov) && LeftButton input
       then Go.int64 (ScoreOverlay.countLeft ov + 1)
       else ScoreOverlay.countLeft ov)
  ∧ ScoreOverlay.countRight ov'
    = (if negb (ScoreOverlay.lastRight ov) && RightButton input
       then Go.int64 (ScoreOverlay.countRight ov + 1)
       else ScoreOverlay.countRight ov)
  ∧ ScoreOverlay.lastLeft ov' = LeftButton input
  ∧ ScoreOverlay.lastRight ov' = RightButton input
  ∧ ScoreOverlay.lastTime ov' = time
  ∧ (is_Some (ScoreOverlay.music ov') ↔ is_Some (ScoreOverlay.music ov)).
Proof.
  unfold ScoreOverlay.Update. intros Hu.
  destruct (if space then _ else _) as [music1|] eqn:Hm; [|done].
  cbn [mbind option_bind] in Hu.
  destruct (time =? 2 ^ 63 - 1); [done|].
  destruct (ScoreOverlay.glide _ _ _) as [[[[scale scaleB] fadeB] scoreG] ppG].
  destruct (button_spec time (ScoreOverlay.lastLeft ov) (LeftButton input)
              (ScoreOverlay.leftScale ov) (ScoreOverlay.lastLeftC ov)
              (ScoreOverlay.countLeft ov)) as (sl & cl & Hbl).
  destruct (button_spec time (ScoreOverlay.lastRight ov) (RightButton input)
              (ScoreOverlay.rightScale ov) (ScoreOverlay.lastRightC ov)
              (ScoreOverlay.countRight ov)) as (sr & cr & Hbr).
  rewrite Hbl, Hbr in Hu. injection Hu as <-. cbn.
  split_and!; try done.
  - destruct (_ && Go.Qltb _ _); [by right|by left].
  - destruct space.
    + destruct start as [s|]; [|done]. cbn [mbind option_bind] in Hm.
      destruct (7000 <? _).
      * destruct (ScoreOverlay.music ov) as [track|]; [|done].
        cbn [mbind option_bind] in Hm. injection Hm as <-. by split.
      * by injection Hm as <-.
    + by injection Hm as <-.
Qed.

(** [Update] returns exactly on the frames that [safe] accepts. *)
Lemma overlay_Update_returns ov time space start input :
  is_Some (ScoreOverlay.Update ov time space start input)
  ↔ ScoreOverlay.safe (bool_decide (is_Some (ScoreOverlay.music ov)))
      ([ScoreOverlay.Frame time space start input] : list OverlayEvent) = true.
Proof.
  unfold ScoreOverlay.Update. cbn [ScoreOverlay.safe]. rewrite andb_true_r.
  destruct space.
  - destruct start as [s|]; cbn [mbind option_bind].
    + destruct (7000 <? _).
      * destruct (ScoreOverlay.music ov) as [track|]; cbn [mbind option_bind].
        -- rewrite bool_decide_true by done. cbn.
           destruct (time =? _); cbn.
           ++ split; [by intros [? ?]|done].
           ++ destruct (ScoreOverlay.glide _ _ _) as [[[[? ?] ?] ?] ?].
              destruct (ScoreOverlay.button _ _ _ _ _ _) as [[? ?] ?].
              destruct (ScoreOverlay.button _ _ _ _ _ _) as [[? ?] ?].
              done.
        -- rewrite bool_decide_false by (by intros [? ?]). cbn.
           split; [by intros [? ?]|done].
      * cbn. destruct (time =? _); cbn.
        -- split; [by intros [? ?]|done].
        -- destruct (ScoreOverlay.glide _ _ _) as [[[[? ?] ?] ?] ?].
           destruct (ScoreOverlay.button _ _ _ _ _ _) as [[? ?] ?].
           destruct (ScoreOverlay.button _ _ _ _ _ _) as [[? ?] ?].
           done.
    + cbn. split; [by intros [? ?]|done].
  - cbn [mbind option_bind]. cbn. destruct (time =? _); cbn.
    + split; [by intros [? ?]|done].
    + destruct (ScoreOverlay.glide _ _ _) as [[[[? ?] ?] ?] ?].
      destruct (ScoreOverlay.button _ _ _ _ _ _) as [[? ?] ?].
      destruct (ScoreOverlay.button _ _ _ _ _ _) as [[? ?] ?].
      done.
Qed.

Lemma streak_bounds es n :
  0 <= n → 0 <= ScoreOverlay.streak es n <= n + Z.of_nat (length es).
Proof.
  revert n. induction es as [|e es IH]; intros n Hn; cbn [ScoreOverlay.streak length].
  - lia.
  - destruct e as [? ? ? [| |] ? ? ?| |].
    + specialize (IH 0). lia.
    + specialize (IH n). lia.
    + specialize (IH (n + 1)). lia.
    + specialize (IH n). lia.
    + specialize (IH n). lia.
Qed.

Lemma presses_bounds pick es last :
  0 <= ScoreOverlay.presses pick es last <= Z.of_nat (length es).
Proof.
  revert last. induction es as [|e es IH]; intros last;
    cbn [ScoreOverlay.presses length].
  - lia.
  - destruct e as [| ? ? ? input|].
    + specialize (IH last). lia.
    + specialize (IH (pick input)). destruct (negb last && pick input); lia.
    + specialize (IH last). lia.
Qed.

Lemma overlay_run_combo es ov ov' :
  ScoreOverlay.run ov es = Some ov' →
  0 <= ScoreOverlay.newCombo ov →
  ScoreOverlay.newCombo ov + Z.of_nat (length es) < 2 ^ 63 →
  0 <= ScoreOverlay.combo ov →
  ScoreOverlay.newCombo ov - 1 <= ScoreOverlay.combo ov <= ScoreOverlay.newCombo ov →
  ScoreOverlay.newCombo ov' = ScoreOverlay.streak es (ScoreOverlay.newCombo ov)
  ∧ 0 <= ScoreOverlay.combo ov'
  ∧ ScoreOverlay.newCombo ov' - 1 <= ScoreOverlay.combo ov' <= ScoreOverlay.newCombo ov'
  ∧ ScoreOverlay.combobreaks ov'
    = (ScoreOverlay.combobreaks ov
       + ScoreOverlay.breaks es (ScoreOverlay.newCombo ov))%nat.
Proof.
  revert ov. induction es as [|e es IH]; intros ov;
    cbn [ScoreOverlay.run ScoreOverlay.streak ScoreOverlay.breaks length].
  - intros [= <-] _ _ H0 Hlag. split_and!; [done|done|lia|lia|lia].
  - intros Hrun Hn Hlen H0 Hlag.
    destruct (ScoreOverlay.step ov e) as [ov1|] eqn:Hstep; [|done].
    cbn [mbind option_bind] in Hrun.
    destruct e as [time position result cr pp score rotation
                  |time space start input|track]; cbn [ScoreOverlay.step] in Hstep.
    + injection Hstep as <-. destruct cr.
      * apply IH in Hrun as (H1 & H2 & H3 & H4); cbn in *; [|lia..].
        split_and!; [done|done|lia|lia|]. rewrite H4.
        destruct (20 <? ScoreOverlay.newCombo ov); lia.
      * apply IH in Hrun as (H1 & H2 & H3 & H4); cbn in *; [|lia..].
        split_and!; [done|done|lia|lia|done].
      * assert (Go.int64 (ScoreOverlay.newCombo ov + 1) = ScoreOverlay.newCombo ov + 1)
          as Hw by (apply int64_id; lia).
        apply IH in Hrun as (H1 & H2 & H3 & H4); cbn in *; rewrite ?Hw in *;
          [|lia..].
        split_and!; [done|done|lia|lia|done].
    + apply overlay_Update_inv in Hstep as (Hnc & Hc & Hb & _).
      apply IH in Hrun as (H1 & H2 & H3 & H4); rewrite ?Hnc, ?Hb in *;
        [|lia..].
      split_and!; [done|done|lia|lia|done].
    + injection Hstep as <-.
      apply IH in Hrun as (H1 & H2 & H3 & H4); cbn in *; [|lia..].
      split_and!; [done|done|lia|lia|done].
Qed.

(** X29.  The combo of the overlay follows the listener: after any
    sequence of listener calls, updates and track changes that the overlay
    survives (fewer than 2^63 of them), [newCombo] is the number of
    [Increase] results since the last [Reset], whatever updates came in
    between; the combo drawn in front, [combo], is that number or one
    less, and never negative; and the combo break sound was played once
    for every [Reset] that ended a combo of more than 20. *)
Theorem overlay_combo_tracks es ov :
  ScoreOverlay.run ScoreOverlay.NewScoreOverlay es = Some ov →
  Z.of_nat (length es) < 2 ^ 63 →
  ScoreOverlay.newCombo ov = ScoreOverlay.streak es 0
  ∧ 0 <= ScoreOverlay.combo ov
  ∧ ScoreOverlay.newCombo ov - 1 <= ScoreOverlay.combo ov <= ScoreOverlay.newCombo ov
  ∧ ScoreOverlay.combobreaks ov = ScoreOverlay.breaks es 0.
Proof.
  intros Hrun Hlen.
  pose proof (overlay_run_combo es _ _ Hrun) as H. cbn in H.
  destruct H as (H1 & H2 & H3 & H4); [lia..|].
  split_and!; [done|done|lia|lia|done].
Qed.

Lemma overlay_run_keys es ov :
  0 <= ScoreOverlay.countLeft ov →
  ScoreOverlay.countLeft ov + Z.of_nat (length es) < 2 ^ 63 →
  0 <= ScoreOverlay.countRight ov →
  ScoreOverlay.countRight ov + Z.of_nat (length es) < 2 ^ 63 →
  if ScoreOverlay.safe (bool_decide (is_Some (ScoreOverlay.music ov))) es
  then ∃ ov',
         ScoreOverlay.run ov es = Some ov'
         ∧ ScoreOverlay.countLeft ov'
           = ScoreOverlay.countLeft ov
             + ScoreOverlay.presses LeftButton es (ScoreOverlay.lastLeft ov)
         ∧ ScoreOverlay.countRight ov'
           = ScoreOverlay.countRight ov
             + ScoreOverlay.presses RightButton es (ScoreOverlay.lastRight ov)
  else ScoreOverlay.run ov es = None.
Proof.
  revert ov. induction es as [|e es IH]; intros ov Hl0 Hl Hr0 Hr;
    cbn [ScoreOverlay.safe ScoreOverlay.run ScoreOverlay.presses length] in *.
  - exists ov. split_and!; [done|lia|lia].
  - destruct e as [time position result cr pp score rotation
                  |time space start input|track]; cbn [ScoreOverlay.step mbind option_bind].
    + specialize (IH (ScoreOverlay.listener ov time position result cr pp score rotation)).
      cbn in IH. apply IH; lia.
    + pose proof (overlay_Update_returns ov time space start input) as Hret.
      cbn [ScoreOverlay.safe] in Hret. rewrite andb_true_r in Hret.
      destruct (ScoreOverlay.Update ov time space start input) as [ov1|] eqn:Hu.
      * destruct Hret as [Hret _]. rewrite Hret by done.
        cbn [andb mbind option_bind].
        apply overlay_Update_inv in Hu
          as (_ & _ & _ & Hcl & Hcr & Hll & Hlr & _ & Hm).
        pose proof (presses_bounds LeftButton es (LeftButton input)) as Hpl.
        pose proof (presses_bounds RightButton es (RightButton input)) as Hpr.
        assert (ScoreOverlay.countLeft ov1
                = ScoreOverlay.countLeft ov
                  + (if negb (ScoreOverlay.lastLeft ov) && LeftButton input
                     then 1 else 0)) as Hcl'.
        { rewrite Hcl.
          destruct (negb (ScoreOverlay.lastLeft ov) && LeftButton input); [|lia].
          apply int64_id. lia. }
        assert (ScoreOverlay.countRight ov1
                = ScoreOverlay.countRight ov
                  + (if negb (ScoreOverlay.lastRight ov) && RightButton input
                     then 1 else 0)) as Hcr'.
        { rewrite Hcr.
          destruct (negb (ScoreOverlay.lastRight ov) && RightButton input); [|lia].
          apply int64_id. lia. }
        specialize (IH ov1).
        assert (bool_decide (is_Some (ScoreOverlay.music ov1))
                = bool_decide (is_Some (ScoreOverlay.music ov))) as Hbm
          by (by apply bool_decide_ext).
        rewrite Hbm, Hll, Hlr in IH.
        destruct (ScoreOverlay.safe _ es).
        -- destruct IH as (ov' & Hrun & H1 & H2).
           { destruct (negb (ScoreOverlay.lastLeft ov) && LeftButton input); lia. }
           { destruct (negb (ScoreOverlay.lastLeft ov) && LeftButton input); lia. }
           { destruct (negb (ScoreOverlay.lastRight ov) && RightButton input); lia. }
           { destruct (negb (ScoreOverlay.lastRight ov) && RightButton input); lia. }
           exists ov'. split_and!; [done|lia|lia].
        -- apply IH.
           { destruct (negb (ScoreOverlay.lastLeft ov) && LeftButton input); lia. }
           { destruct (negb (ScoreOverlay.lastLeft ov) && LeftButton input); lia. }
           { destruct (negb (ScoreOverlay.lastRight ov) && RightButton input); lia. }
           { destruct (negb (ScoreOverlay.lastRight ov) && RightButton input); lia. }
      * destruct (_ && negb _) eqn:Hs; [|done].
        destruct Hret as [_ Hret]. by destruct (Hret eq_refl).
    + specialize (IH (ScoreOverlay.SetMusic ov track)). cbn in IH. apply IH; lia.
Qed.

(** X30.  The overlay survives exactly the sequences of events that
    [safe] accepts: an update panics when the space key is down and the
    map has no object, or its first object is more than seven seconds
    ahead and no track was set; it does not return for the largest time;
    nothing else stops the overlay.  After a sequence that it survives
    (fewer than 2^63 events), each key counter is the number of updates
    that found the button down when the update before had found it up. *)
Theorem overlay_key_counters es :
  Z.of_nat (length es) < 2 ^ 63 →
  if ScoreOverlay.safe false es
  then ∃ ov,
         ScoreOverlay.run ScoreOverlay.NewScoreOverlay es = Some ov
         ∧ ScoreOverlay.countLeft ov = ScoreOverlay.presses LeftButton es false
         ∧ ScoreOverlay.countRight ov = ScoreOverlay.presses RightButton es false
  else ScoreOverlay.run ScoreOverlay.NewScoreOverlay es = None.
Proof.
  intros Hlen.
  pose proof (overlay_run_keys es ScoreOverlay.NewScoreOverlay) as H.
  cbn in H. apply H; lia.
Qed.

End OverlayProperties.

(** * Further concrete sessions *)

Section CoverageConcrete.

Import Sample SamplePasses.

#[local] Existing Instances results modifiers judges counters health performances.
#[local] Existing Instances button_bits passes.

Lemma Grade_names_distinct_witness :
  Grade.String Grade.SS ≠ Grade.String Grade.SSH
  ∧ Grade.TextureName Grade.SS ≠ Grade.TextureName Grade.SSH
  ∧ Grade.value Grade.SS ≠ Grade.value Grade.SSH.
Proof. apply (Grade_names_distinct Grade.SS Grade.SSH). discriminate. Defined.

Lemma NewOsuRuleset_short_mods_witness :
  NewOsuRuleset (st := settings) two_objects [replay_cursor 1; player_cursor 2] [0]
  = None.
Proof. apply NewOsuRuleset_short_mods. simpl. lia. Defined.

Lemma NewOsuRuleset_built_witness :
  ∃ set,
    NewOsuRuleset (st := settings) two_objects [replay_cursor 1; player_cursor 2] [0; 2]
    = Some set
    ∧ length (queue set) = 2%nat ∧ processed set = [] ∧ ended set = false
    ∧ (∀ k, is_Some (cursors set !! k) ↔ k ∈ [1%nat; 2%nat]).
Proof.
  assert (∃ set,
            NewOsuRuleset (st := settings) two_objects
              [replay_cursor 1; player_cursor 2] [0; 2] = Some set)
    as [set Hset] by (eexists; vm_compute; reflexivity).
  destruct (NewOsuRuleset_built (st := settings) two_objects
              [replay_cursor 1; player_cursor 2] [0; 2] set Hset)
    as (_ & Hq & Hp & He & _ & Hdom & _).
  exists set. split_and!; [done| |done|done|exact Hdom].
  rewrite Hq. reflexivity.
Defined.

Lemma SendResult_not_recorded_witness :
  ∃ set',
    SendResult (st := settings) (listening (new_set (replay_cursor 1) 0))
      1000 1 judge0 0 0 PositionalMiss Hold = Some set'
    ∧ cursors set' = cursors (listening (new_set (replay_cursor 1) 0))
    ∧ length (hitLog set') = 1%nat.
Proof.
  assert (∃ set',
            SendResult (st := settings) (listening (new_set (replay_cursor 1) 0))
              1000 1 judge0 0 0 PositionalMiss Hold = Some set')
    as [set' Hs] by (eexists; vm_compute; reflexivity).
  destruct (SendResult_not_recorded (st := settings)
              (listening (new_set (replay_cursor 1) 0)) 1000 1%nat judge0 0 0
              PositionalMiss Hold set')
    as (Hc & _ & _ & Hlog & _); [vm_compute; reflexivity|exact Hs|].
  exists set'. split_and!; [exact Hs|exact Hc|].
  destruct Hlog as [Hlog|(_ & _ & s & _ & _ & Hlog)].
  - vm_compute in Hs. injection Hs as <-. vm_compute in Hlog. discriminate.
  - rewrite Hlog. reflexivity.
Defined.

Lemma PlayerStopped_at_end_witness :
  PlayerStopped (st := settings) (listening (new_set (player_cursor 1) 0)) 1 1799
  = Some (listening (new_set (player_cursor 1) 0)).
Proof.
  apply (PlayerStopped_at_end (st := settings) _ 1%nat 1799
           (slider_at 1 1200 1800 false)); [reflexivity|vm_compute; discriminate].
Defined.

Lemma CanBeHit_click_window_witness :
  ∃ oObj,
    index (HitObjects overlap) (GetNumber (circle_on_slider (replay_cursor 1)))
    = Some oObj
    ∧ (Qabs (Go.float (Go.int64 (1500 - Go.trunc (GetStartTime oObj)))) < 300)%Q.
Proof.
  destruct (CanBeHit_click_window (overlap_set (replay_cursor 1)) 1500
              (circle_on_slider (replay_cursor 1))
              {| cursor := replay_cursor 1; diff := {| Mods := 0 |} |})
    as (oObj & Hi & Hw); [vm_compute; reflexivity|].
  exists oObj. split; [exact Hi|exact Hw].
Defined.

Lemma CanBeHit_ignored_witness :
  IsAutoplay (replay_cursor 1) = false ∧ IsPlayer (replay_cursor 1) = false
  ∧ ∃ prev pObj,
      processed stack_set !! 0%nat = Some prev
      ∧ index (HitObjects stack) (GetNumber prev) = Some pObj
      ∧ 0 < GetStackIndex pObj 0
      ∧ IsHit prev {| cursor := replay_cursor 1; diff := {| Mods := 0 |} |} = false.
Proof.
  destruct (CanBeHit_ignored stack_set 1100
              (Init (circle_at 1 1100 false)
                 [{| cursor := replay_cursor 1; diff := {| Mods := 0 |} |}])
              {| cursor := replay_cursor 1; diff := {| Mods := 0 |} |})
    as (Ha & Hp & Hc & k & g & prev & pObj & Hk & Hs & Hlater & Hprev & Hi & Hst & Hh);
    [vm_compute; reflexivity|].
  split_and!; [exact Ha|exact Hp|].
  destruct k as [|[|k]]; [|vm_compute in Hk; discriminate..].
  by exists prev, pObj.
Defined.

Lemma sample_wf (cur : Cursor) (mods : Modifier) : wf_cursors (new_set cur mods).
Proof.
  eapply NewOsuRuleset_wf. apply (NewOsuRuleset_sample cur mods).
Qed.

Lemma replay_fails_ignored_witness :
  ∃ set' s',
    run (st := settings_ignore) (listening (new_set (replay_cursor 1) 0))
      [CallFail 1; CallPlayerStopped 1 0] = Some set'
    ∧ cursors set' !! 1%nat = Some s'
    ∧ failed s' = false ∧ recoveries s' = 0
    ∧ fail_calls set' 1 = 0%nat.
Proof.
  assert (∃ set',
            run (st := settings_ignore) (listening (new_set (replay_cursor 1) 0))
              [CallFail 1; CallPlayerStopped 1 0] = Some set')
    as [set' Hrun] by (eexists; vm_compute; reflexivity).
  destruct (replay_fails_ignored (st := settings_ignore)
              (listening (new_set (replay_cursor 1) 0))
              [CallFail 1; CallPlayerStopped 1 0] set' 1%nat
              (new_subSet (replay_cursor 1) 0))
    as (s' & Hs' & Hf & Hr & Hn);
    [reflexivity|apply (sample_wf (replay_cursor 1) 0)|exact Hrun
    |vm_compute; reflexivity|reflexivity|].
  by exists set', s'.
Defined.

Lemma nofail_fails_only_forced_witness :
  ∃ set' s',
    run (st := settings) (listening (new_set (player_cursor 1) 1))
      [CallFail 1; CallSendResult 1100 1 judge0 0 0 Miss Reset] = Some set'
    ∧ cursors set' !! 1%nat = Some s'
    ∧ (forceFail s' = false →
       failed s' = false ∧ recoveries s' = 0 ∧ fail_calls set' 1 = 0%nat).
Proof.
  assert (∃ set',
            run (st := settings) (listening (new_set (player_cursor 1) 1))
              [CallFail 1; CallSendResult 1100 1 judge0 0 0 Miss Reset] = Some set')
    as [set' Hrun] by (eexists; vm_compute; reflexivity).
  destruct (nofail_fails_only_forced (st := settings)
              (listening (new_set (player_cursor 1) 1))
              [CallFail 1; CallSendResult 1100 1 judge0 0 0 Miss Reset] set' 1%nat
              (new_subSet (player_cursor 1) 1))
    as (s' & Hs' & Hf);
    [apply (sample_wf (player_cursor 1) 1)|exact Hrun
    |vm_compute; reflexivity|vm_compute; reflexivity|].
  by exists set', s'.
Defined.

Lemma fail_flags_latched_witness :
  ∃ set' s',
    run (st := settings) (listening (new_set (player_cursor 1) 2))
      [CallFail 1; CallPlayerStopped 1 0; CallFail 1] = Some set'
    ∧ cursors set' !! 1%nat = Some s'
    ∧ player s' = player (new_subSet (player_cursor 1) 2)
    ∧ 0 <= recoveries s' <= 2.
Proof.
  assert (∃ set',
            run (st := settings) (listening (new_set (player_cursor 1) 2))
              [CallFail 1; CallPlayerStopped 1 0; CallFail 1] = Some set')
    as [set' Hrun] by (eexists; vm_compute; reflexivity).
  destruct (fail_flags_latched (st := settings)
              (listening (new_set (player_cursor 1) 2))
              [CallFail 1; CallPlayerStopped 1 0; CallFail 1] set' 1%nat
              (new_subSet (player_cursor 1) 2))
    as (s' & Hs' & Hp & _ & _ & Hr);
    [apply (sample_wf (player_cursor 1) 2)|exact Hrun|vm_compute; reflexivity|].
  assert (0 <= recoveries s' <= recoveries (new_subSet (player_cursor 1) 2)) as Hb.
  { apply Hr. vm_compute. split; [discriminate|reflexivity]. }
  change (recoveries (new_subSet (player_cursor 1) 2)) with 2 in Hb.
  exists set', s'. split; [exact Hrun|]. split; [exact Hs'|]. split; [exact Hp|].
  exact Hb.
Defined.

Lemma sample_mask (m x : Modifier) :
  GetDiffMaskedMods (Z.lor m (Z.land x ScoreV2)) = GetDiffMaskedMods m.
Proof.
  cbn. rewrite Z.land_lor_distr_l, <- Z.land_assoc.
  change (Z.land 536870912 (2 + 16 + 64 + 256 + 1024)) with 0.
  by rewrite Z.land_0_r, Z.lor_0_r.
Qed.

Lemma attributes_available_witness :
  ∃ set s steps,
    run (st := settings) (new_set (replay_cursor 1) 0) session_100_miss = Some set
    ∧ cursors set !! 1%nat = Some s
    ∧ oppDiffs set !! GetDiffMaskedMods (Mods (diff (player s))) = Some steps
    ∧ steps ≠ [].
Proof.
  assert (∃ set,
            run (st := settings) (new_set (replay_cursor 1) 0) session_100_miss
            = Some set)
    as [set Hrun] by (eexists; vm_compute; reflexivity).
  destruct (attributes_available (st := settings) two_objects [replay_cursor 1] [0]
              (new_set (replay_cursor 1) 0) session_100_miss set 1%nat
              (new_subSet (replay_cursor 1) 0))
    as (s & steps & Hs & Hd & Hne);
    [apply sample_mask|apply NewOsuRuleset_sample|exact Hrun|vm_compute; reflexivity|].
  by exists set, s, steps.
Defined.

Lemma silent_calls_keep_score_witness :
  ∃ set' s',
    run (st := settings) (listening (new_set (player_cursor 1) 0))
      [CallUpdate 2000; CallPlayerStopped 1 0; CallFail 1] = Some set'
    ∧ cursors set' !! 1%nat = Some s'
    ∧ score s' = score (new_subSet (player_cursor 1) 0)
    ∧ numObjects s' = 0.
Proof.
  assert (∃ set',
            run (st := settings) (listening (new_set (player_cursor 1) 0))
              [CallUpdate 2000; CallPlayerStopped 1 0; CallFail 1] = Some set')
    as [set' Hrun] by (eexists; vm_compute; reflexivity).
  destruct (silent_calls_keep_score (st := settings)
              (listening (new_set (player_cursor 1) 0))
              [CallUpdate 2000; CallPlayerStopped 1 0; CallFail 1] set' 1%nat
              (new_subSet (player_cursor 1) 0))
    as (s' & Hs' & Hsc & _ & _ & Hn & _);
    [exact Hrun|vm_compute; reflexivity|vm_compute; reflexivity|].
  by exists set', s'.
Defined.

Lemma duo_set_built :
  NewOsuRuleset (st := settings) two_objects [replay_cursor 1; player_cursor 2] [0; 0]
  = Some duo_set.
Proof. by vm_compute. Qed.

Lemma SendResult_other_players_witness :
  ∃ set',
    SendResult (st := settings) duo_set 1000 1 judge0 0 0 Hit300 Increase = Some set'
    ∧ cursors set' !! 2%nat = cursors duo_set !! 2%nat.
Proof.
  assert (∃ set',
            SendResult (st := settings) duo_set 1000 1 judge0 0 0 Hit300 Increase
            = Some set')
    as [set' Hs] by (eexists; vm_compute; reflexivity).
  exists set'. split; [exact Hs|].
  apply (SendResult_other_players (st := settings) duo_set 1000 1%nat judge0 0 0
           Hit300 Increase set' 2%nat);
    [eapply NewOsuRuleset_wf; apply duo_set_built|exact Hs|discriminate].
Defined.

Lemma SendResult_performance_witness :
  ∃ set' s',
    SendResult (st := settings) (listening (new_set (replay_cursor 1) 128))
      1000 1 judge0 0 0 Hit300 Increase = Some set'
    ∧ cursors set' !! 1%nat = Some s'
    ∧ Performance (performance s')
      = calculate_score "songs/map.osu" 0 128 (Go.c_uint (Combo (score s')))
          (Accuracy (score s')) (Go.c_uint (CountMiss (score s'))) None.
Proof.
  assert (∃ set',
            SendResult (st := settings) (listening (new_set (replay_cursor 1) 128))
              1000 1 judge0 0 0 Hit300 Increase = Some set')
    as [set' Hs] by (eexists; vm_compute; reflexivity).
  destruct (SendResult_performance (st := settings)
              (listening (new_set (replay_cursor 1) 128)) 1000 1%nat judge0 0 0
              Hit300 Increase set' (new_subSet (replay_cursor 1) 128))
    as (s' & Hs' & _ & _ & Hp);
    [vm_compute; reflexivity|exact Hs|vm_compute; reflexivity|].
  exists set', s'. split_and!; [exact Hs|exact Hs'|exact Hp].
Defined.

Lemma SendResult_event_witness :
  ∃ set' e sc,
    SendResult (st := settings) (listening (new_set (replay_cursor 1) 0))
      1000 1 judge0 0 0 Hit300 Increase = Some set'
    ∧ hitLog set' = [e]
    ∧ OsuRuleSet_GetScore set' 1 = Some sc
    ∧ he_score e = Score_ sc ∧ he_number e = 0.
Proof.
  assert (∃ set',
            SendResult (st := settings) (listening (new_set (replay_cursor 1) 0))
              1000 1 judge0 0 0 Hit300 Increase = Some set')
    as [set' Hs] by (eexists; vm_compute; reflexivity).
  destruct (SendResult_event (st := settings)
              (listening (new_set (replay_cursor 1) 0)) 1000 1%nat judge0 0 0
              Hit300 Increase set')
    as (e & sc & Hlog & Hsc & _ & _ & Hn & _ & Hscore & _);
    [reflexivity|vm_compute; reflexivity|exact Hs|].
  exists set', e, sc. split_and!; [exact Hs|exact Hlog|exact Hsc|exact Hscore|exact Hn].
Defined.

Lemma tallies_bounded_witness :
  ∃ set s,
    run (st := settings) (new_set (replay_cursor 1) 0) session_100_miss = Some set
    ∧ cursors set !! 1%nat = Some s
    ∧ Count300 (score s) + Count100 (score s) + Count50 (score s) + CountMiss (score s)
      <= numObjects s
    ∧ 0 <= CountGeki (score s) + CountKatu (score s) <= numObjects s.
Proof.
  assert (∃ set,
            run (st := settings) (new_set (replay_cursor 1) 0) session_100_miss
            = Some set)
    as [set Hrun] by (eexists; vm_compute; reflexivity).
  destruct (tallies_bounded (st := settings) two_objects [replay_cursor 1] [0]
              (new_set (replay_cursor 1) 0) session_100_miss set 1%nat
              (new_subSet (replay_cursor 1) 0))
    as (s & l & Hs & _ & Hn & Ht & Hle & Hg);
    [apply NewOsuRuleset_sample|exact Hrun|vm_compute; reflexivity
    |vm_compute; reflexivity|].
  exists set, s. split_and!; [exact Hrun|exact Hs|lia|lia|lia].
Defined.

Lemma Update_activation_witness :
  ∃ set' kept moved,
    Update (st := settings) (new_set (replay_cursor 1) 0) 800 = Some set'
    ∧ queue (new_set (replay_cursor 1) 0) = moved ++ queue set'
    ∧ processed set' = kept ++ moved
    ∧ length moved = 2%nat.
Proof.
  assert (∃ set',
            Update (st := settings) (new_set (replay_cursor 1) 0) 800 = Some set')
    as [set' Hu] by (eexists; vm_compute; reflexivity).
  destruct (Update_activation (st := settings) (new_set (replay_cursor 1) 0) 800 set' Hu)
    as (kept & moved & Hq & Hp & _).
  exists set', kept, moved. split_and!; [exact Hu|exact Hq|exact Hp|].
  vm_compute in Hu. injection Hu as <-.
  apply (f_equal length) in Hq. rewrite length_app in Hq. simpl in Hq. lia.
Defined.

Lemma Update_end_listener_witness :
  ∃ set' ends,
    Update (st := settings) (SetEndListener activated true) 2000 = Some set'
    ∧ endLog set' = ends
    ∧ (length (processed set') + length (queue set') + length ends = 2)%nat.
Proof.
  assert (∃ set',
            Update (st := settings) (SetEndListener activated true) 2000 = Some set')
    as [set' Hu] by (eexists; vm_compute; reflexivity).
  destruct (Update_end_listener (st := settings) (SetEndListener activated true)
              2000 set' Hu)
    as (ends & Hlog & _ & Hcount).
  exists set', ends. split_and!; [exact Hu|exact Hlog|exact Hcount].
Defined.

Lemma ended_is_final_witness :
  ∃ set',
    run (st := settings) retired [CallUpdate 3000; CallSetListener true] = Some set'
    ∧ ended set' = true ∧ queue set' = [] ∧ processed set' = [].
Proof.
  assert (∃ set',
            run (st := settings) retired [CallUpdate 3000; CallSetListener true]
            = Some set')
    as [set' Hrun] by (eexists; vm_compute; reflexivity).
  destruct (ended_is_final (st := settings) retired
              [CallUpdate 3000; CallSetListener true] set' Hrun)
    as [Hm Hfin]; [intros _; split; reflexivity|].
  exists set'. split; [exact Hrun|].
  assert (ended set' = true) as He by (apply Hm; reflexivity).
  destruct (Hfin He) as [Hq Hp]. by split_and!.
Defined.

Lemma SendResult_returns_witness :
  ∃ set',
    SendResult (st := settings) (overlap_set (replay_cursor 1)) 1500 1
      (circle_on_slider (replay_cursor 1)) 0 0 Hit300 Increase = Some set'.
Proof.
  apply (SendResult_returns (st := settings) (overlap_set (replay_cursor 1)) 1500
           1%nat (circle_on_slider (replay_cursor 1)) 0 0 Hit300 Increase
           (new_subSet (replay_cursor 1) 0) [1; 2]);
    try (vm_compute; reflexivity).
  - vm_compute. split; [discriminate|reflexivity].
  - vm_compute. split; [discriminate|reflexivity].
  - repeat constructor; vm_compute; discriminate.
Defined.

Lemma pass_keeps_objects_witness :
  ∃ set' p',
    run_pass (st := settings) active_set (replay_cursor 1) (frame true false) idle
      1000 ClickPass = Some (set', p')
    ∧ queue set' = queue active_set
    ∧ length (processed set') = 2%nat
    ∧ length (hitLog set') = 1%nat.
Proof.
  assert (∃ set' p',
            run_pass (st := settings) active_set (replay_cursor 1) (frame true false)
              idle 1000 ClickPass = Some (set', p'))
    as (set' & p' & Hp) by (eexists _, _; vm_compute; reflexivity).
  destruct (pass_keeps_objects (st := settings) active_set (replay_cursor 1)
              (frame true false) idle 1000 ClickPass set' p' Hp)
    as (Hq & Hl & _).
  exists set', p'. split_and!; [exact Hp|exact Hq|exact Hl|].
  vm_compute in Hp. injection Hp as <- _. reflexivity.
Defined.

Lemma pass_failed_terminal_witness :
  ∃ set' p' s',
    run_pass (st := settings) failed_set (replay_cursor 1) (frame false false) idle
      2000 (PostPass false) = Some (set', p')
    ∧ cursors set' !! 1%nat = Some s'
    ∧ failed s' = true
    ∧ (fail_calls set' 1 ≤ fail_calls failed_set 1)%nat.
Proof.
  assert (∃ set' p',
            run_pass (st := settings) failed_set (replay_cursor 1)
              (frame false false) idle 2000 (PostPass false) = Some (set', p'))
    as (set' & p' & Hp) by (eexists _, _; vm_compute; reflexivity).
  assert (∃ s, cursors failed_set !! 1%nat = Some s ∧ failed s = true)
    as (s & Hs & Hf) by (eexists; split; vm_compute; reflexivity).
  destruct (pass_failed_terminal (st := settings) failed_set (replay_cursor 1)
              (frame false false) idle 2000 (PostPass false) set' p' 1%nat s Hp Hs)
    as (s' & Hs' & Hf' & Hn).
  rewrite Hf in Hn. exists set', p', s'.
  split_and!; [exact Hp|exact Hs'|by apply Hf'|lia].
Defined.

Lemma UpdateNormalFor_sliders_witness :
  ∃ set' p',
    UpdateNormalFor (st := settings) sliders_set (replay_cursor 1)
      (frame false false) idle 2000 false = Some (set', p')
    ∧ processed set' !! 1%nat = processed sliders_set !! 1%nat
    ∧ processed set' !! 0%nat ≠ processed sliders_set !! 0%nat.
Proof.
  assert (∃ set' p',
            UpdateNormalFor (st := settings) sliders_set (replay_cursor 1)
              (frame false false) idle 2000 false = Some (set', p'))
    as (set' & p' & Hu) by (eexists _, _; vm_compute; reflexivity).
  exists set', p'. split; [exact Hu|]. split.
  - eapply (UpdateNormalFor_sliders (st := settings) sliders_set (replay_cursor 1)
              (frame false false) idle 2000 false set' p'
              (new_subSet (replay_cursor 1) 0) 0 1);
      first [exact Hu|lia|vm_compute; reflexivity].
  - vm_compute in Hu. injection Hu as <- _. vm_compute. discriminate.
Defined.

Lemma UpdateClickFor_failed_witness :
  ∃ p',
    OsuRuleSet_UpdateClickFor (st := settings) failed_set (replay_cursor 1)
      (frame true false) idle 1000 = Some (failed_set, p')
    ∧ leftCond p' = true ∧ rightCond p' = false
    ∧ buttons p' = {| buttonState.Left := true; buttonState.Right := false |}.
Proof.
  assert (∃ s, cursors failed_set !! 1%nat = Some s ∧ failed s = true)
    as (s & Hs & Hf) by (eexists; split; vm_compute; reflexivity).
  destruct (UpdateClickFor_failed (st := settings) failed_set (replay_cursor 1)
              (frame true false) idle 1000 s Hs (or_introl Hf))
    as (p' & Hu & _ & _ & Htracked & _).
  destruct Htracked as (Hl & Hr & _ & _ & Hb); [reflexivity|].
  exists p'. split_and!; [exact Hu|exact Hl|exact Hr|exact Hb].
Defined.

Lemma click_on_rising_edge_witness :
  ∃ set1 p1,
    OsuRuleSet_UpdateClickFor (st := settings) active_set (replay_cursor 1)
      (frame true false) idle 1000 = Some (set1, p1)
    ∧ buttons p1 = {| buttonState.Left := true; buttonState.Right := false |}
    ∧ leftCond (click_edges (player (new_subSet (replay_cursor 1) 0))
                  (frame true true) p1) = false
    ∧ rightCond (click_edges (player (new_subSet (replay_cursor 1) 0))
                   (frame true true) p1) = true.
Proof.
  assert (∃ set1 p1,
            OsuRuleSet_UpdateClickFor (st := settings) active_set (replay_cursor 1)
              (frame true false) idle 1000 = Some (set1, p1))
    as (set1 & p1 & Hu) by (eexists _, _; vm_compute; reflexivity).
  destruct (click_on_rising_edge (st := settings) active_set (replay_cursor 1)
              (frame true false) (frame true true) idle 1000 set1 p1
              (new_subSet (replay_cursor 1) 0) Hu)
    as (Hb & _ & Hl & Hr & _); [vm_compute; reflexivity|reflexivity|reflexivity|].
  exists set1, p1. split_and!; [exact Hu|exact Hb|exact Hl|exact Hr].
Defined.

Lemma NewOsuRuleset_equipped_witness :
  ∃ set s,
    NewOsuRuleset (st := settings) two_objects [replay_cursor 1; player_cursor 2] [0; 2]
    = Some set
    ∧ cursors set !! 2%nat = Some s
    ∧ hp s = 200
    ∧ MapPath (performance s) = "songs/map.osu"
    ∧ scoreProcessor s = {| combo := 0; points := 0 |}.
Proof.
  assert (∃ set s,
            NewOsuRuleset (st := settings) two_objects
              [replay_cursor 1; player_cursor 2] [0; 2] = Some set
            ∧ cursors set !! 2%nat = Some s)
    as (set & s & Hset & Hs) by (eexists _, _; split; vm_compute; reflexivity).
  destruct (NewOsuRuleset_equipped (st := settings) two_objects
              [replay_cursor 1; player_cursor 2] [0; 2] set 2%nat s Hset Hs)
    as (_ & Hsc & Hhp & Hpath & _).
  exists set, s. split_and!; [exact Hset|exact Hs|exact Hhp|exact Hpath|].
  rewrite Hsc. by destruct (CheckModActive _ _).
Defined.

Lemma Update_health_tick_witness :
  ∃ set',
    Update (st := settings) active_set 1100 = Some set'
    ∧ cursors set' = (λ s, set_hp s (hpUpdate (hp s) 1100)) <$> cursors active_set
    ∧ hitLog set' = [] ∧ failLog set' = [].
Proof.
  assert (∃ set', Update (st := settings) active_set 1100 = Some set')
    as [set' Hu] by (eexists; vm_compute; reflexivity).
  destruct (Update_health_tick (st := settings) active_set 1100 set' Hu)
    as (Hc & Hh & Hf); [intros g _; reflexivity|intros c s _; reflexivity|].
  exists set'. split_and!; [exact Hu|exact Hc|exact Hh|exact Hf].
Defined.

Lemma SendResult_health_witness :
  ∃ set' e s',
    SendResult (st := settings) (listening (new_set (replay_cursor 1) 0))
      1100 1 judge0 0 0 Miss Reset = Some set'
    ∧ hitLog set' = [e]
    ∧ cursors set' !! 1%nat = Some s'
    ∧ hp s' = hpAddResult 200 (he_result e)
    ∧ failed s' = false.
Proof.
  assert (∃ set',
            SendResult (st := settings) (listening (new_set (replay_cursor 1) 0))
              1100 1 judge0 0 0 Miss Reset = Some set')
    as [set' Hs] by (eexists; vm_compute; reflexivity).
  destruct (SendResult_health (st := settings)
              (listening (new_set (replay_cursor 1) 0)) 1100 1%nat judge0 0 0
              Miss Reset set' (new_subSet (replay_cursor 1) 0))
    as (e & s' & Hlog & Hs' & Hq);
    [reflexivity|vm_compute; reflexivity|exact Hs|vm_compute; reflexivity|].
  exists set', e, s'.
  vm_compute in Hs. injection Hs as <-.
  vm_compute in Hs'. injection Hs' as <-.
  vm_compute in Hlog. injection Hlog as <-.
  destruct Hq as (Hhp & _ & Hfa & _); [reflexivity|vm_compute; reflexivity|].
  split_and!; [reflexivity|reflexivity|reflexivity|exact Hhp|exact Hfa].
Defined.

End CoverageConcrete.

(** * Concrete sessions of the overlay *)

Section OverlayConcrete.

Import SampleOverlay.

#[local] Existing Instances Sample.results gliders sprites tracks.

Lemma overlay_combo_tracks_witness :
  ∃ ov,
    ScoreOverlay.run ScoreOverlay.NewScoreOverlay (take 6 short_play) = Some ov
    ∧ ScoreOverlay.newCombo ov = 2
    ∧ 1 <= ScoreOverlay.combo ov <= 2
    ∧ ScoreOverlay.combobreaks ov = 0%nat.
Proof.
  assert (∃ ov,
            ScoreOverlay.run ScoreOverlay.NewScoreOverlay (take 6 short_play)
            = Some ov)
    as [ov Hrun] by (eexists; vm_compute; reflexivity).
  destruct (overlay_combo_tracks (take 6 short_play) ov Hrun)
    as (Hn & H0 & Hlag & Hb); [simpl; lia|].
  exists ov. change (ScoreOverlay.streak (take 6 short_play) 0) with 2 in Hn.
  split_and!; [exact Hrun|exact Hn|lia|lia|exact Hb].
Defined.

Lemma overlay_key_counters_witness :
  ∃ ov,
    ScoreOverlay.run ScoreOverlay.NewScoreOverlay short_play = Some ov
    ∧ ScoreOverlay.countLeft ov = 2
    ∧ ScoreOverlay.countRight ov = 1.
Proof.
  assert (ScoreOverlay.safe false short_play = true) as Hs
    by (vm_compute; reflexivity).
  pose proof (overlay_key_counters short_play ltac:(simpl; lia)) as H.
  rewrite Hs in H. destruct H as (ov & Hrun & Hl & Hr).
  exists ov. split_and!; [exact Hrun|exact Hl|exact Hr].
Defined.

End OverlayConcrete.
